(** * BusTub buffer pool: LRU-K replacer, buffer pool manager and page guards

    A shallow embedding of
      - src/buffer/lru_k_replacer.cpp
      - src/buffer/buffer_pool_manager.cpp
      - src/storage/page/page_guard.cpp
      - src/storage/disk/disk_scheduler.cpp
      - src/primer/trie.cpp
    followed by the properties of the storage-engine specification and by
    further properties of the code.

    Conventions.  [size_t] values are integers in [0, 2^64) and every
    arithmetic operation on them is reduced with [wrap64]; [page_id_t] and
    [frame_id_t] are C++ [int].  Mutexes and the per-frame reader/writer latch
    are not part of the state: every operation is run to completion by one
    thread.  A call that cannot return normally yields a [Fault]. *)

From stdpp Require Import gmap list.
From Stdlib Require Import ZArith Lia.

Open Scope Z_scope.

(** ** Machine integers and abnormal termination *)

Definition wrap64 (z : Z) : Z := z mod 2 ^ 64.

(** [int] increment as performed by [std::atomic<int>::operator++]
    (two's complement wrap-around). *)
Definition wrap_int (z : Z) : Z := (z + 2 ^ 31) mod 2 ^ 32 - 2 ^ 31.

(** Modelled from the spec: the sentinel of common/config.h, which is not part
    of the sources at hand.  The specification only says that page
    identifiers are non-negative and that a sentinel [INVALID] denotes "none";
    the value is the one BusTub uses, and the development relies on nothing
    but its being negative. *)
Definition INVALID_PAGE_ID : Z := -1.

(** Modelled from the spec: page size of common/config.h ("4096
    recommended"). *)
Definition BUSTUB_PAGE_SIZE : nat := 4096%nat.

(** The ways in which a call can fail to return.
    - [AssertionFailure]: a [BUSTUB_ASSERT] or [BUSTUB_ENSURE] whose condition
      is false.  Modelled from the spec: common/macros.h is not part of the
      sources; the specification requires programmer errors to be "surfaced
      as abort/assertion".
    - [BadOptionalAccess]: [std::optional::value()] on an empty optional.
    - [OutOfBounds]: an access outside a container, which C++ leaves
      undefined: [std::vector::operator[]] past the end, [pop_front()] on
      an empty [std::list], [*it] for an iterator at [end()].
    - [NullPointer]: dereference of an empty [std::shared_ptr].
    - [Deadlock]: a [std::mutex] locked again by the thread that holds it.
    - [Aborted]: [std::abort()]. *)
Inductive fault : Type :=
  | AssertionFailure
  | BadOptionalAccess
  | OutOfBounds
  | NullPointer
  | Deadlock
  | Aborted.

Inductive result (A : Type) : Type :=
  | Ok (a : A)
  | Fault (e : fault).
Arguments Ok {A} a.
Arguments Fault {A} e.

#[global] Instance result_bind : MBind result :=
  λ A B k m, match m with Ok a => k a | Fault e => Fault e end.

#[global] Instance result_ret : MRet result := λ A a, Ok a.

Definition BUSTUB_ASSERT (cond : bool) : result unit :=
  if cond then Ok tt else Fault AssertionFailure.

Definition BUSTUB_ENSURE (cond : bool) : result unit :=
  if cond then Ok tt else Fault AssertionFailure.

(** ** LRU-K replacer (src/buffer/lru_k_replacer.cpp) *)

Module Replacer.

(** Modelled from the spec: the declarations of buffer/lru_k_replacer.h
    ([AccessType], [LRUKNode] and the replacer's members) are not part of
    the sources; they are taken from section 3 of the specification and
    from the way lru_k_replacer.cpp uses them. *)
Inductive AccessType : Type := Unknown | Lookup | Scan | Index.

Definition is_scan (t : AccessType) : bool :=
  match t with Scan => true | _ => false end.

Record LRUKNode : Type := mkNode {
  history_ : list Z;        (* std::list<size_t>, oldest first *)
  is_evictable_ : bool
}.

(** [std::make_unique<LRUKNode>()] *)
Definition new_node : LRUKNode := mkNode [] false.

(** [node_store_] is a [std::unordered_map<frame_id_t, LRUKNode>].  [Evict]
    walks it with a range-for, so the order of iteration is observable; the
    map is therefore kept as the list of its entries in iteration order.
    The C++ standard leaves that order unspecified: the model links a new
    entry at the head, which is what the hash table of libstdc++ does for a
    key that falls in an empty bucket; a rehash, which a growing table
    undergoes, can reorder the entries, and the model does not follow it.
    Statements that do not depend on the order are proved for every
    list. *)
Abbreviation store := (list (Z * LRUKNode)).

Record LRUKReplacer : Type := mkReplacer {
  node_store_ : store;
  current_timestamp_ : Z;   (* size_t *)
  curr_size_ : Z;           (* size_t *)
  replacer_size_ : Z;       (* size_t *)
  k_ : Z                    (* size_t *)
}.

(** [node_store_.find(frame_id)] *)
Fixpoint store_find (frame_id : Z) (s : store) : option LRUKNode :=
  match s with
  | [] => None
  | (f, node) :: rest =>
      if f =? frame_id then Some node else store_find frame_id rest
  end.

(** [node_store_.erase(frame_id)] *)
Fixpoint store_erase (frame_id : Z) (s : store) : store :=
  match s with
  | [] => []
  | (f, node) :: rest =>
      if f =? frame_id then store_erase frame_id rest
      else (f, node) :: store_erase frame_id rest
  end.

(** [node_store_.insert(std::make_pair(frame_id, node))]: no effect when the
    key is present. *)
Definition store_insert (frame_id : Z) (node : LRUKNode) (s : store) : store :=
  match store_find frame_id s with
  | Some _ => s
  | None => (frame_id, node) :: s
  end.

(** Assignment through a reference to the mapped value of [frame_id]. *)
Fixpoint store_set (frame_id : Z) (node : LRUKNode) (s : store) : store :=
  match s with
  | [] => []
  | (f, old) :: rest =>
      if f =? frame_id then (f, node) :: rest
      else (f, old) :: store_set frame_id node rest
  end.

(** [node_store_[frame_id].history_.clear()]: [operator[]] default-constructs
    the entry when the key is absent. *)
Definition store_clear_history (frame_id : Z) (s : store) : store :=
  match store_find frame_id s with
  | Some node => store_set frame_id (mkNode [] (is_evictable_ node)) s
  | None => (frame_id, mkNode [] false) :: s
  end.

(** [LRUKReplacer::LRUKReplacer(num_frames, k)] *)
Definition init (num_frames k : Z) : LRUKReplacer :=
  mkReplacer [] 0 0 num_frames k.

(** The local variables of [Evict]. *)
Record EvictLocals : Type := mkLocals {
  evict_success : bool;
  is_inf : bool;
  max_delta_time : Z;
  ans : Z
}.

(** The range-for of [Evict] over the entries that remain to be visited. *)
Fixpoint Evict_loop (k now : Z) (s : store) (v : EvictLocals) : EvictLocals :=
  match s with
  | [] => v
  | (f_id, node) :: rest =>
      if negb (is_evictable_ node) then Evict_loop k now rest v
      else
        let v := mkLocals true (is_inf v) (max_delta_time v) (ans v) in
        match history_ node with
        | [] => mkLocals true (is_inf v) (max_delta_time v) f_id   (* break *)
        | front :: _ =>
            if (Z.of_nat (length (history_ node)) =? k) && negb (is_inf v) then
              let time_delta := wrap64 (now - front) in
              if max_delta_time v <? time_delta
              then Evict_loop k now rest (mkLocals true (is_inf v) time_delta f_id)
              else Evict_loop k now rest v
            else if Z.of_nat (length (history_ node)) <? k then
              let time_delta := wrap64 (now - front) in
              if time_delta >? max_delta_time v
              then Evict_loop k now rest (mkLocals true true time_delta f_id)
              else Evict_loop k now rest (mkLocals true true (max_delta_time v) (ans v))
            else Evict_loop k now rest v
        end
  end.

(** [LRUKReplacer::Evict] *)
Definition Evict (r : LRUKReplacer) : LRUKReplacer * option Z :=
  let v := Evict_loop (k_ r) (current_timestamp_ r) (node_store_ r)
             (mkLocals false false 0 INVALID_PAGE_ID) in
  let r' :=
    if evict_success v then
      mkReplacer (store_erase (ans v) (store_clear_history (ans v) (node_store_ r)))
                 (current_timestamp_ r)
                 (wrap64 (curr_size_ r - 1))
                 (replacer_size_ r) (k_ r)
    else r in
  if ans v =? INVALID_PAGE_ID then (r', None) else (r', Some (ans v)).

(** [history_.pop_front()]; the list must not be empty. *)
Definition pop_front (history : list Z) : result (list Z) :=
  match history with
  | [] => Fault OutOfBounds
  | _ :: rest => Ok rest
  end.

(** [LRUKReplacer::RecordAccess] *)
Definition RecordAccess (frame_id : Z) (access_type : AccessType)
    (r : LRUKReplacer) : result LRUKReplacer :=
  let helper := wrap64 frame_id in
  _ ← BUSTUB_ASSERT (helper <=? replacer_size_ r);
  match store_find frame_id (node_store_ r) with
  | None =>
      if negb (is_scan access_type) then
        Ok (mkReplacer
              (store_insert frame_id (mkNode [current_timestamp_ r] false) (node_store_ r))
              (wrap64 (current_timestamp_ r + 1))
              (curr_size_ r) (replacer_size_ r) (k_ r))
      else
        Ok (mkReplacer (store_insert frame_id new_node (node_store_ r))
              (current_timestamp_ r) (curr_size_ r) (replacer_size_ r) (k_ r))
  | Some node =>
      if negb (is_scan access_type) then
        h ← (if Z.of_nat (length (history_ node)) =? k_ r
             then pop_front (history_ node) else Ok (history_ node));
        Ok (mkReplacer
              (store_set frame_id
                 (mkNode (h ++ [current_timestamp_ r]) (is_evictable_ node))
                 (node_store_ r))
              (wrap64 (current_timestamp_ r + 1))
              (curr_size_ r) (replacer_size_ r) (k_ r))
      else Ok r
  end.

(** [LRUKReplacer::SetEvictable].  When the frame has no entry, the entry
    placed in the map is a copy of [*new_node_ptr], while the reference
    [node] is bound to [*new_node_ptr] itself: the flag is then written to
    an object that dies with the call, and only [curr_size_] keeps the
    change. *)
Definition SetEvictable (frame_id : Z) (set_evictable : bool)
    (r : LRUKReplacer) : result LRUKReplacer :=
  let helper := wrap64 frame_id in
  _ ← BUSTUB_ASSERT (helper <=? replacer_size_ r);
  match store_find frame_id (node_store_ r) with
  | None =>
      let s := store_insert frame_id new_node (node_store_ r) in
      let node := new_node in
      let '(node, size) :=
        if set_evictable && negb (is_evictable_ node)
        then (mkNode (history_ node) set_evictable, wrap64 (curr_size_ r + 1))
        else (node, curr_size_ r) in
      let '(_, size) :=
        if negb set_evictable && is_evictable_ node
        then (mkNode (history_ node) set_evictable, wrap64 (size - 1))
        else (node, size) in
      Ok (mkReplacer s (current_timestamp_ r) size (replacer_size_ r) (k_ r))
  | Some node =>
      let '(node, size) :=
        if set_evictable && negb (is_evictable_ node)
        then (mkNode (history_ node) set_evictable, wrap64 (curr_size_ r + 1))
        else (node, curr_size_ r) in
      let '(node, size) :=
        if negb set_evictable && is_evictable_ node
        then (mkNode (history_ node) set_evictable, wrap64 (size - 1))
        else (node, size) in
      Ok (mkReplacer (store_set frame_id node (node_store_ r))
            (current_timestamp_ r) size (replacer_size_ r) (k_ r))
  end.

(** [LRUKReplacer::Remove] *)
Definition Remove (frame_id : Z) (r : LRUKReplacer) : result LRUKReplacer :=
  match store_find frame_id (node_store_ r) with
  | None => Ok r
  | Some node =>
      _ ← BUSTUB_ASSERT (is_evictable_ node);
      Ok (mkReplacer
            (store_erase frame_id (store_clear_history frame_id (node_store_ r)))
            (current_timestamp_ r)
            (wrap64 (curr_size_ r - 1))
            (replacer_size_ r) (k_ r))
  end.

(** [LRUKReplacer::Size] *)
Definition Size (r : LRUKReplacer) : Z := curr_size_ r.

(** Number of tracked nodes whose [is_evictable_] flag is set. *)
Fixpoint count_evictable (s : store) : Z :=
  match s with
  | [] => 0
  | (_, node) :: rest =>
      (if is_evictable_ node then 1 else 0) + count_evictable rest
  end.

End Replacer.


(** ** Frames, disk and the state of the buffer pool *)

Module Pool.

(** [FrameHeader] (include/buffer/buffer_pool_manager.h).  The reader/writer
    latch is not part of the state. *)
Record FrameHeader : Type := mkFrame {
  frame_id_ : Z;            (* const frame_id_t *)
  pin_count_ : Z;           (* std::atomic<size_t> *)
  is_dirty_ : bool;
  data_ : list Z            (* std::vector<char> *)
}.

(** [FrameHeader::Reset] *)
Definition Reset (f : FrameHeader) : FrameHeader :=
  mkFrame (frame_id_ f) 0 false (replicate (length (data_ f)) 0).

(** [FrameHeader::FrameHeader(frame_id)] *)
Definition new_frame (frame_id : Z) : FrameHeader :=
  Reset (mkFrame frame_id 0 false (replicate BUSTUB_PAGE_SIZE 0)).

(** Modelled from the spec: the disk manager is an external collaborator of
    which only the contract is known (section 6 of the specification), and
    storage/disk/disk_scheduler.h with [IncreaseDiskSpace] and
    [DeallocatePage] is not part of the sources.  The disk is a finite map
    from page identifiers to page contents; every call that reaches it is
    also recorded, oldest first. *)
Inductive DiskEvent : Type :=
  | EvWrite (page_id : Z) (data : list Z)
  | EvRead (page_id : Z)
  | EvIncreaseDiskSpace (pages : Z)
  | EvDeallocatePage (page_id : Z).

Record DiskScheduler : Type := mkDisk {
  pages_ : gmap Z (list Z);
  log_ : list DiskEvent
}.

Record DiskRequest : Type := mkRequest {
  is_write_ : bool;
  req_data_ : list Z;       (* contents of the buffer [data_] points to *)
  req_page_id_ : Z
}.

(** [DiskScheduler::Schedule] followed by [future.get()]: the request is
    queued, the worker of [StartWorkerThread] takes it and calls
    [WritePage] or [ReadPage] of the disk manager, then fulfils the promise.
    Every caller in the buffer pool waits for the promise at once, so the
    queue never holds more than this request.  The result is the buffer
    after the request. *)
Definition Schedule (r : DiskRequest) (d : DiskScheduler) : DiskScheduler * list Z :=
  if is_write_ r then
    (mkDisk (<[req_page_id_ r := req_data_ r]> (pages_ d))
            (log_ d ++ [EvWrite (req_page_id_ r) (req_data_ r)]),
     req_data_ r)
  else
    (mkDisk (pages_ d) (log_ d ++ [EvRead (req_page_id_ r)]),
     default (replicate (length (req_data_ r)) 0) (pages_ d !! req_page_id_ r)).

Definition IncreaseDiskSpace (pages : Z) (d : DiskScheduler) : DiskScheduler :=
  mkDisk (pages_ d) (log_ d ++ [EvIncreaseDiskSpace pages]).

Definition DeallocatePage (page_id : Z) (d : DiskScheduler) : DiskScheduler :=
  mkDisk (pages_ d) (log_ d ++ [EvDeallocatePage page_id]).

(** The members of [BufferPoolManager]; [bpm_latch_] and [log_manager_] carry
    no state. *)
Record BufferPoolManager : Type := mkBPM {
  num_frames_ : Z;                     (* const size_t *)
  next_page_id_ : Z;                   (* std::atomic<page_id_t> *)
  frames_ : list FrameHeader;
  page_table_ : gmap Z Z;              (* page_id -> frame_id *)
  free_frames_ : list Z;
  replacer_ : Replacer.LRUKReplacer;
  disk_scheduler_ : DiskScheduler
}.

(** [frames_[i]] *)
Definition frame_at (i : Z) (frames : list FrameHeader) : result FrameHeader :=
  if i <? 0 then Fault OutOfBounds
  else match frames !! Z.to_nat i with
       | Some f => Ok f
       | None => Fault OutOfBounds
       end.

(** Assignment through [frames_[i]]. *)
Definition set_frame (i : Z) (f : FrameHeader) (frames : list FrameHeader)
    : list FrameHeader :=
  <[Z.to_nat i := f]> frames.

Definition with_frames (b : BufferPoolManager) (frames : list FrameHeader)
    : BufferPoolManager :=
  mkBPM (num_frames_ b) (next_page_id_ b) frames (page_table_ b)
        (free_frames_ b) (replacer_ b) (disk_scheduler_ b).

Definition with_replacer (b : BufferPoolManager) (r : Replacer.LRUKReplacer)
    : BufferPoolManager :=
  mkBPM (num_frames_ b) (next_page_id_ b) (frames_ b) (page_table_ b)
        (free_frames_ b) r (disk_scheduler_ b).

Definition with_disk (b : BufferPoolManager) (d : DiskScheduler)
    : BufferPoolManager :=
  mkBPM (num_frames_ b) (next_page_id_ b) (frames_ b) (page_table_ b)
        (free_frames_ b) (replacer_ b) d.

(** [page_table_.emplace(page_id, frame_id)]: no effect when the key is
    present. *)
Definition emplace (page_id frame_id : Z) (pt : gmap Z Z) : gmap Z Z :=
  match pt !! page_id with
  | Some _ => pt
  | None => <[page_id := frame_id]> pt
  end.

(** [BufferPoolManager::BufferPoolManager(num_frames, disk_manager, k_dist)]:
    every frame starts on the free list. *)
Definition init (num_frames k_dist : Z) (disk : DiskScheduler) : BufferPoolManager :=
  mkBPM num_frames 0
        (map new_frame (seqZ 0 num_frames))
        ∅
        (seqZ 0 num_frames)
        (Replacer.init num_frames k_dist)
        disk.

(** The fields of a page guard.  [frame_] is the frame the shared pointer
    refers to, [None] for an empty pointer; the replacer and the latch belong
    to the one pool there is, so [guard_replacer_] and [bpm_latch_] only say
    whether the pointer is set.  The member [bpm_] is never assigned. *)
Record PageGuard : Type := mkGuard {
  page_id_ : Z;
  frame_ : option Z;
  guard_replacer_ : bool;
  bpm_latch_ : bool;
  is_valid_ : bool
}.

(** A guard whose members have been default-initialised; [page_id_] has no
    initialiser and holds whatever [junk] was in memory. *)
Definition default_guard (junk : Z) : PageGuard :=
  mkGuard junk None false false false.

(** [frame_->...]: dereference of the guard's shared pointer. *)
Definition deref_frame (g : PageGuard) (b : BufferPoolManager) : result (Z * FrameHeader) :=
  match frame_ g with
  | None => Fault NullPointer
  | Some i => f ← frame_at i (frames_ b); Ok (i, f)
  end.

(** [replacer_->RecordAccess(frame_id); replacer_->SetEvictable(frame_id, false)]
    through the guard's pointer to the replacer. *)
Definition touch_replacer (g : PageGuard) (frame_id : Z) (b : BufferPoolManager)
    : result BufferPoolManager :=
  if negb (guard_replacer_ g) then Fault NullPointer
  else
    r ← Replacer.RecordAccess frame_id Replacer.Unknown (replacer_ b);
    r ← Replacer.SetEvictable frame_id false r;
    Ok (with_replacer b r).

End Pool.

(** ** Page guards (src/storage/page/page_guard.cpp) *)

Module ReadPageGuard.
Import Pool.

(** [ReadPageGuard::Drop] *)
Definition Drop (g : PageGuard) (b : BufferPoolManager)
    : result (PageGuard * BufferPoolManager) :=
  if negb (is_valid_ g) then Ok (g, b)
  else
    match frame_ g with
    | Some i =>
        f ← frame_at i (frames_ b);
        if pin_count_ f <=? 0 then Ok (g, b)
        else
          let pin := wrap64 (pin_count_ f - 1) in
          let b := with_frames b
                     (set_frame i (mkFrame (frame_id_ f) pin (is_dirty_ f) (data_ f))
                        (frames_ b)) in
          b ← (if pin =? 0 then
                 if negb (guard_replacer_ g) then Fault NullPointer
                 else r ← Replacer.SetEvictable (frame_id_ f) true (replacer_ b);
                      Ok (with_replacer b r)
               else Ok b);
          Ok (mkGuard (page_id_ g) None false false false, b)
    | None => Ok (mkGuard (page_id_ g) None false false false, b)
    end.

(** [ReadPageGuard::GetPageId] *)
Definition GetPageId (g : PageGuard) : result Z :=
  _ ← BUSTUB_ENSURE (is_valid_ g); Ok (page_id_ g).

(** [ReadPageGuard::GetData]: the bytes behind the returned pointer. *)
Definition GetData (g : PageGuard) (b : BufferPoolManager) : result (list Z) :=
  _ ← BUSTUB_ENSURE (is_valid_ g);
  '(_, f) ← deref_frame g b;
  Ok (data_ f).

(** [ReadPageGuard::IsDirty] *)
Definition IsDirty (g : PageGuard) (b : BufferPoolManager) : result bool :=
  _ ← BUSTUB_ENSURE (is_valid_ g);
  '(_, f) ← deref_frame g b;
  Ok (is_dirty_ f).

(** [ReadPageGuard::ReadPageGuard(page_id, frame, replacer, bpm_latch)] *)
Definition ctor (page_id frame : Z) (b : BufferPoolManager)
    : result (PageGuard * BufferPoolManager) :=
  let this := mkGuard page_id (Some frame) true true false in
  '(_, f) ← deref_frame this b;
  b ← touch_replacer this (frame_id_ f) b;
  Ok (mkGuard page_id (Some frame) true true true, b).

(** [ReadPageGuard::ReadPageGuard(ReadPageGuard &&that)].  The result is the
    new guard, the guard moved from, and the pool.  [that.is_valid_] is left
    as it was. *)
Definition move_ctor (junk : Z) (that : PageGuard) (b : BufferPoolManager)
    : result (PageGuard * PageGuard * BufferPoolManager) :=
  let this := default_guard junk in
  '(this, b) ← Drop this b;
  if is_valid_ that then
    page_id ← GetPageId that;
    let this := mkGuard page_id (frame_ that) (guard_replacer_ that)
                        (bpm_latch_ that) true in
    let that := mkGuard (page_id_ that) None false false (is_valid_ that) in
    '(_, f) ← deref_frame this b;
    b ← touch_replacer this (frame_id_ f) b;
    Ok (this, that, b)
  else Ok (this, that, b).

(** [ReadPageGuard::operator=(ReadPageGuard &&that)] for [this != &that]. *)
Definition move_assign (this that : PageGuard) (b : BufferPoolManager)
    : result (PageGuard * PageGuard * BufferPoolManager) :=
  '(this, b) ← Drop this b;
  if is_valid_ that then
    page_id ← GetPageId that;
    let this := mkGuard page_id (frame_ that) (guard_replacer_ that)
                        (bpm_latch_ that) true in
    let that := mkGuard (page_id_ that) None false false false in
    '(_, f) ← deref_frame this b;
    b ← touch_replacer this (frame_id_ f) b;
    Ok (this, that, b)
  else Ok (this, that, b).

End ReadPageGuard.

Module WritePageGuard.
Import Pool.

(** [WritePageGuard::Drop] *)
Definition Drop (g : PageGuard) (b : BufferPoolManager)
    : result (PageGuard * BufferPoolManager) :=
  if negb (is_valid_ g) then Ok (g, b)
  else
    '(i, f) ← deref_frame g b;
    if pin_count_ f =? 0 then Ok (g, b)
    else
      let pin := wrap64 (pin_count_ f - 1) in
      let b := with_frames b
                 (set_frame i (mkFrame (frame_id_ f) pin (is_dirty_ f) (data_ f))
                    (frames_ b)) in
      b ← (if pin =? 0 then
             if negb (guard_replacer_ g) then Fault NullPointer
             else r ← Replacer.SetEvictable (frame_id_ f) true (replacer_ b);
                  Ok (with_replacer b r)
           else Ok b);
      Ok (mkGuard (page_id_ g) None false false false, b).

(** [WritePageGuard::GetPageId] *)
Definition GetPageId (g : PageGuard) : result Z :=
  _ ← BUSTUB_ENSURE (is_valid_ g); Ok (page_id_ g).

(** [WritePageGuard::GetData] *)
Definition GetData (g : PageGuard) (b : BufferPoolManager) : result (list Z) :=
  _ ← BUSTUB_ENSURE (is_valid_ g);
  '(_, f) ← deref_frame g b;
  Ok (data_ f).

(** [WritePageGuard::GetDataMut] followed by a store of [bytes] at the start
    of the buffer through the returned pointer. *)
Definition GetDataMut_store (g : PageGuard) (bytes : list Z) (b : BufferPoolManager)
    : result BufferPoolManager :=
  _ ← BUSTUB_ENSURE (is_valid_ g);
  '(i, f) ← deref_frame g b;
  if (length (data_ f) <? length bytes)%nat then Fault OutOfBounds
  else
    Ok (with_frames b
          (set_frame i
             (mkFrame (frame_id_ f) (pin_count_ f) (is_dirty_ f)
                      (bytes ++ drop (length bytes) (data_ f)))
             (frames_ b))).

(** [WritePageGuard::IsDirty] *)
Definition IsDirty (g : PageGuard) (b : BufferPoolManager) : result bool :=
  _ ← BUSTUB_ENSURE (is_valid_ g);
  '(_, f) ← deref_frame g b;
  Ok (is_dirty_ f).

(** [WritePageGuard::WritePageGuard(page_id, frame, replacer, bpm_latch)] *)
Definition ctor (page_id frame : Z) (b : BufferPoolManager)
    : result (PageGuard * BufferPoolManager) :=
  let this := mkGuard page_id (Some frame) true true false in
  '(_, f) ← deref_frame this b;
  b ← touch_replacer this (frame_id_ f) b;
  Ok (mkGuard page_id (Some frame) true true true, b).

(** [WritePageGuard::WritePageGuard(WritePageGuard &&that)] *)
Definition move_ctor (junk : Z) (that : PageGuard) (b : BufferPoolManager)
    : result (PageGuard * PageGuard * BufferPoolManager) :=
  let this := default_guard junk in
  if is_valid_ that then
    page_id ← GetPageId that;
    let this := mkGuard page_id (frame_ that) (guard_replacer_ that)
                        (bpm_latch_ that) true in
    let that := mkGuard (page_id_ that) None false false false in
    '(_, f) ← deref_frame this b;
    b ← touch_replacer this (frame_id_ f) b;
    Ok (this, that, b)
  else Ok (this, that, b).

(** [WritePageGuard::operator=(WritePageGuard &&that)] for [this != &that];
    the guard assigned to is not dropped first. *)
Definition move_assign (this that : PageGuard) (b : BufferPoolManager)
    : result (PageGuard * PageGuard * BufferPoolManager) :=
  if is_valid_ that then
    page_id ← GetPageId that;
    let this := mkGuard page_id (frame_ that) (guard_replacer_ that)
                        (bpm_latch_ that) true in
    let that := mkGuard (page_id_ that) None false false false in
    '(_, f) ← deref_frame this b;
    b ← touch_replacer this (frame_id_ f) b;
    Ok (this, that, b)
  else Ok (this, that, b).

End WritePageGuard.

(** ** Buffer pool manager (src/buffer/buffer_pool_manager.cpp) *)

Module BPM.
Import Pool.

(** [BufferPoolManager::Size] *)
Definition Size (b : BufferPoolManager) : Z := num_frames_ b.

(** [BufferPoolManager::NewPage] *)
Definition NewPage (b : BufferPoolManager) : result (BufferPoolManager * Z) :=
  '(free_frame_id, free, repl) ←
    match free_frames_ b with
    | f :: rest => Ok (f, rest, replacer_ b)
    | [] =>
        let '(repl, pid) := Replacer.Evict (replacer_ b) in
        match pid with
        | Some f => Ok (f, [], repl)
        | None => Fault BadOptionalAccess      (* pid.value() *)
        end
    end;
  newpage ← frame_at free_frame_id (frames_ b);
  let pt := delete (frame_id_ newpage) (page_table_ b) in
  let allocate_page_id := next_page_id_ b in
  let disk := IncreaseDiskSpace allocate_page_id (disk_scheduler_ b) in
  let pt := emplace allocate_page_id free_frame_id pt in
  let frames := set_frame free_frame_id (Reset newpage) (frames_ b) in
  repl ← Replacer.RecordAccess free_frame_id Replacer.Unknown repl;
  repl ← Replacer.SetEvictable free_frame_id false repl;
  Ok (mkBPM (num_frames_ b) (wrap_int (next_page_id_ b + 1)) frames pt free repl disk,
      allocate_page_id).

(** [BufferPoolManager::DeletePage] *)
Definition DeletePage (page_id : Z) (b : BufferPoolManager)
    : result (BufferPoolManager * bool) :=
  if page_id =? INVALID_PAGE_ID then Ok (b, true)
  else
    match page_table_ b !! page_id with
    | Some frame_id =>
        page ← frame_at frame_id (frames_ b);
        if pin_count_ page >? 0 then Ok (b, false)
        else
          let pt := delete page_id (page_table_ b) in
          let free := free_frames_ b ++ [frame_id] in
          repl ← Replacer.Remove frame_id (replacer_ b);
          let page := Reset page in
          let page := mkFrame (frame_id_ page) 0 false (data_ page) in
          let frames := set_frame frame_id page (frames_ b) in
          let disk := DeallocatePage page_id (disk_scheduler_ b) in
          Ok (mkBPM (num_frames_ b) (next_page_id_ b) frames pt free repl disk, true)
    | None =>
        Ok (with_disk b (DeallocatePage page_id (disk_scheduler_ b)), true)
    end.

(** [BufferPoolManager::FlushPage] *)
Definition FlushPage (page_id : Z) (b : BufferPoolManager)
    : result (BufferPoolManager * bool) :=
  _ ← BUSTUB_ASSERT (negb (page_id =? INVALID_PAGE_ID));
  match page_table_ b !! page_id with
  | None => Ok (b, false)
  | Some frame_id =>
      f ← frame_at frame_id (frames_ b);
      let '(disk, _) := Schedule (mkRequest true (data_ f) page_id) (disk_scheduler_ b) in
      let frames := set_frame frame_id
                      (mkFrame (frame_id_ f) (pin_count_ f) false (data_ f)) (frames_ b) in
      Ok (mkBPM (num_frames_ b) (next_page_id_ b) frames (page_table_ b)
                (free_frames_ b) (replacer_ b) disk, true)
  end.

(** The body of the range-for of [BufferPoolManager::FlushAllPages], for
    the entry [(page_id, frame_id)] of the page table. *)
Definition flush_entry (e : Z * Z) (b : BufferPoolManager)
    : result BufferPoolManager :=
  let '(page_id, frame_id) := e in
  _ ← BUSTUB_ASSERT (negb (page_id =? INVALID_PAGE_ID));
  f ← frame_at frame_id (frames_ b);
  let '(disk, _) := Schedule (mkRequest true (data_ f) page_id) (disk_scheduler_ b) in
  let frames := set_frame frame_id
                  (mkFrame (frame_id_ f) (pin_count_ f) false (data_ f)) (frames_ b) in
  Ok (mkBPM (num_frames_ b) (next_page_id_ b) frames (page_table_ b)
            (free_frames_ b) (replacer_ b) disk).

(** The range-for itself, over the entries that remain to be visited. *)
Fixpoint flush_entries (entries : list (Z * Z)) (b : BufferPoolManager)
    : result BufferPoolManager :=
  match entries with
  | [] => Ok b
  | e :: rest => b ← flush_entry e b; flush_entries rest b
  end.

(** [BufferPoolManager::FlushAllPages].  [page_table_] is a
    [std::unordered_map], whose order of iteration is unspecified; the
    entries are taken in the order of [map_to_list].  What is proved of the
    function is proved of [flush_entries] for every order. *)
Definition FlushAllPages (b : BufferPoolManager) : result BufferPoolManager :=
  flush_entries (map_to_list (page_table_ b)) b.

(** [BufferPoolManager::GetPinCount] *)
Definition GetPinCount (page_id : Z) (b : BufferPoolManager) : result (option Z) :=
  match page_table_ b !! page_id with
  | None => Ok None
  | Some frame_id => f ← frame_at frame_id (frames_ b); Ok (Some (pin_count_ f))
  end.

(** The part that [CheckedReadPage] and [CheckedWritePage] have in common
    when the page is not in the page table, up to the test of the dirty
    flag: [Evict] is called first, then the free list is looked at.  The
    result is [None] for [return std::nullopt], otherwise the frame chosen. *)
Definition acquire_frame (b : BufferPoolManager)
    : BufferPoolManager * option Z :=
  let '(repl, pid) := Replacer.Evict (replacer_ b) in
  match free_frames_ b with
  | f :: rest =>
      (mkBPM (num_frames_ b) (next_page_id_ b) (frames_ b) (page_table_ b)
             rest repl (disk_scheduler_ b), Some f)
  | [] =>
      match pid with
      | None => (with_replacer b repl, None)
      | Some f => (with_replacer b repl, Some f)
      end
  end.

(** The statements of [CheckedReadPage] and [CheckedWritePage] from
    [page_table_.erase] to the second call of the replacer. *)
Definition install_page (page_id free_frame_id : Z) (b : BufferPoolManager)
    : result BufferPoolManager :=
  newpage ← frame_at free_frame_id (frames_ b);
  let pt := delete (frame_id_ newpage) (page_table_ b) in
  let pt := emplace page_id free_frame_id pt in
  let frames := set_frame free_frame_id (Reset newpage) (frames_ b) in
  repl ← Replacer.RecordAccess free_frame_id Replacer.Unknown (replacer_ b);
  repl ← Replacer.SetEvictable free_frame_id false repl;
  Ok (mkBPM (num_frames_ b) (next_page_id_ b) frames pt (free_frames_ b) repl
            (disk_scheduler_ b)).

(** [frame->pin_count_++] *)
Definition pin (frame_id : Z) (b : BufferPoolManager) : result BufferPoolManager :=
  f ← frame_at frame_id (frames_ b);
  Ok (with_frames b
        (set_frame frame_id
           (mkFrame (frame_id_ f) (wrap64 (pin_count_ f + 1)) (is_dirty_ f) (data_ f))
           (frames_ b))).

Definition set_valid (g : PageGuard) : PageGuard :=
  mkGuard (page_id_ g) (frame_ g) (guard_replacer_ g) (bpm_latch_ g) true.

(** The rest of [CheckedReadPage] once the frame is chosen, from
    [auto &newpage = frames_[free_frame_id]] to the end: a dirty frame is
    written out under the identifier [newpage->frame_id_], the page table is
    updated, the frame is reset and handed out behind a guard.
    [std::make_optional] moves the local guard into the result, after which
    the local guard is destroyed; the guard moved from is valid, so the value
    of the uninitialised [page_id_] of the new guard plays no part. *)
Definition read_into_frame (page_id free_frame_id : Z) (b : BufferPoolManager)
    : result (BufferPoolManager * option PageGuard) :=
  newpage ← frame_at free_frame_id (frames_ b);
  let b :=
    if is_dirty_ newpage then
      let '(disk, _) :=
        Schedule (mkRequest true (data_ newpage) (frame_id_ newpage))
                 (disk_scheduler_ b) in
      mkBPM (num_frames_ b) (next_page_id_ b)
            (set_frame free_frame_id
               (mkFrame (frame_id_ newpage) (pin_count_ newpage) false
                        (data_ newpage))
               (frames_ b))
            (page_table_ b) (free_frames_ b) (replacer_ b) disk
    else b in
  b ← install_page page_id free_frame_id b;
  '(read_guard, b) ← ReadPageGuard.ctor page_id free_frame_id b;
  let read_guard := set_valid read_guard in
  b ← pin free_frame_id b;
  '(ret, read_guard, b) ← ReadPageGuard.move_ctor 0 read_guard b;
  '(_, b) ← ReadPageGuard.Drop read_guard b;
  Ok (b, Some ret).

(** [BufferPoolManager::CheckedReadPage] *)
Definition CheckedReadPage (page_id : Z) (access_type : Replacer.AccessType)
    (b : BufferPoolManager) : result (BufferPoolManager * option PageGuard) :=
  if page_id =? INVALID_PAGE_ID then Ok (b, None)
  else
    match page_table_ b !! page_id with
    | Some frame_id =>
        b ← pin frame_id b;
        '(read_guard, b) ← ReadPageGuard.ctor page_id frame_id b;
        let read_guard := set_valid read_guard in
        '(ret, read_guard, b) ← ReadPageGuard.move_ctor 0 read_guard b;
        '(_, b) ← ReadPageGuard.Drop read_guard b;
        Ok (b, Some ret)
    | None =>
        let '(b, victim) := acquire_frame b in
        match victim with
        | None => Ok (b, None)
        | Some free_frame_id => read_into_frame page_id free_frame_id b
        end
    end.

(** The rest of [CheckedWritePage] once the frame is chosen.  On a dirty
    frame the function calls [FlushPage(page_id)] while it holds
    [bpm_latch_], and [FlushPage] starts by locking the same [std::mutex]. *)
Definition write_into_frame (page_id free_frame_id : Z) (b : BufferPoolManager)
    : result (BufferPoolManager * option PageGuard) :=
  newpage ← frame_at free_frame_id (frames_ b);
  _ ← (if is_dirty_ newpage then Fault Deadlock else Ok tt);
  b ← install_page page_id free_frame_id b;
  '(write_guard, b) ← WritePageGuard.ctor page_id free_frame_id b;
  let write_guard := set_valid write_guard in
  b ← pin free_frame_id b;
  '(ret, write_guard, b) ← WritePageGuard.move_ctor 0 write_guard b;
  '(_, b) ← WritePageGuard.Drop write_guard b;
  Ok (b, Some ret).

(** [BufferPoolManager::CheckedWritePage] *)
Definition CheckedWritePage (page_id : Z) (access_type : Replacer.AccessType)
    (b : BufferPoolManager) : result (BufferPoolManager * option PageGuard) :=
  if page_id =? INVALID_PAGE_ID then Ok (b, None)
  else
    match page_table_ b !! page_id with
    | Some frame_id =>
        b ← pin frame_id b;
        '(write_guard, b) ← WritePageGuard.ctor page_id frame_id b;
        let write_guard := set_valid write_guard in
        '(ret, write_guard, b) ← WritePageGuard.move_ctor 0 write_guard b;
        '(_, b) ← WritePageGuard.Drop write_guard b;
        Ok (b, Some ret)
    | None =>
        let '(b, victim) := acquire_frame b in
        match victim with
        | None => Ok (b, None)
        | Some free_frame_id => write_into_frame page_id free_frame_id b
        end
    end.

(** [BufferPoolManager::ReadPage]: the guard is moved out of the optional,
    whose own guard is then destroyed. *)
Definition ReadPage (page_id : Z) (access_type : Replacer.AccessType)
    (b : BufferPoolManager) : result (BufferPoolManager * PageGuard) :=
  '(b, guard_opt) ← CheckedReadPage page_id access_type b;
  match guard_opt with
  | None => Fault Aborted
  | Some g =>
      '(ret, g, b) ← ReadPageGuard.move_ctor 0 g b;
      '(_, b) ← ReadPageGuard.Drop g b;
      Ok (b, ret)
  end.

(** [BufferPoolManager::WritePage] *)
Definition WritePage (page_id : Z) (access_type : Replacer.AccessType)
    (b : BufferPoolManager) : result (BufferPoolManager * PageGuard) :=
  '(b, guard_opt) ← CheckedWritePage page_id access_type b;
  match guard_opt with
  | None => Fault Aborted
  | Some g =>
      '(ret, g, b) ← WritePageGuard.move_ctor 0 g b;
      '(_, b) ← WritePageGuard.Drop g b;
      Ok (b, ret)
  end.

End BPM.

(** * Invariants and derived notions *)

Module Inv.
Import Replacer.

(** What a frame's entry in the replacer looks like after any sequence of
    calls: the frame identifier passed the assertion of [RecordAccess], the
    history holds at most [k] timestamps, all of them taken from the counter
    before its current value. *)
Definition node_ok (k now bound : Z) (e : Z * LRUKNode) : Prop :=
  0 ≤ e.1 ≤ bound ∧
  Z.of_nat (length (history_ e.2)) ≤ k ∧
  Forall (λ t, 0 ≤ t < now) (history_ e.2).

(** Consistency of a replacer.  [curr_size_] is only required to be at
    least the number of evictable entries (see [SetEvictable]). *)
Record wf (r : LRUKReplacer) : Prop := mk_wf {
  wf_k : 1 ≤ k_ r;
  wf_now : 0 ≤ current_timestamp_ r < 2 ^ 64;
  wf_bound : 0 ≤ replacer_size_ r < 2 ^ 31;
  wf_nodes : Forall (node_ok (k_ r) (current_timestamp_ r) (replacer_size_ r))
                    (node_store_ r);
  wf_nodup : NoDup (node_store_ r).*1;
  wf_size : count_evictable (node_store_ r) ≤ curr_size_ r < 2 ^ 64
}.

(** [f] has an entry whose flag is set. *)
Definition evictable_in (s : store) (f : Z) : Prop :=
  ∃ node, (f, node) ∈ s ∧ is_evictable_ node = true.

(** Evictability of a frame as the replacer sees it; a frame without an
    entry is not evictable. *)
Definition is_ev (f : Z) (r : LRUKReplacer) : bool :=
  match store_find f (node_store_ r) with
  | Some node => is_evictable_ node
  | None => false
  end.

Definition tracked (f : Z) (r : LRUKReplacer) : bool :=
  match store_find f (node_store_ r) with
  | Some _ => true
  | None => false
  end.

(** [RecordAccess(frame_id)] followed by [SetEvictable(frame_id, false)]: the
    two calls that the constructors of the guards, their move operations,
    [NewPage] and the fetch of a page make on the replacer. *)
Definition touch (frame_id : Z) (r : LRUKReplacer) : result LRUKReplacer :=
  r ← RecordAccess frame_id Unknown r; SetEvictable frame_id false r.

End Inv.

(** ** Occupancy of the pool *)

Module PoolInv.
Import Pool.

(** Number of frames with [pin_count_ > 0]. *)
Fixpoint pinned_frames (frames : list FrameHeader) : Z :=
  match frames with
  | [] => 0
  | f :: rest => (if 0 <? pin_count_ f then 1 else 0) + pinned_frames rest
  end.

(** The sum of the specification: pinned frames, plus the length of the
    free list, plus [Size()] of the replacer. *)
Definition occupancy (b : BufferPoolManager) : Z :=
  pinned_frames (frames_ b)
  + Z.of_nat (length (free_frames_ b))
  + Replacer.Size (replacer_ b).

(** Consistency of the bookkeeping of a pool: the replacer is consistent and
    sized for the pool, frame [i] sits at index [i], the counters are away
    from their upper limit, and
    - the free list has no duplicates, and a frame on it is in range,
      unpinned and not evictable;
    - a frame the replacer tracks is in range, and unpinned if evictable. *)
Record consistent (b : BufferPoolManager) : Prop := mk_consistent {
  c_replacer : Inv.wf (replacer_ b);
  c_bound : Replacer.replacer_size_ (replacer_ b) = num_frames_ b;
  c_length : Z.of_nat (length (frames_ b)) = num_frames_ b;
  c_size : Replacer.curr_size_ (replacer_ b) + 1 < 2 ^ 64;
  c_frames : ∀ i f, frames_ b !! i = Some f →
               frame_id_ f = Z.of_nat i ∧ 0 ≤ pin_count_ f ∧ pin_count_ f + 1 < 2 ^ 64;
  c_nodup : NoDup (free_frames_ b);
  c_free : ∀ i, i ∈ free_frames_ b →
             Inv.is_ev i (replacer_ b) = false ∧
             ∃ f, frame_at i (frames_ b) = Ok f ∧ pin_count_ f = 0;
  c_tracked : ∀ i, Inv.tracked i (replacer_ b) = true →
                ∃ f, frame_at i (frames_ b) = Ok f ∧
                     (Inv.is_ev i (replacer_ b) = true → pin_count_ f = 0)
}.

(** No frame is marked dirty. *)
Definition clean (b : BufferPoolManager) : Prop :=
  Forall (λ f, is_dirty_ f = false) (frames_ b).

(** Every entry of the page table names a frame of the pool. *)
Definition table_in_range (b : BufferPoolManager) : Prop :=
  ∀ p i, page_table_ b !! p = Some i → ∃ f, frame_at i (frames_ b) = Ok f.

End PoolInv.

(** * Concrete states used as examples *)

Module Examples.
Import Replacer.


(** The same accesses when the hash table happens to iterate from the
    oldest entry to the newest. *)
Definition replacer_S3_oldest_first : LRUKReplacer :=
  mkReplacer [(0, mkNode [0; 3] true); (1, mkNode [1; 4] true); (2, mkNode [2] true)]
             5 3 3 2.

(** A sequence of calls on one replacer; the first fault ends it. *)
Definition run_calls (calls : list (LRUKReplacer → result LRUKReplacer))
    (r : LRUKReplacer) : result LRUKReplacer :=
  foldl (λ acc call, acc ≫= call) (Ok r) calls.

(** Frame 1 is first seen by a scan, frame 0 is then accessed twice and
    frame 1 once; both are made evictable. *)
Definition scan_calls : list (LRUKReplacer → result LRUKReplacer) :=
  [RecordAccess 1 Scan; RecordAccess 0 Unknown; RecordAccess 0 Unknown;
   RecordAccess 1 Unknown; SetEvictable 0 true; SetEvictable 1 true].

Definition replacer_scan : LRUKReplacer :=
  mkReplacer [(0, mkNode [0; 1] true); (1, mkNode [2] true)] 3 2 2 2.

(** Frames 0 and 1 accessed in the order 0, 1, 0, 1 with [k = 2], both
    evictable; the entry of frame 1 is met first. *)
Definition replacer_both_full : LRUKReplacer :=
  mkReplacer [(1, mkNode [1; 3] true); (0, mkNode [0; 2] true)] 4 2 2 2.

(** Frames 0 and 1 accessed in the order 0, 1, 0, 1 with [k = 2]; frame 1
    is evictable and frame 0 is not. *)
Definition replacer_one_pinned : LRUKReplacer :=
  mkReplacer [(1, mkNode [1; 3] true); (0, mkNode [0; 2] false)] 4 1 2 2.



End Examples.

Module PoolExamples.
Import Pool.

Definition empty_disk : DiskScheduler := mkDisk ∅ [].

(** A page of [BUSTUB_PAGE_SIZE] bytes, all equal to [c]. *)
Definition page_of (c : Z) : list Z := replicate BUSTUB_PAGE_SIZE c.

(** A disk on which page 7 already exists, every byte being 0xAB. *)
Definition disk_with_page_7 : DiskScheduler :=
  mkDisk {[7 := page_of 171]} [].

(** What a reader sees: the bytes behind the guard returned for [page_id]
    ([None] when no guard is returned), and the calls the disk has
    received. *)
Definition read_through (page_id : Z) (b : BufferPoolManager)
    : result (option (list Z) * list DiskEvent) :=
  '(b, guard_opt) ← BPM.CheckedReadPage page_id Replacer.Unknown b;
  match guard_opt with
  | None => Ok (None, log_ (disk_scheduler_ b))
  | Some g => d ← ReadPageGuard.GetData g b; Ok (Some d, log_ (disk_scheduler_ b))
  end.

Definition write_through (page_id : Z) (b : BufferPoolManager)
    : result (option (list Z) * list DiskEvent) :=
  '(b, guard_opt) ← BPM.CheckedWritePage page_id Replacer.Unknown b;
  match guard_opt with
  | None => Ok (None, log_ (disk_scheduler_ b))
  | Some g => d ← WritePageGuard.GetData g b; Ok (Some d, log_ (disk_scheduler_ b))
  end.

(** A pool of one frame: page 0 is allocated, filled with 0xAB through a
    write guard, flushed; page 1 is then allocated, which evicts page 0 from
    the only frame, read and released. *)
Definition after_flush_and_evict : result BufferPoolManager :=
  '(b, p0) ← BPM.NewPage (init 1 2 empty_disk);
  '(b, w) ← BPM.WritePage p0 Replacer.Unknown b;
  b ← WritePageGuard.GetDataMut_store w (page_of 171) b;
  '(_, b) ← WritePageGuard.Drop w b;
  '(b, _) ← BPM.FlushPage p0 b;
  '(b, p1) ← BPM.NewPage b;
  '(b, g) ← BPM.ReadPage p1 Replacer.Unknown b;
  '(_, b) ← ReadPageGuard.Drop g b;
  Ok b.

(** Page 0 is fetched again. *)
Definition refetch_page_0 : result (BufferPoolManager * option PageGuard) :=
  b ← after_flush_and_evict;
  BPM.CheckedReadPage 0 Replacer.Unknown b.

(** A new pool of two frames. *)
Definition pool_of_two : BufferPoolManager := init 2 2 empty_disk.

(** A pool of two frames in which page 0 has been allocated, read and
    released: frame 0 is evictable, frame 1 is still on the free list. *)
Definition one_free_one_evictable : result BufferPoolManager :=
  '(b, p0) ← BPM.NewPage pool_of_two;
  '(b, g) ← BPM.ReadPage p0 Replacer.Unknown b;
  '(_, b) ← ReadPageGuard.Drop g b;
  Ok b.

(** A pool of one frame right after its first [NewPage]. *)
Definition after_NewPage : result (BufferPoolManager * Z) :=
  BPM.NewPage (init 1 2 empty_disk).

(** The pool [after_NewPage] leaves: page 0 sits in the only frame,
    unpinned, and the replacer tracks the frame as not evictable. *)
Definition pool_with_page_0 : BufferPoolManager :=
  mkBPM 1 1 [new_frame 0] {[0 := 0]} []
        (Replacer.mkReplacer [(0, Replacer.mkNode [0] false)] 1 0 1 2)
        (mkDisk ∅ [EvIncreaseDiskSpace 0]).

(** Pages 0 and 1 are allocated in a pool of two frames, page 0 is fetched
    twice and page 1 once, and no guard is dropped. *)
Definition two_pages_fetched : result BufferPoolManager :=
  '(b, p0) ← BPM.NewPage pool_of_two;
  '(b, p1) ← BPM.NewPage b;
  '(b, _) ← BPM.CheckedReadPage p0 Replacer.Unknown b;
  '(b, _) ← BPM.CheckedReadPage p0 Replacer.Unknown b;
  '(b, _) ← BPM.CheckedReadPage p1 Replacer.Unknown b;
  Ok b.

(** The pool [two_pages_fetched] leaves. *)
Definition pool_two_pages_fetched : BufferPoolManager :=
  mkBPM 2 2
        [mkFrame 0 2 false (replicate BUSTUB_PAGE_SIZE 0);
         mkFrame 1 1 false (replicate BUSTUB_PAGE_SIZE 0)]
        {[0 := 0; 1 := 1]} []
        (Replacer.mkReplacer
           [(1, Replacer.mkNode [6; 7] false); (0, Replacer.mkNode [4; 5] false)]
           8 0 2 2)
        (mkDisk ∅ [EvIncreaseDiskSpace 0; EvIncreaseDiskSpace 1]).

(** The pool [one_free_one_evictable] leaves. *)
Definition pool_one_free_one_evictable : BufferPoolManager :=
  mkBPM 2 1 [new_frame 0; new_frame 1] {[0 := 0]} [1]
        (Replacer.mkReplacer [(0, Replacer.mkNode [2; 3] true)] 4 1 2 2)
        (mkDisk ∅ [EvIncreaseDiskSpace 0]).

(** A valid read guard on page 0 of a pool of one frame. *)
Definition with_read_guard : result (BufferPoolManager * PageGuard) :=
  '(b, p0) ← BPM.NewPage (init 1 2 empty_disk);
  BPM.ReadPage p0 Replacer.Unknown b.

End PoolExamples.

(** * The victim the specification asks for *)

Module Spec.
Import Replacer.

(** Section 4.2 of the specification, in its words: a frame with fewer than
    [k] recorded accesses has backward k-distance +infinity and is preferred
    over every frame with [k] recorded accesses. *)
Definition spec_infinite_distance (k : Z) (node : LRUKNode) : Prop :=
  Z.of_nat (length (history_ node)) < k.

Definition spec_victim_prefers_infinite (r : LRUKReplacer) (victim : Z) : Prop :=
  (∃ g node, (g, node) ∈ node_store_ r ∧ is_evictable_ node = true ∧
             spec_infinite_distance (k_ r) node) →
  ∃ node, store_find victim (node_store_ r) = Some node ∧
          spec_infinite_distance (k_ r) node.

End Spec.

(** ** Copy-on-write trie (src/primer/trie.cpp) *)

Module Trie.

Section Defs.
Context {type_id : Type} `{EqDecision type_id} {value : Type}.

#[local] Unset Elimination Schemes.

(** Modelled from the spec: primer/trie.h is not part of the sources.  A
    node holds its children, a map from [char] to a shared pointer that may
    be null, and is either a [TrieNode] or a [TrieNodeWithValue<T>] for some
    type [T] ("nodes are either value-less or value-bearing; a value-bearing
    leaf may still have children").  [value_] is [Some (T, v)] for a
    [TrieNodeWithValue<T>] holding [v] and [None] for a [TrieNode]; a [char]
    is given by its code. *)
Inductive TrieNode : Type :=
  mkTrieNode (children : gmap Z (option TrieNode))
             (val : option (type_id * value)).

#[local] Set Elimination Schemes.

Definition children_ (n : TrieNode) : gmap Z (option TrieNode) :=
  let 'mkTrieNode c _ := n in c.

Definition value_ (n : TrieNode) : option (type_id * value) :=
  let 'mkTrieNode _ v := n in v.

(** Modelled from the spec: the flag [is_value_node_] is set by the
    constructors of [TrieNodeWithValue] and by nothing in trie.cpp, so it
    tells the two classes apart. *)
Definition is_value_node_ (n : TrieNode) : bool :=
  match value_ n with Some _ => true | None => false end.

(** [std::make_shared<TrieNode>(children)] *)
Definition plain_node (children : gmap Z (option TrieNode)) : TrieNode :=
  mkTrieNode children None.

(** [std::make_shared<TrieNodeWithValue<T>>(children, value_ptr)] *)
Definition value_node (T : type_id) (children : gmap Z (option TrieNode))
    (v : value) : TrieNode :=
  mkTrieNode children (Some (T, v)).

(** Modelled from the spec: [Clone] is virtual and returns a copy of the
    node, of the same class, with the same children and value. *)
Definition Clone (n : TrieNode) : TrieNode :=
  match value_ n with
  | Some (T, v) => value_node T (children_ n) v
  | None => plain_node (children_ n)
  end.

(** [node->children_[c] = child] *)
Definition set_child (c : Z) (child : TrieNode) (n : TrieNode) : TrieNode :=
  mkTrieNode (<[c := Some child]> (children_ n)) (value_ n).

(** [node->children_.erase(c)] *)
Definition erase_child (c : Z) (n : TrieNode) : TrieNode :=
  mkTrieNode (delete c (children_ n)) (value_ n).

(** [node->children_.empty()] *)
Definition no_children (n : TrieNode) : bool :=
  match map_to_list (children_ n) with [] => true | _ => false end.

(** A trie is its root pointer, null for the empty trie. *)
Record Trie : Type := mkTrie { root_ : option TrieNode }.

(** The loop of [Get] from [cur_node]: [None] stands for [return nullptr],
    on a missing child and on a null child alike. *)
Fixpoint walk (key : list Z) (cur_node : TrieNode) : option TrieNode :=
  match key with
  | [] => Some cur_node
  | c :: rest =>
      match children_ cur_node !! c with
      | Some (Some child) => walk rest child
      | _ => None
      end
  end.

(** [dynamic_pointer_cast<const TrieNodeWithValue<T>>(node)] followed by
    [->value_.get()], after the test of [is_value_node_]. *)
Definition value_as (T : type_id) (n : TrieNode) : option value :=
  if negb (is_value_node_ n) then None
  else match value_ n with
       | Some (T', v) => if decide (T' = T) then Some v else None
       | None => None
       end.

(** [Trie::Get<T>].  For an empty key on a trie that has a root the function
    evaluates [*key.begin()], which reads past the end of the view:
    [OutOfBounds]. *)
Definition Get (T : type_id) (key : list Z) (t : Trie) : result (option value) :=
  match root_ t with
  | None => Ok None
  | Some root =>
      match walk key root with
      | None => Ok None
      | Some cur_node =>
          match key with
          | [] => Fault OutOfBounds
          | _ => Ok (value_as T cur_node)
          end
      end
  end.

(** What [Get<T>] finds below [cur_node] along a non-empty [key]: the loop
    and the cast, used to reason about the function. *)
Definition get_below (T : type_id) (key : list Z) (cur_node : TrieNode)
    : option value :=
  match walk key cur_node with Some m => value_as T m | None => None end.

(** The body of [Trie::Put<T>] below [parent_node], which the function owns
    and mutates: the loop over all characters but the last, then the
    insertion of the value node under the last one.  The result is
    [parent_node] after the call. *)
Fixpoint put_path (T : type_id) (key : list Z) (v : value)
    (parent_node : TrieNode) : result TrieNode :=
  match key with
  | [] => Fault OutOfBounds                      (* [*it] with [it == key.end()] *)
  | c :: rest =>
      match rest with
      | [] =>
          match children_ parent_node !! c with
          | None => Ok (set_child c (value_node T ∅ v) parent_node)
          | Some None => Fault NullPointer       (* [child_node->children_] *)
          | Some (Some child_node) =>
              Ok (set_child c (value_node T (children_ child_node) v) parent_node)
          end
      | _ :: _ =>
          new_node ← match children_ parent_node !! c with
                     | None => Ok (plain_node ∅)
                     | Some None => Fault NullPointer   (* [iter->second->Clone()] *)
                     | Some (Some child) => Ok (Clone child)
                     end;
          new_node ← put_path T rest v new_node;
          Ok (set_child c new_node parent_node)
      end
  end.

(** [Trie::Put<T>] *)
Definition Put (T : type_id) (key : list Z) (v : value) (t : Trie) : result Trie :=
  let new_root := match root_ t with
                  | Some root => Clone root
                  | None => plain_node ∅
                  end in
  new_root ← put_path T key v new_root;
  Ok (mkTrie (Some new_root)).

(** The first loop of [Trie::Remove]: the nodes met are pushed on
    [node_stack]; [None] stands for [return Trie(root_)]. *)
Fixpoint walk_stack (key : list Z) (cur_node : TrieNode)
    (node_stack : list TrieNode) : option (list TrieNode * TrieNode) :=
  match key with
  | [] => Some (node_stack, cur_node)
  | c :: rest =>
      match children_ cur_node !! c with
      | Some (Some child) => walk_stack rest child (cur_node :: node_stack)
      | _ => None
      end
  end.

(** The second loop of [Trie::Remove], over the key read backwards;
    [node_stack.top()] on an empty stack is [OutOfBounds]. *)
Fixpoint rebuild (rkey : list Z) (node_stack : list TrieNode)
    (new_node : TrieNode) : result TrieNode :=
  match rkey with
  | [] => Ok new_node
  | c :: rest =>
      match node_stack with
      | [] => Fault OutOfBounds
      | top :: node_stack =>
          let new_parent := Clone top in
          let new_parent :=
            if no_children new_node && negb (is_value_node_ new_node)
            then erase_child c new_parent
            else set_child c new_node new_parent in
          rebuild rest node_stack new_parent
      end
  end.

(** [Trie::Remove] *)
Definition Remove (key : list Z) (t : Trie) : result Trie :=
  match root_ t with
  | None => Ok (mkTrie None)
  | Some root =>
      match walk_stack key root [] with
      | None => Ok (mkTrie (Some root))
      | Some (node_stack, cur_node) =>
          match key with
          | [] => Fault OutOfBounds              (* [*key.begin()] *)
          | _ =>
              if negb (is_value_node_ cur_node) then Ok (mkTrie (Some root))
              else
                new_node ← rebuild (rev key) node_stack
                             (plain_node (children_ cur_node));
                if no_children new_node then Ok (mkTrie None)
                else Ok (mkTrie (Some new_node))
          end
      end
  end.

(** What [Remove] builds in place of [n] when the key below [n] is [key]
    and leads to a node: the recursive reading of the two loops, used to
    reason about them. *)
Fixpoint removed_below (key : list Z) (n : TrieNode) : TrieNode :=
  match key with
  | [] => plain_node (children_ n)
  | c :: rest =>
      match children_ n !! c with
      | Some (Some child) =>
          let new_node := removed_below rest child in
          if no_children new_node && negb (is_value_node_ new_node)
          then erase_child c (Clone n)
          else set_child c new_node (Clone n)
      | _ => n
      end
  end.

(** No null child on the way from [n] along [key]. *)
Fixpoint path_clear (key : list Z) (n : TrieNode) : bool :=
  match key with
  | [] => true
  | c :: rest =>
      match children_ n !! c with
      | None => true
      | Some None => false
      | Some (Some child) => path_clear rest child
      end
  end.

#[local] Unset Elimination Schemes.

(** No node below [n], [n] included, has a null child. *)
Inductive null_free : TrieNode → Prop :=
  | null_free_node children val :
      (∀ c m, children !! c = Some m → ∃ n, m = Some n ∧ null_free n) →
      null_free (mkTrieNode children val).

(** Every node strictly below [n] has a value or a child. *)
Inductive compact_below : TrieNode → Prop :=
  | compact_node children val :
      (∀ c m, children !! c = Some (Some m) →
         (is_value_node_ m = true ∨ no_children m = false) ∧ compact_below m) →
      compact_below (mkTrieNode children val).

(** A trie without useless nodes: the root, if there is one, has a child,
    and every other node has a value or a child. *)
Definition compact (t : Trie) : Prop :=
  match root_ t with
  | None => True
  | Some root => no_children root = false ∧ compact_below root
  end.

#[local] Set Elimination Schemes.

(** The tries the functions of this file can build. *)
Inductive built : Trie → Prop :=
  | built_empty : built (mkTrie None)
  | built_Put T key v t t' : built t → Put T key v t = Ok t' → built t'
  | built_Remove key t t' : built t → Remove key t = Ok t' → built t'.

End Defs.

Arguments TrieNode : clear implicits.
Arguments Trie : clear implicits.

End Trie.

Module TrieExamples.
Import Trie.

(** Value types are told apart by a number: 0 for [uint32_t], 1 for
    [uint64_t]; values are integers. *)
Definition trie_empty : Trie nat Z := mkTrie None.

(** The trie holding 7, a [uint32_t], under the key "ab". *)
Definition trie_ab : Trie nat Z :=
  mkTrie (Some (plain_node
    {[ 97 := Some (plain_node {[ 98 := Some (value_node 0%nat ∅ 7) ]}) ]})).

End TrieExamples.

(** * Reasoning about sequences of calls *)

Lemma bind_Ok_inv {A B} (m : result A) (k : A → result B) x :
  m ≫= k = Ok x → ∃ a, m = Ok a ∧ k a = Ok x.
Proof. destruct m as [a|e]; simpl; [by exists a|discriminate]. Qed.

(** One step through a sequence of calls: the call in front, which the
    hypothesis says returned, is named by its result. *)
Ltac bind_step H :=
  let a := fresh "a" in
  let E := fresh "E" in
  first
    [ apply bind_Ok_inv in H as (a & E & H)
    | match type of H with
      | context [match ?m with Ok _ => _ | Fault _ => _ end] =>
          destruct m as [a|?] eqn:E; simpl in H; [|discriminate H]
      end ];
  repeat match type of H with
         | context [match ?x with pair _ _ => _ end] => is_var x; destruct x
         end;
  simpl in H.

(** * Properties of the replacer *)

Section ReplacerFacts.
Import Replacer Inv.

Lemma wrap64_small z : 0 ≤ z < 2 ^ 64 → wrap64 z = z.
Proof. intros H. unfold wrap64. by apply Z.mod_small. Qed.

Lemma count_evictable_nonneg (s : store) : 0 ≤ count_evictable s.
Proof.
  induction s as [|[f node] s IH]; simpl; [lia|].
  destruct (is_evictable_ node); lia.
Qed.

Lemma count_evictable_zero (s : store) :
  count_evictable s = 0 ↔ ∀ f, ¬ evictable_in s f.
Proof.
  induction s as [|[f node] s IH]; simpl.
  - split; [|done]. intros _ g (nd & Hin & _). by apply elem_of_nil in Hin.
  - pose proof (count_evictable_nonneg s) as Hs. split.
    + intros H g (nd & Hin & Hev).
      destruct (is_evictable_ node) eqn:E; [lia|].
      apply elem_of_cons in Hin as [Heq|Hin].
      * injection Heq as -> ->. congruence.
      * assert (count_evictable s = 0) as H0 by lia.
        apply (proj1 IH H0 g). by exists nd.
    + intros H. destruct (is_evictable_ node) eqn:E.
      * exfalso. apply (H f). exists node. split; [apply elem_of_cons; by left|done].
      * assert (count_evictable s = 0) as ->; [|done].
        apply IH. intros g (nd & Hin & Hev). apply (H g).
        exists nd. split; [apply elem_of_cons; by right|done].
Qed.

Lemma store_find_elem f node (s : store) :
  store_find f s = Some node → (f, node) ∈ s.
Proof.
  induction s as [|[g nd] s IH]; simpl; [done|].
  destruct (Z.eqb_spec g f) as [->|Hne].
  - intros [= ->]. apply elem_of_cons; by left.
  - intros H. apply elem_of_cons; right. by apply IH.
Qed.

Lemma store_find_None f (s : store) :
  store_find f s = None ↔ f ∉ s.*1.
Proof.
  induction s as [|[g nd] s IH]; simpl.
  - split; [|done]. intros _ H. by apply elem_of_nil in H.
  - destruct (Z.eqb_spec g f) as [->|Hne].
    + split; [done|]. intros H. exfalso. apply H. apply elem_of_cons; by left.
    + rewrite IH, not_elem_of_cons.
      split; [intros H; split; [congruence|done] | by intros [_ H]].
Qed.

Lemma store_find_NoDup f node (s : store) :
  NoDup s.*1 → (f, node) ∈ s → store_find f s = Some node.
Proof.
  induction s as [|[g nd] s IH]; simpl.
  - intros _ H. by apply elem_of_nil in H.
  - intros Hnd Hin. apply NoDup_cons in Hnd as [Hg Hnd].
    apply elem_of_cons in Hin as [Heq|Hin].
    + injection Heq as -> ->. by rewrite Z.eqb_refl.
    + destruct (Z.eqb_spec g f) as [->|Hne]; [|by apply IH].
      exfalso. apply Hg. apply list_elem_of_fmap. by exists (f, node).
Qed.

Lemma store_find_erase_eq f (s : store) : store_find f (store_erase f s) = None.
Proof.
  induction s as [|[g nd] s IH]; simpl; [done|].
  destruct (Z.eqb_spec g f) as [->|Hne]; [done|].
  simpl. destruct (Z.eqb_spec g f); [done|]. apply IH.
Qed.

Lemma store_find_erase_ne f g (s : store) :
  f ≠ g → store_find g (store_erase f s) = store_find g s.
Proof.
  intros Hne. induction s as [|[h nd] s IH]; simpl; [done|].
  destruct (Z.eqb_spec h f) as [->|Hhf].
  - destruct (Z.eqb_spec f g); [done|]. apply IH.
  - simpl. destruct (Z.eqb_spec h g); [done|]. apply IH.
Qed.

Lemma store_erase_set f node (s : store) :
  store_erase f (store_set f node s) = store_erase f s.
Proof.
  induction s as [|[g nd] s IH]; simpl; [done|].
  destruct (Z.eqb_spec g f) as [->|Hne]; simpl.
  - by rewrite Z.eqb_refl.
  - destruct (Z.eqb_spec g f); [done|]. by rewrite IH.
Qed.

Lemma store_erase_clear_history f (s : store) :
  store_erase f (store_clear_history f s) = store_erase f s.
Proof.
  unfold store_clear_history. destruct (store_find f s).
  - apply store_erase_set.
  - simpl. by rewrite Z.eqb_refl.
Qed.

Lemma store_find_set_eq f node (s : store) :
  store_find f (store_set f node s) = (λ _, node) <$> store_find f s.
Proof.
  induction s as [|[g nd] s IH]; simpl; [done|].
  destruct (Z.eqb_spec g f) as [->|Hne]; simpl.
  - by rewrite Z.eqb_refl.
  - destruct (Z.eqb_spec g f); [done|]. apply IH.
Qed.

Lemma store_find_set_ne f g node (s : store) :
  f ≠ g → store_find g (store_set f node s) = store_find g s.
Proof.
  intros Hne. induction s as [|[h nd] s IH]; simpl; [done|].
  destruct (Z.eqb_spec h f) as [->|Hhf]; simpl.
  - destruct (Z.eqb_spec f g); done.
  - destruct (Z.eqb_spec h g); [done|]. apply IH.
Qed.

Lemma store_set_same f node (s : store) :
  store_find f s = Some node → store_set f node s = s.
Proof.
  induction s as [|[g nd] s IH]; simpl; [done|].
  destruct (Z.eqb_spec g f) as [->|Hne].
  - by intros [= ->].
  - intros H. by rewrite IH.
Qed.

Lemma store_set_keys f node (s : store) : (store_set f node s).*1 = s.*1.
Proof.
  induction s as [|[g nd] s IH]; csimpl; [done|].
  destruct (Z.eqb_spec g f) as [->|Hne]; csimpl; [done|]. by rewrite IH.
Qed.

Lemma store_set_Forall (P : Z * LRUKNode → Prop) f node (s : store) :
  Forall P s → P (f, node) → Forall P (store_set f node s).
Proof.
  intros Hs Hn. induction Hs as [|[g nd] s Hg Hs IH]; simpl; [done|].
  destruct (Z.eqb_spec g f) as [->|Hne]; apply Forall_cons; done.
Qed.

Lemma store_erase_sublist f (s : store) : store_erase f s `sublist_of` s.
Proof.
  induction s as [|[g nd] s IH]; simpl; [done|].
  destruct (g =? f); [by apply sublist_cons|by apply sublist_skip].
Qed.

Lemma store_erase_NoDup f (s : store) : NoDup s.*1 → NoDup (store_erase f s).*1.
Proof.
  intros H. eapply sublist_NoDup; [exact H|].
  apply (fmap_sublist _), store_erase_sublist.
Qed.

Lemma store_erase_Forall (P : Z * LRUKNode → Prop) f (s : store) :
  Forall P s → Forall P (store_erase f s).
Proof.
  induction 1 as [|[g nd] s Hg Hs IH]; simpl; [done|].
  destruct (g =? f); [done|by apply Forall_cons].
Qed.

Lemma store_erase_absent f (s : store) : f ∉ s.*1 → store_erase f s = s.
Proof.
  induction s as [|[g nd] s IH]; simpl; [done|].
  rewrite not_elem_of_cons. intros [Hne Hin].
  destruct (Z.eqb_spec g f); [congruence|]. by rewrite IH.
Qed.

Lemma count_evictable_set f node old (s : store) :
  store_find f s = Some old →
  count_evictable (store_set f node s) =
  count_evictable s - Z.b2z (is_evictable_ old) + Z.b2z (is_evictable_ node).
Proof.
  induction s as [|[g nd] s IH]; simpl; [done|].
  destruct (Z.eqb_spec g f) as [->|Hne]; simpl.
  - intros [= ->]. destruct (is_evictable_ old), (is_evictable_ node); simpl; lia.
  - intros H. rewrite (IH H). lia.
Qed.

Lemma count_evictable_erase f old (s : store) :
  NoDup s.*1 → store_find f s = Some old →
  count_evictable (store_erase f s) = count_evictable s - Z.b2z (is_evictable_ old).
Proof.
  induction s as [|[g nd] s IH]; simpl; [done|].
  intros [Hg Hnd]%NoDup_cons.
  destruct (Z.eqb_spec g f) as [->|Hne]; simpl.
  - intros [= ->]. rewrite (store_erase_absent _ _ Hg).
    destruct (is_evictable_ old); simpl; lia.
  - intros H. rewrite (IH Hnd H). lia.
Qed.

Lemma count_evictable_find f node (s : store) :
  store_find f s = Some node → Z.b2z (is_evictable_ node) ≤ count_evictable s.
Proof.
  induction s as [|[g nd] s IH]; simpl; [done|].
  pose proof (count_evictable_nonneg s) as Hs.
  destruct (Z.eqb_spec g f) as [->|Hne].
  - intros [= ->]. destruct (is_evictable_ node); simpl; lia.
  - intros H. specialize (IH H). destruct (is_evictable_ nd); lia.
Qed.

Lemma node_ok_mono k now now' bound e :
  now ≤ now' → node_ok k now bound e → node_ok k now' bound e.
Proof.
  intros Hle (H1 & H2 & H3). repeat split; try done; try lia.
  eapply Forall_impl; [exact H3|]. simpl. intros t Ht. lia.
Qed.

Lemma BUSTUB_ASSERT_inv {A} c (k : unit → result A) x :
  (BUSTUB_ASSERT c ≫= k) = Ok x → c = true ∧ k tt = Ok x.
Proof. destruct c; simpl; [done|discriminate]. Qed.

Lemma assert_in_range f bound :
  0 ≤ f ≤ bound → bound < 2 ^ 64 → (wrap64 f <=? bound) = true.
Proof. intros ??. rewrite wrap64_small by lia. apply Z.leb_le. lia. Qed.

(** A frame identifier is an [int]: one that passes the assertion
    [static_cast<size_t>(frame_id) <= replacer_size_] is not negative. *)
Lemma assert_passed f bound :
  - 2 ^ 31 ≤ f < 2 ^ 31 → 0 ≤ bound < 2 ^ 31 →
  (wrap64 f <=? bound) = true → 0 ≤ f ≤ bound.
Proof.
  intros Hf Hb H%Z.leb_le. unfold wrap64 in H.
  destruct (decide (0 ≤ f)) as [Hpos|Hneg].
  - rewrite Z.mod_small in H by lia. lia.
  - exfalso. replace f with (f + 2 ^ 64 - 1 * 2 ^ 64) in H by lia.
    rewrite Zminus_mod, Z_mod_mult, Z.sub_0_r, Zmod_mod in H.
    rewrite Z.mod_small in H by lia. lia.
Qed.

(** [pop_front] where [RecordAccess] calls it: on a history of [k] entries. *)
Lemma popped_inv k (h h' : list Z) :
  (if Z.of_nat (length h) =? k then pop_front h else Ok h) = Ok h' →
  h' = (if Z.of_nat (length h) =? k then tail h else h).
Proof.
  destruct (Z.of_nat (length h) =? k); [|congruence].
  destruct h; simpl; congruence.
Qed.

Lemma popped_ok k (h : list Z) :
  1 ≤ k →
  (if Z.of_nat (length h) =? k then pop_front h else Ok h)
  = Ok (if Z.of_nat (length h) =? k then tail h else h).
Proof.
  intros Hk. destruct (Z.eqb_spec (Z.of_nat (length h)) k) as [He|_]; [|done].
  destruct h; [simpl in He; lia|done].
Qed.

(** [RecordAccess] touches neither a flag nor [curr_size_]. *)
Lemma RecordAccess_inv f t r r' :
  RecordAccess f t r = Ok r' →
  (wrap64 f <=? replacer_size_ r) = true ∧
  curr_size_ r' = curr_size_ r ∧
  replacer_size_ r' = replacer_size_ r ∧
  k_ r' = k_ r ∧
  tracked f r' = true ∧
  (∀ g, is_ev g r' = is_ev g r) ∧
  (∀ g, g ≠ f → store_find g (node_store_ r') = store_find g (node_store_ r)) ∧
  count_evictable (node_store_ r') = count_evictable (node_store_ r).
Proof.
  unfold RecordAccess. intros [Hc H]%BUSTUB_ASSERT_inv.
  split; [done|]. unfold is_ev, tracked.
  destruct (store_find f (node_store_ r)) as [node|] eqn:Ef.
  - destruct (is_scan t); simpl in H.
    { injection H as <-. simpl. rewrite Ef. done. }
    bind_step H. apply popped_inv in E as ->. injection H as <-. simpl.
    rewrite store_find_set_eq, Ef. simpl. repeat split; try done.
    + intros g. destruct (decide (f = g)) as [<-|Hne].
      * by rewrite store_find_set_eq, Ef.
      * by rewrite store_find_set_ne.
    + intros g Hne. by rewrite store_find_set_ne.
    + rewrite (count_evictable_set _ _ _ _ Ef). simpl. lia.
  - unfold store_insert in H. rewrite Ef in H.
    destruct (is_scan t); simpl in H; injection H as <-; simpl;
      rewrite Z.eqb_refl; (repeat split; try done);
      try (intros g; destruct (Z.eqb_spec f g) as [<-|Hne]; [by rewrite Ef|done]);
      try (intros g Hne; destruct (Z.eqb_spec f g); [congruence|done]).
Qed.

Lemma RecordAccess_ok f t r :
  1 ≤ k_ r →
  (wrap64 f <=? replacer_size_ r) = true → ∃ r', RecordAccess f t r = Ok r'.
Proof.
  intros Hk H. unfold RecordAccess. rewrite H. simpl.
  destruct (store_find f (node_store_ r)); destruct (is_scan t); simpl;
    rewrite ?popped_ok by done; simpl; eauto.
Qed.

(** [SetEvictable(frame_id, false)]. *)
Lemma SetEvictable_false_inv f r r' :
  SetEvictable f false r = Ok r' →
  (wrap64 f <=? replacer_size_ r) = true ∧
  curr_size_ r' = (if is_ev f r then wrap64 (curr_size_ r - 1) else curr_size_ r) ∧
  replacer_size_ r' = replacer_size_ r ∧
  k_ r' = k_ r ∧
  current_timestamp_ r' = current_timestamp_ r ∧
  is_ev f r' = false ∧
  tracked f r' = true ∧
  (∀ g, g ≠ f → store_find g (node_store_ r') = store_find g (node_store_ r)) ∧
  count_evictable (node_store_ r') =
    count_evictable (node_store_ r) - Z.b2z (is_ev f r).
Proof.
  unfold SetEvictable. intros [Hc H]%BUSTUB_ASSERT_inv.
  split; [done|]. unfold is_ev, tracked.
  destruct (store_find f (node_store_ r)) as [node|] eqn:Ef.
  - revert H. destruct (is_evictable_ node) eqn:Ev; simpl; rewrite ?Ev; simpl;
      intros [= <-]; simpl;
      rewrite store_find_set_eq, Ef; simpl; (repeat split; try done);
      try (intros g Hne; by rewrite store_find_set_ne);
      rewrite (count_evictable_set _ _ _ _ Ef); simpl; rewrite Ev; simpl; lia.
  - unfold store_insert in H. rewrite Ef in H. simpl in H. injection H as <-. simpl.
    rewrite Z.eqb_refl. repeat split; try done; [|lia].
    intros g Hne. destruct (Z.eqb_spec f g); [congruence|done].
Qed.

(** [SetEvictable(frame_id, true)].  For a frame without an entry the flag
    of the new entry stays clear although [curr_size_] is incremented. *)
Lemma SetEvictable_true_inv f r r' :
  SetEvictable f true r = Ok r' →
  (wrap64 f <=? replacer_size_ r) = true ∧
  curr_size_ r' = (if is_ev f r then curr_size_ r else wrap64 (curr_size_ r + 1)) ∧
  replacer_size_ r' = replacer_size_ r ∧
  k_ r' = k_ r ∧
  current_timestamp_ r' = current_timestamp_ r ∧
  is_ev f r' = tracked f r ∧
  tracked f r' = true ∧
  (∀ g, g ≠ f → store_find g (node_store_ r') = store_find g (node_store_ r)) ∧
  count_evictable (node_store_ r') =
    count_evictable (node_store_ r)
    + (if tracked f r then 1 - Z.b2z (is_ev f r) else 0).
Proof.
  unfold SetEvictable. intros [Hc H]%BUSTUB_ASSERT_inv.
  split; [done|]. unfold is_ev, tracked.
  destruct (store_find f (node_store_ r)) as [node|] eqn:Ef.
  - revert H. destruct (is_evictable_ node) eqn:Ev; simpl; rewrite ?Ev; simpl;
      intros [= <-]; simpl;
      rewrite store_find_set_eq, Ef; simpl; (repeat split; try done);
      try (intros g Hne; by rewrite store_find_set_ne);
      rewrite (count_evictable_set _ _ _ _ Ef); simpl; rewrite Ev; simpl; lia.
  - unfold store_insert in H. rewrite Ef in H. simpl in H. injection H as <-. simpl.
    rewrite Z.eqb_refl. repeat split; try done; [|lia].
    intros g Hne. destruct (Z.eqb_spec f g); [congruence|done].
Qed.

Lemma SetEvictable_ok f flag r :
  (wrap64 f <=? replacer_size_ r) = true → ∃ r', SetEvictable f flag r = Ok r'.
Proof.
  intros H. unfold SetEvictable. rewrite H. simpl.
  destruct (store_find f (node_store_ r)) as [node|]; destruct flag; simpl;
    try (destruct (is_evictable_ node) eqn:Ev; simpl; rewrite ?Ev; simpl); eauto.
Qed.

(** ** Consistency is kept by every operation of the replacer *)

Lemma wf_init num_frames k :
  1 ≤ k → 0 ≤ num_frames < 2 ^ 31 → wf (init num_frames k).
Proof.
  intros Hk Hn. split; simpl; try lia; [apply Forall_nil_2|apply NoDup_nil_2].
Qed.

Lemma length_tail_app (h : list Z) t :
  h ≠ [] → length (tail h ++ [t]) = length h.
Proof. destruct h; [done|]. intros _. rewrite length_app. simpl. lia. Qed.

Lemma wf_RecordAccess f t r r' :
  wf r → - 2 ^ 31 ≤ f < 2 ^ 31 → current_timestamp_ r + 1 < 2 ^ 64 →
  RecordAccess f t r = Ok r' → wf r'.
Proof.
  intros [Hk Hnow Hbound Hnodes Hnodup Hsize] Hf Hts.
  unfold RecordAccess. intros [Hc H]%BUSTUB_ASSERT_inv.
  apply assert_passed in Hc; [|done..].
  assert (wrap64 (current_timestamp_ r + 1) = current_timestamp_ r + 1) as Hw
    by (apply wrap64_small; lia).
  assert (Forall (node_ok (k_ r) (current_timestamp_ r + 1) (replacer_size_ r))
                 (node_store_ r)) as Hnodes'.
  { eapply Forall_impl; [exact Hnodes|]. intros e. apply node_ok_mono. lia. }
  destruct (store_find f (node_store_ r)) as [node|] eqn:Ef.
  - destruct (is_scan t); simpl in H; [injection H as <-; by split|].
    bind_step H. apply popped_inv in E as ->. injection H as <-.
    pose proof (store_find_elem _ _ _ Ef) as Hin.
    rewrite Forall_forall in Hnodes.
    destruct (Hnodes _ Hin) as (_ & Hlen & Hhist). simpl in Hlen, Hhist.
    split; simpl; rewrite ?Hw; try lia.
    + apply store_set_Forall; [done|]. repeat split; simpl; try lia.
      * destruct (Z.eqb_spec (Z.of_nat (length (history_ node))) (k_ r)) as [He|He].
        -- rewrite length_tail_app; [lia|]. intros E. rewrite E in He. simpl in He. lia.
        -- rewrite length_app. simpl. lia.
      * apply Forall_app. split.
        -- assert (Forall (λ t0, 0 ≤ t0 < current_timestamp_ r + 1) (history_ node)) as Hh.
           { eapply Forall_impl; [exact Hhist|]. simpl. lia. }
           destruct (Z.of_nat (length (history_ node)) =? k_ r); [|done].
           destruct (history_ node); [done|]. by apply Forall_cons in Hh as [_ ?].
        -- apply Forall_singleton. lia.
    + by rewrite store_set_keys.
    + rewrite (count_evictable_set _ _ _ _ Ef). simpl. lia.
  - apply store_find_None in Ef as Hnotin.
    unfold store_insert in H. rewrite Ef in H.
    destruct (is_scan t); simpl in H; injection H as <-;
      (split; simpl; rewrite ?Hw; try lia;
       [apply Forall_cons; split; [|done]| by apply NoDup_cons_2]).
    + repeat split; simpl; try lia. apply Forall_nil_2.
    + repeat split; simpl; try lia. apply Forall_singleton. lia.
Qed.

Lemma wf_SetEvictable f flag r r' :
  wf r → - 2 ^ 31 ≤ f < 2 ^ 31 → curr_size_ r + 1 < 2 ^ 64 →
  SetEvictable f flag r = Ok r' → wf r'.
Proof.
  intros Hwf Hf Hcs H.
  pose proof (count_evictable_nonneg (node_store_ r)) as Hc0.
  destruct Hwf as [Hk Hnow Hbound Hnodes Hnodup Hsize].
  assert (0 ≤ f ≤ replacer_size_ r) as Hrange.
  { destruct flag.
    - apply SetEvictable_true_inv in H as [Hc _]. by apply assert_passed in Hc.
    - apply SetEvictable_false_inv in H as [Hc _]. by apply assert_passed in Hc. }
  revert H. unfold SetEvictable. intros [_ H]%BUSTUB_ASSERT_inv.
  destruct (store_find f (node_store_ r)) as [node|] eqn:Ef.
  - pose proof (store_find_elem _ _ _ Ef) as Hin.
    pose proof (count_evictable_find _ _ _ Ef) as Hge.
    rewrite Forall_forall in Hnodes.
    destruct (Hnodes _ Hin) as (_ & Hlen & Hhist). simpl in Hlen, Hhist.
    rewrite <- Forall_forall in Hnodes.
    revert H. destruct flag, (is_evictable_ node) eqn:Ev; simpl; rewrite ?Ev; simpl;
      intros [= <-];
      (split; simpl; try lia;
       [by apply store_set_Forall|by rewrite store_set_keys|
        rewrite (count_evictable_set _ _ _ _ Ef); simpl; rewrite Ev in *;
        simpl in *; rewrite ?wrap64_small by lia; lia]).
  - apply store_find_None in Ef as Hnotin.
    unfold store_insert in H. rewrite Ef in H.
    revert H. destruct flag; simpl; intros [= <-];
      (split; simpl; rewrite ?wrap64_small by lia; try lia;
       [apply Forall_cons; split; [|done]; repeat split; simpl; try lia;
        apply Forall_nil_2
       |by apply NoDup_cons_2]).
Qed.


(** The loop of [Evict] leaves its variables alone when no entry is
    evictable. *)
Lemma Evict_loop_no_evictable k now (s : store) v :
  count_evictable s = 0 → Evict_loop k now s v = v.
Proof.
  induction s as [|[f node] s IH]; simpl; [done|].
  pose proof (count_evictable_nonneg s) as Hs.
  destruct (is_evictable_ node) eqn:E; simpl; [lia|].
  intros H. apply IH. lia.
Qed.

(** Once [ans] names an evictable entry, it does so until the loop ends. *)
Lemma Evict_loop_keeps k now (S s : store) v :
  s ⊆ S →
  evict_success v = true → evictable_in S (ans v) →
  evict_success (Evict_loop k now s v) = true ∧
  evictable_in S (ans (Evict_loop k now s v)).
Proof.
  revert v. induction s as [|[f node] s IH]; intros v Hsub Hsucc Hans; simpl; [done|].
  assert (s ⊆ S) as Hsub'.
  { intros e He. apply Hsub. apply elem_of_cons; by right. }
  destruct (is_evictable_ node) eqn:E; simpl; [|by apply IH].
  assert (evictable_in S f) as Hf.
  { exists node. split; [|done]. apply Hsub. apply elem_of_cons; by left. }
  destruct (history_ node) as [|front h] eqn:Eh; [done|].
  repeat case_match; apply IH; done.
Qed.

(** With the variables as [Evict] initialises them, the first evictable
    entry met sets [ans]. *)
Lemma Evict_loop_finds k now bound (S s : store) v :
  0 ≤ now < 2 ^ 64 →
  Forall (node_ok k now bound) s → s ⊆ S →
  is_inf v = false → max_delta_time v = 0 →
  count_evictable s ≠ 0 →
  evict_success (Evict_loop k now s v) = true ∧
  evictable_in S (ans (Evict_loop k now s v)).
Proof.
  intros Hnow. revert v.
  induction s as [|[f node] s IH]; intros v Hok Hsub Hinf Hmax Hcnt; simpl; [done|].
  apply Forall_cons in Hok as [(Hf & Hlen & Hts) Hok]. simpl in *.
  assert (s ⊆ S) as Hsub'.
  { intros e He. apply Hsub. apply elem_of_cons; by right. }
  destruct (is_evictable_ node) eqn:E; simpl.
  2:{ apply IH; try done; lia. }
  assert (evictable_in S f) as Hin.
  { exists node. split; [|done]. apply Hsub. apply elem_of_cons; by left. }
  destruct (history_ node) as [|front h] eqn:Eh; [done|].
  apply Forall_cons in Hts as [Hfront _].
  assert (wrap64 (now - front) = now - front) as Hdelta
    by (apply wrap64_small; lia).
  rewrite Hinf, Hmax, Hdelta. simpl negb. rewrite andb_true_r.
  destruct (Z.eqb_spec (Z.of_nat (length (front :: h))) k) as [Hk|Hk].
  - assert ((0 <? now - front) = true) as -> by (apply Z.ltb_lt; lia).
    by apply Evict_loop_keeps.
  - assert ((Z.of_nat (length (front :: h)) <? k) = true) as ->
      by (apply Z.ltb_lt; lia).
    assert ((now - front >? 0) = true) as -> by (apply Z.gtb_lt; lia).
    by apply Evict_loop_keeps.
Qed.

Lemma Evict_loop_success_only k now (s : store) v :
  count_evictable s = 0 ∨ evict_success (Evict_loop k now s v) = true.
Proof.
  destruct (decide (count_evictable s = 0)) as [H|H]; [by left|right].
  revert v. induction s as [|[f node] s IH]; intros v; simpl in *; [done|].
  pose proof (count_evictable_nonneg s) as Hs.
  destruct (is_evictable_ node) eqn:E; simpl.
  - destruct (history_ node) as [|front h]; [done|].
    assert (∀ w, evict_success w = true →
                 evict_success (Evict_loop k now s w) = true) as Hkeep.
    { clear. induction s as [|[g nd] s IH]; intros w Hw; simpl; [done|].
      destruct (is_evictable_ nd); simpl; [|by apply IH].
      destruct (history_ nd); [done|]. repeat case_match; by apply IH. }
    repeat case_match; by apply Hkeep.
  - apply IH. lia.
Qed.

(** The two ways [Evict] can go on a consistent replacer. *)
Lemma Evict_shape (r : LRUKReplacer) :
  wf r →
  (count_evictable (node_store_ r) = 0 ∧ Evict r = (r, None)) ∨
  (∃ f node,
     count_evictable (node_store_ r) ≠ 0 ∧
     store_find f (node_store_ r) = Some node ∧ is_evictable_ node = true ∧
     Evict r = (mkReplacer (store_erase f (node_store_ r)) (current_timestamp_ r)
                           (curr_size_ r - 1) (replacer_size_ r) (k_ r),
                Some f)).
Proof.
  intros [Hk Hnow Hbound Hnodes Hnodup Hsize].
  unfold Evict.
  set (v0 := mkLocals false false 0 INVALID_PAGE_ID).
  destruct (decide (count_evictable (node_store_ r) = 0)) as [H0|H0].
  - left. by rewrite (Evict_loop_no_evictable _ _ _ v0 H0).
  - right.
    destruct (Evict_loop_finds (k_ r) (current_timestamp_ r) (replacer_size_ r)
                (node_store_ r) (node_store_ r) v0) as [Hsucc (node & Hin & Hev)];
      try done.
    set (v := Evict_loop (k_ r) (current_timestamp_ r) (node_store_ r) v0) in *.
    exists (ans v), node. rewrite Hsucc.
    assert (0 ≤ ans v) as Hans.
    { rewrite Forall_forall in Hnodes. by destruct (Hnodes _ Hin) as [[? _] _]. }
    assert ((ans v =? INVALID_PAGE_ID) = false) as ->.
    { apply Z.eqb_neq. unfold INVALID_PAGE_ID. lia. }
    pose proof (count_evictable_nonneg (node_store_ r)) as Hc.
    rewrite store_erase_clear_history, wrap64_small by lia.
    repeat split; [done| |done]. by apply store_find_NoDup.
Qed.

Lemma wf_Evict r : wf r → wf (Evict r).1.
Proof.
  intros Hwf. destruct (Evict_shape r Hwf) as [[_ ->]|(f & node & Hc & Ef & Hev & ->)];
    [done|].
  destruct Hwf as [Hk Hnow Hbound Hnodes Hnodup Hsize].
  pose proof (count_evictable_find _ _ _ Ef) as Hge.
  split; simpl; try lia.
  - by apply store_erase_Forall.
  - by apply store_erase_NoDup.
  - rewrite (count_evictable_erase _ _ _ Hnodup Ef). rewrite Hev in *. simpl in *. lia.
Qed.




(** C6, as the specification states it, fails: a call with access type
    [Scan] does not advance the global timestamp. *)
Lemma RecordAccess_scan_counterexample :
  RecordAccess 0 Scan (init 1 2) = Ok (mkReplacer [(0, new_node)] 0 0 1 2) ∧
  ¬ (current_timestamp_ (init 1 2)
     < current_timestamp_ (mkReplacer [(0, new_node)] 0 0 1 2)).
Proof. split; [reflexivity|simpl; lia]. Qed.

(** C6, amended.  For a frame identifier within the range the assertion
    accepts and [k >= 1], [RecordAccess] returns; afterwards the frame has an
    entry (created with an empty history and a clear flag if there was
    none) and every other entry is as before.  When the access type is not
    [Scan], the current timestamp is appended to the frame's history, after
    the oldest entry has been dropped if the history already held [k]
    entries, so that a history of at most [k] entries stays so, and the
    global timestamp goes up by one.  When the access type is [Scan], both
    the history and the global timestamp are left unchanged. *)
Theorem RecordAccess_spec (frame_id : Z) (access_type : AccessType) (r : LRUKReplacer) :
  0 ≤ frame_id ≤ replacer_size_ r → replacer_size_ r < 2 ^ 64 → 1 ≤ k_ r →
  ∃ r' node',
    RecordAccess frame_id access_type r = Ok r' ∧
    store_find frame_id (node_store_ r') = Some node' ∧
    (∀ g, g ≠ frame_id →
          store_find g (node_store_ r') = store_find g (node_store_ r)) ∧
    let old := default new_node (store_find frame_id (node_store_ r)) in
    is_evictable_ node' = is_evictable_ old ∧
    if is_scan access_type then
      history_ node' = history_ old ∧
      current_timestamp_ r' = current_timestamp_ r
    else
      history_ node' =
        (if Z.of_nat (length (history_ old)) =? k_ r
         then tail (history_ old) else history_ old) ++ [current_timestamp_ r] ∧
      current_timestamp_ r' = wrap64 (current_timestamp_ r + 1) ∧
      (Z.of_nat (length (history_ old)) ≤ k_ r →
       Z.of_nat (length (history_ node')) ≤ k_ r).
Proof.
  intros Hf Hb Hk. unfold RecordAccess.
  rewrite (assert_in_range _ _ Hf Hb). simpl.
  destruct (store_find frame_id (node_store_ r)) as [node|] eqn:Ef; simpl.
  - destruct (is_scan access_type) eqn:Es; simpl.
    + exists r, node. by rewrite Ef.
    + rewrite popped_ok by done. simpl.
      eexists _, _. split; [reflexivity|]. simpl.
      rewrite store_find_set_eq, Ef. simpl. split; [done|].
      split; [intros g Hne; by rewrite store_find_set_ne|].
      repeat split. intros Hlen.
      destruct (Z.eqb_spec (Z.of_nat (length (history_ node))) (k_ r)) as [He|He];
        simpl.
      * rewrite length_tail_app; [lia|]. intros E. rewrite E in He. simpl in He. lia.
      * rewrite length_app. simpl. lia.
  - unfold store_insert. rewrite Ef.
    destruct (is_scan access_type) eqn:Es; simpl.
    + eexists _, _. split; [reflexivity|]. simpl. rewrite Z.eqb_refl.
      split; [done|]. split; [|done].
      intros g Hne. destruct (Z.eqb_spec frame_id g); [congruence|done].
    + eexists _, _. split; [reflexivity|]. simpl. rewrite Z.eqb_refl.
      split; [done|]. split.
      { intros g Hne. destruct (Z.eqb_spec frame_id g); [congruence|done]. }
      split; [done|]. split; [by destruct (k_ r)|]. split; [done|].
      intros _. simpl. lia.
Qed.

(** [RecordAccess_spec] for a first, non-scan access of frame 0. *)
Lemma RecordAccess_spec_witness :
  ∃ r' node',
    RecordAccess 0 Unknown (init 1 2) = Ok r' ∧
    store_find 0 (node_store_ r') = Some node' ∧
    history_ node' = [0] ∧ current_timestamp_ r' = 1.
Proof.
  destruct (RecordAccess_spec 0 Unknown (init 1 2)) as (r' & node' & H1 & H2 & _ & H4);
    [simpl; lia..|].
  exists r', node'. simpl in H4. destruct H4 as (_ & H5 & H6 & _).
  repeat split; done.
Defined.

(** C7, first half, fails on the code: [SetEvictable(0, true)] on a new
    replacer leaves [Size() = 1] while the only tracked node has its flag
    clear, so that no tracked node is evictable. *)
Theorem SetEvictable_untracked_size :
  SetEvictable 0 true (init 1 2) = Ok (mkReplacer [(0, new_node)] 0 1 1 2) ∧
  Size (mkReplacer [(0, new_node)] 0 1 1 2) = 1 ∧
  count_evictable (node_store_ (mkReplacer [(0, new_node)] 0 1 1 2)) = 0.
Proof. repeat split. Qed.

(** C7, second half, holds: on a tracked frame, [SetEvictable] with the flag
    the node already has changes nothing at all. *)
Lemma SetEvictable_idempotent f flag r node :
  (wrap64 f <=? replacer_size_ r) = true →
  store_find f (node_store_ r) = Some node → is_evictable_ node = flag →
  SetEvictable f flag r = Ok r.
Proof.
  intros Hc Ef Hev. unfold SetEvictable. rewrite Hc, Ef. simpl.
  destruct flag; rewrite Hev; simpl; rewrite ?Hev; simpl;
    rewrite (store_set_same _ _ _ Ef); by destruct r.
Qed.

(** C3 fails on the code.  After the calls of [scan_calls], frame 0 has
    [k = 2] recorded accesses and frame 1 has one; both are evictable.
    [Evict] returns frame 0, although frame 1 has backward k-distance
    +infinity. *)
Theorem Evict_prefers_finite_frame :
  Examples.run_calls Examples.scan_calls (init 2 2) = Ok Examples.replacer_scan ∧
  (Evict Examples.replacer_scan).2 = Some 0 ∧
  ¬ Spec.spec_victim_prefers_infinite Examples.replacer_scan 0.
Proof.
  split; [reflexivity|]. split; [reflexivity|].
  intros H. destruct H as (node & Hfind & Hinf).
  - exists 1, (mkNode [2] true). split; [|split; [done|]].
    + apply elem_of_cons; right. apply elem_of_cons; by left.
    + unfold Spec.spec_infinite_distance. simpl. lia.
  - simpl in Hfind. injection Hfind as <-.
    unfold Spec.spec_infinite_distance in Hinf. simpl in Hinf. lia.
Qed.

(** Scenario S3 of the specification, when the hash table iterates from the
    oldest entry to the newest: [Evict] returns frame 0, not frame 2. *)
Lemma Evict_S3_oldest_first :
  (Evict Examples.replacer_S3_oldest_first).2 = Some 0 ∧
  ¬ Spec.spec_victim_prefers_infinite Examples.replacer_S3_oldest_first 0.
Proof.
  split; [reflexivity|].
  intros H. destruct H as (node & Hfind & Hinf).
  - exists 2, (mkNode [2] true). split; [|split; [done|]].
    + do 2 (apply elem_of_cons; right). apply elem_of_cons; by left.
    + unfold Spec.spec_infinite_distance. simpl. lia.
  - simpl in Hfind. injection Hfind as <-.
    unfold Spec.spec_infinite_distance in Hinf. simpl in Hinf. lia.
Qed.

End ReplacerFacts.

(** * Properties of the buffer pool manager and of the guards *)

Section PoolFacts.
Import Pool PoolExamples.

(** C10.  With the sentinel [INVALID_PAGE_ID], [CheckedReadPage] and
    [CheckedWritePage] return none and hand back the pool they were given:
    page table, free list, replacer, frames and disk are untouched. *)
Theorem Checked_invalid_page_id (access_type : Replacer.AccessType)
    (b : BufferPoolManager) :
  BPM.CheckedReadPage INVALID_PAGE_ID access_type b = Ok (b, None) ∧
  BPM.CheckedWritePage INVALID_PAGE_ID access_type b = Ok (b, None).
Proof. split; reflexivity. Qed.

(** C1 fails on the code.  Page 7 is on disk with every byte 0xAB and is not
    resident in a new pool.  [CheckedReadPage(7)] and [CheckedWritePage(7)]
    both return a guard, the bytes seen through it are all zero, and the
    disk has received no request at all. *)
Theorem Checked_page_not_read_from_disk :
  pages_ disk_with_page_7 !! 7 = Some (page_of 171) ∧
  read_through 7 (init 1 2 disk_with_page_7) = Ok (Some (page_of 0), []) ∧
  write_through 7 (init 1 2 disk_with_page_7) = Ok (Some (page_of 0), []).
Proof. split; [reflexivity|]. split; vm_compute; reflexivity. Qed.

(** The round trip of the specification: page 0 is written, flushed,
    evicted and fetched again.  The disk holds the bytes written, the guard
    shows zeros. *)
Lemma round_trip_loses_page :
  ∃ b g,
    refetch_page_0 = Ok (b, Some g) ∧
    pages_ (disk_scheduler_ b) !! 0 = Some (page_of 171) ∧
    ReadPageGuard.GetData g b = Ok (page_of 0).
Proof.
  eexists _, _. split; [vm_compute; reflexivity|].
  split; vm_compute; reflexivity.
Qed.

(** C4 fails on the code.  In [after_flush_and_evict] the only frame holds
    page 1.  Fetching page 0 evicts that frame for page 0, and page 1 keeps
    its entry in the page table: two pages are mapped to frame 0. *)
Theorem stale_page_table_entry :
  ∃ b0 b g,
    after_flush_and_evict = Ok b0 ∧
    page_table_ b0 !! 1 = Some 0 ∧ page_table_ b0 !! 0 = None ∧
    BPM.CheckedReadPage 0 Replacer.Unknown b0 = Ok (b, Some g) ∧
    page_table_ b !! 0 = Some 0 ∧
    page_table_ b !! 1 = Some 0.
Proof.
  eexists _, _, _. split; [vm_compute; reflexivity|].
  split; [vm_compute; reflexivity|]. split; [vm_compute; reflexivity|].
  split; [vm_compute; reflexivity|]. split; vm_compute; reflexivity.
Qed.

(** C8 fails on the code.  The page allocated by the first [NewPage] of a
    pool is resident with pin count 0, and [DeletePage] on it does not
    return: the frame's node is not evictable and the assertion of
    [Remove] fails. *)
Theorem DeletePage_after_NewPage :
  ∃ b,
    after_NewPage = Ok (b, 0) ∧
    BPM.GetPinCount 0 b = Ok (Some 0) ∧
    BPM.DeletePage 0 b = Fault AssertionFailure.
Proof.
  eexists. split; [vm_compute; reflexivity|]. split; vm_compute; reflexivity.
Qed.

(** What does hold of [DeletePage]. *)
Lemma DeletePage_pinned page_id frame_id page b :
  page_id ≠ INVALID_PAGE_ID →
  page_table_ b !! page_id = Some frame_id →
  frame_at frame_id (frames_ b) = Ok page → 0 < pin_count_ page →
  BPM.DeletePage page_id b = Ok (b, false).
Proof.
  intros Hne Hpt Hfr Hpin. unfold BPM.DeletePage.
  apply Z.eqb_neq in Hne. rewrite Hne, Hpt, Hfr. simpl.
  by assert ((pin_count_ page >? 0) = true) as -> by (apply Z.gtb_lt; lia).
Qed.

Lemma DeletePage_absent page_id b :
  page_table_ b !! page_id = None →
  ∃ b', BPM.DeletePage page_id b = Ok (b', true) ∧
        page_table_ b' = page_table_ b ∧ frames_ b' = frames_ b ∧
        free_frames_ b' = free_frames_ b ∧ replacer_ b' = replacer_ b.
Proof.
  intros Hpt. unfold BPM.DeletePage.
  destruct (page_id =? INVALID_PAGE_ID); [by exists b|].
  rewrite Hpt. by eexists.
Qed.

Lemma DeletePage_true_absent page_id b b' :
  BPM.DeletePage page_id b = Ok (b', true) → page_table_ b' !! page_id = None ∨
  page_id = INVALID_PAGE_ID.
Proof.
  unfold BPM.DeletePage. intros H.
  destruct (Z.eqb_spec page_id INVALID_PAGE_ID) as [->|Hne]; [by right|].
  left. destruct (page_table_ b !! page_id) as [frame_id|] eqn:Hpt.
  - simpl in H. bind_step H.
    destruct (pin_count_ _ >? 0); [done|]. simpl in H. bind_step H.
    injection H as <-. simpl. apply lookup_delete_eq.
  - by injection H as <-.
Qed.

(** A [DeletePage] that returns true is followed by one that returns true. *)
Lemma DeletePage_twice page_id b b' :
  BPM.DeletePage page_id b = Ok (b', true) →
  ∃ b'', BPM.DeletePage page_id b' = Ok (b'', true).
Proof.
  intros H. destruct (DeletePage_true_absent _ _ _ H) as [Hpt| ->].
  - destruct (DeletePage_absent _ _ Hpt) as (b'' & Hb & _). by exists b''.
  - by exists b'.
Qed.

(** On a resident, unpinned page whose frame the replacer does not track or
    holds evictable, [DeletePage] does all that C8 lists. *)
Lemma DeletePage_unpinned page_id frame_id page b :
  page_id ≠ INVALID_PAGE_ID →
  page_table_ b !! page_id = Some frame_id →
  frame_at frame_id (frames_ b) = Ok page → pin_count_ page ≤ 0 →
  Inv.tracked frame_id (replacer_ b) = false ∨ Inv.is_ev frame_id (replacer_ b) = true →
  ∃ b', BPM.DeletePage page_id b = Ok (b', true) ∧
        page_table_ b' = delete page_id (page_table_ b) ∧
        free_frames_ b' = free_frames_ b ++ [frame_id] ∧
        Inv.tracked frame_id (replacer_ b') = false ∧
        frame_at frame_id (frames_ b') =
          Ok (mkFrame (frame_id_ page) 0 false (replicate (length (data_ page)) 0)) ∧
        log_ (disk_scheduler_ b') =
          log_ (disk_scheduler_ b) ++ [EvDeallocatePage page_id].
Proof.
  intros Hne%Z.eqb_neq Hpt Hfr Hpin Hrep. unfold BPM.DeletePage.
  rewrite Hne, Hpt, Hfr. simpl.
  assert ((pin_count_ page >? 0) = false) as ->.
  { destruct (Z.gtb_spec (pin_count_ page) 0); [lia|done]. }
  unfold Replacer.Remove, Inv.tracked, Inv.is_ev in *.
  destruct (Replacer.store_find frame_id (Replacer.node_store_ (replacer_ b)))
    as [node|] eqn:Ef.
  - destruct Hrep as [?|Hev]; [done|]. rewrite Hev. simpl.
    eexists. split; [reflexivity|]. simpl.
    rewrite store_erase_clear_history, store_find_erase_eq.
    repeat split. unfold frame_at in *. destruct (frame_id <? 0); [done|].
    unfold set_frame. destruct (frames_ b !! Z.to_nat frame_id) eqn:El; [|done].
    rewrite list_lookup_insert_eq; [done|]. by eapply lookup_lt_Some.
  - simpl. eexists. split; [reflexivity|]. simpl. rewrite Ef.
    repeat split. unfold frame_at in *. destruct (frame_id <? 0); [done|].
    unfold set_frame. destruct (frames_ b !! Z.to_nat frame_id) eqn:El; [|done].
    rewrite list_lookup_insert_eq; [done|]. by eapply lookup_lt_Some.
Qed.

(** What stands behind [stale_page_table_entry]: when a frame is given to
    page [p], the only entries that can leave the page table are the one
    whose key is the frame's own identifier and none else; the entry of the
    page the frame held stays unless its identifier happens to be that
    number. *)
Lemma install_page_keeps_entries p i fr b b' q :
  BPM.install_page p i b = Ok b' → frame_at i (frames_ b) = Ok fr →
  q ≠ frame_id_ fr → q ≠ p →
  page_table_ b' !! q = page_table_ b !! q.
Proof.
  unfold BPM.install_page. intros H Hfr Hq Hp. rewrite Hfr in H. simpl in H.
  repeat bind_step H. injection H as <-. simpl. unfold emplace.
  destruct (delete (frame_id_ fr) (page_table_ b) !! p);
    rewrite ?lookup_insert_ne by done; by rewrite lookup_delete_ne.
Qed.

(** C9 fails on the code for the move constructor of [ReadPageGuard].  The
    guard moved from keeps [is_valid_ = true]: [GetPageId] answers instead of
    reporting an invalid guard, and [GetData] dereferences the empty
    pointer. *)
Theorem ReadPageGuard_move_ctor_source_valid :
  ∃ b g this that b',
    with_read_guard = Ok (b, g) ∧ is_valid_ g = true ∧
    ReadPageGuard.move_ctor 0 g b = Ok (this, that, b') ∧
    is_valid_ that = true ∧
    ReadPageGuard.GetPageId that = Ok 0 ∧
    ReadPageGuard.GetData that b' = Fault NullPointer.
Proof.
  eexists _, _, _, _, _. split; [vm_compute; reflexivity|].
  split; [reflexivity|]. split; [vm_compute; reflexivity|].
  split; [reflexivity|]. split; reflexivity.
Qed.

(** The same for every valid guard. *)
Lemma ReadPageGuard_move_ctor_keeps_flag junk that b this that' b' :
  ReadPageGuard.move_ctor junk that b = Ok (this, that', b') →
  is_valid_ that' = is_valid_ that.
Proof.
  unfold ReadPageGuard.move_ctor, ReadPageGuard.GetPageId. simpl.
  destruct (is_valid_ that) eqn:Hv; simpl; intros H; [|by injection H as _ <- _].
  repeat bind_step H. by injection H as _ <- _.
Qed.

(** The other three moves do what C9 says: the destination takes over the
    page and the frame, the source is invalidated. *)
Lemma ReadPageGuard_move_assign_spec this that b this' that' b' :
  is_valid_ that = true →
  ReadPageGuard.move_assign this that b = Ok (this', that', b') →
  is_valid_ this' = true ∧ page_id_ this' = page_id_ that ∧
  frame_ this' = frame_ that ∧ is_valid_ that' = false ∧ frame_ that' = None.
Proof.
  intros Hv. unfold ReadPageGuard.move_assign, ReadPageGuard.GetPageId.
  rewrite Hv. simpl. intros H. repeat bind_step H.
  by injection H as <- <- _.
Qed.

Lemma WritePageGuard_move_ctor_spec junk that b this that' b' :
  is_valid_ that = true →
  WritePageGuard.move_ctor junk that b = Ok (this, that', b') →
  is_valid_ this = true ∧ page_id_ this = page_id_ that ∧
  frame_ this = frame_ that ∧ is_valid_ that' = false ∧ frame_ that' = None.
Proof.
  intros Hv. unfold WritePageGuard.move_ctor, WritePageGuard.GetPageId.
  rewrite Hv. simpl. intros H. repeat bind_step H.
  by injection H as <- <- _.
Qed.

Lemma WritePageGuard_move_assign_spec this that b this' that' b' :
  is_valid_ that = true →
  WritePageGuard.move_assign this that b = Ok (this', that', b') →
  is_valid_ this' = true ∧ page_id_ this' = page_id_ that ∧
  frame_ this' = frame_ that ∧ is_valid_ that' = false ∧ frame_ that' = None.
Proof.
  intros Hv. unfold WritePageGuard.move_assign, WritePageGuard.GetPageId.
  rewrite Hv. simpl. intros H. repeat bind_step H.
  by injection H as <- <- _.
Qed.

(** Dropping an invalid guard changes nothing, and neither does dropping a
    read guard whose frame pointer is empty. *)
Lemma Drop_invalid g b :
  is_valid_ g = false →
  ReadPageGuard.Drop g b = Ok (g, b) ∧ WritePageGuard.Drop g b = Ok (g, b).
Proof.
  intros Hv. unfold ReadPageGuard.Drop, WritePageGuard.Drop. by rewrite Hv.
Qed.

Lemma ReadPageGuard_Drop_moved_from g b :
  frame_ g = None → ∃ g', ReadPageGuard.Drop g b = Ok (g', b).
Proof.
  intros Hf. unfold ReadPageGuard.Drop. rewrite Hf.
  destruct (is_valid_ g); simpl; eauto.
Qed.

End PoolFacts.

(** * The sum of pinned, free and evictable frames *)

Section Occupancy.
Import Pool PoolInv Replacer Inv.

Lemma frame_at_Ok i frames f :
  frame_at i frames = Ok f ↔ 0 ≤ i ∧ frames !! Z.to_nat i = Some f.
Proof.
  unfold frame_at. destruct (Z.ltb_spec i 0) as [Hneg|Hpos].
  - split; [done|lia].
  - destruct (frames !! Z.to_nat i) as [f'|]; split; try done.
    + by intros [= ->].
    + by intros [_ [= ->]].
    + by intros [_ ?].
Qed.

Lemma pinned_frames_insert n old new (frames : list FrameHeader) :
  frames !! n = Some old →
  pinned_frames (<[n := new]> frames) =
  pinned_frames frames - (if 0 <? pin_count_ old then 1 else 0)
                       + (if 0 <? pin_count_ new then 1 else 0).
Proof.
  revert n. induction frames as [|f frames IH]; intros [|n]; simpl; try done.
  - intros [= ->]. lia.
  - intros H. rewrite (IH _ H). lia.
Qed.

Lemma pinned_frames_set i old new frames :
  frame_at i frames = Ok old →
  pinned_frames (set_frame i new frames) =
  pinned_frames frames - (if 0 <? pin_count_ old then 1 else 0)
                       + (if 0 <? pin_count_ new then 1 else 0).
Proof. intros [_ H]%frame_at_Ok. by apply pinned_frames_insert. Qed.

Lemma frame_at_set_eq i old new frames :
  frame_at i frames = Ok old → frame_at i (set_frame i new frames) = Ok new.
Proof.
  intros [Hi H]%frame_at_Ok. apply frame_at_Ok. split; [done|].
  unfold set_frame. apply list_lookup_insert_eq. by eapply lookup_lt_Some.
Qed.

Lemma frame_at_id b i f :
  consistent b → frame_at i (frames_ b) = Ok f → frame_id_ f = i.
Proof.
  intros Hc [Hi H]%frame_at_Ok. destruct (c_frames b Hc _ _ H) as [-> _]. lia.
Qed.

(** The two calls every guard constructor makes on the replacer. *)
Lemma touch_replacer_inv g f b b' :
  touch_replacer g f b = Ok b' →
  frames_ b' = frames_ b ∧ free_frames_ b' = free_frames_ b ∧
  curr_size_ (replacer_ b') =
    (if is_ev f (replacer_ b) then wrap64 (curr_size_ (replacer_ b) - 1)
     else curr_size_ (replacer_ b)) ∧
  is_ev f (replacer_ b') = false.
Proof.
  unfold touch_replacer. destruct (guard_replacer_ g); simpl; [|done].
  intros H. bind_step H. bind_step H. injection H as <-. simpl.
  apply RecordAccess_inv in E as (_ & Hs & _ & _ & _ & Hev & _).
  apply SetEvictable_false_inv in E0 as (_ & Hs' & _ & _ & _ & Hev' & _).
  rewrite Hs', Hev, Hs. done.
Qed.

Lemma pin_inv i b b' :
  BPM.pin i b = Ok b' →
  ∃ fr, frame_at i (frames_ b) = Ok fr ∧
        frames_ b' = set_frame i
                       (mkFrame (frame_id_ fr) (wrap64 (pin_count_ fr + 1))
                                (is_dirty_ fr) (data_ fr)) (frames_ b) ∧
        replacer_ b' = replacer_ b ∧ free_frames_ b' = free_frames_ b.
Proof.
  unfold BPM.pin. intros H. bind_step H. injection H as <-. by exists a.
Qed.

Lemma deref_frame_inv g b i f :
  deref_frame g b = Ok (i, f) → frame_ g = Some i ∧ frame_at i (frames_ b) = Ok f.
Proof.
  unfold deref_frame. destruct (frame_ g) as [j|]; [|done]. simpl.
  intros H. bind_step H. by injection H as <- <-.
Qed.

(** Both guard constructors have the same body. *)
Lemma ctor_inv p i b g b' :
  ReadPageGuard.ctor p i b = Ok (g, b') ∨ WritePageGuard.ctor p i b = Ok (g, b') →
  g = mkGuard p (Some i) true true true ∧
  ∃ fr g0, frame_at i (frames_ b) = Ok fr ∧
           touch_replacer g0 (frame_id_ fr) b = Ok b'.
Proof.
  intros [H|H]; unfold ReadPageGuard.ctor, WritePageGuard.ctor in H;
    bind_step H; bind_step H; injection H as <- <-;
    apply deref_frame_inv in E as [[= <-] E]; (split; [done|]); eauto.
Qed.

(** A move out of the guard just constructed: the replacer is called once
    more, and the guard moved from has lost its frame. *)
Lemma move_ctor_inv junk p i b this that b' :
  ReadPageGuard.move_ctor junk (mkGuard p (Some i) true true true) b
    = Ok (this, that, b') ∨
  WritePageGuard.move_ctor junk (mkGuard p (Some i) true true true) b
    = Ok (this, that, b') →
  this = mkGuard p (Some i) true true true ∧ frame_ that = None ∧
  ∃ fr g0, frame_at i (frames_ b) = Ok fr ∧
           touch_replacer g0 (frame_id_ fr) b = Ok b'.
Proof.
  intros [H|H];
    unfold ReadPageGuard.move_ctor, WritePageGuard.move_ctor in H;
    simpl in H; bind_step H; bind_step H; injection H as <- <- <-;
    apply deref_frame_inv in E as [[= <-] E];
    (split; [done|]); (split; [done|]); eauto.
Qed.

Lemma Drop_no_frame g b g' b' :
  frame_ g = None →
  ReadPageGuard.Drop g b = Ok (g', b') ∨ WritePageGuard.Drop g b = Ok (g', b') →
  b' = b.
Proof.
  intros Hf [H|H]; unfold ReadPageGuard.Drop, WritePageGuard.Drop, deref_frame in H;
    rewrite Hf in H; destruct (is_valid_ g); simpl in H; by simplify_eq.
Qed.

Lemma is_ev_tracked f r : is_ev f r = true → tracked f r = true.
Proof. unfold is_ev, tracked. by destruct (store_find f (node_store_ r)). Qed.

Lemma is_ev_size f r : wf r → is_ev f r = true → 1 ≤ curr_size_ r.
Proof.
  intros Hwf. unfold is_ev.
  destruct (store_find f (node_store_ r)) as [node|] eqn:Ef; [|done].
  intros Hev. pose proof (count_evictable_find _ _ _ Ef) as Hge.
  rewrite Hev in Hge. simpl in Hge. destruct (wf_size r Hwf). lia.
Qed.

Lemma is_ev_unpinned b i f :
  consistent b → frame_at i (frames_ b) = Ok f →
  is_ev i (replacer_ b) = true → pin_count_ f = 0.
Proof.
  intros Hc Hf Hev.
  destruct (c_tracked b Hc i (is_ev_tracked _ _ Hev)) as (f' & Hf' & Hpin).
  rewrite Hf in Hf'. injection Hf' as <-. by apply Hpin.
Qed.

Lemma frame_at_pin_range b i f :
  consistent b → frame_at i (frames_ b) = Ok f →
  0 ≤ pin_count_ f ∧ pin_count_ f + 1 < 2 ^ 64.
Proof.
  intros Hc [_ H]%frame_at_Ok. by destruct (c_frames b Hc _ _ H) as (_ & ? & ?).
Qed.

(** A page that is resident: the frame gains a pin, and leaves the
    replacer's count if it was evictable. *)
Lemma Checked_resident_occupancy t p f fr b b' g :
  consistent b → p ≠ INVALID_PAGE_ID →
  page_table_ b !! p = Some f → frame_at f (frames_ b) = Ok fr →
  BPM.CheckedReadPage p t b = Ok (b', g) ∨ BPM.CheckedWritePage p t b = Ok (b', g) →
  occupancy b' =
  occupancy b + (if (pin_count_ fr =? 0) && negb (is_ev f (replacer_ b)) then 1 else 0).
Proof.
  intros Hc Hp%Z.eqb_neq Hpt Hfr H.
  assert (∃ b1 g1 b2 ret g2 b3 g3,
            BPM.pin f b = Ok b1 ∧
            (ReadPageGuard.ctor p f b1 = Ok (g1, b2) ∨
             WritePageGuard.ctor p f b1 = Ok (g1, b2)) ∧
            (ReadPageGuard.move_ctor 0 (BPM.set_valid g1) b2 = Ok (ret, g2, b3) ∨
             WritePageGuard.move_ctor 0 (BPM.set_valid g1) b2 = Ok (ret, g2, b3)) ∧
            (ReadPageGuard.Drop g2 b3 = Ok (g3, b') ∨
             WritePageGuard.Drop g2 b3 = Ok (g3, b')))
    as (b1 & g1 & b2 & ret & g2 & b3 & g3 & Hpin & Hctor & Hmove & Hdrop).
  { destruct H as [H|H]; unfold BPM.CheckedReadPage, BPM.CheckedWritePage in H;
      rewrite Hp, Hpt in H; repeat bind_step H; injection H as <- _;
      eexists _, _, _, _, _, _, _; eauto 10. }
  clear H.
  apply pin_inv in Hpin as (fr0 & Hfr0 & Hfr1 & Hr1 & Hfree1).
  rewrite Hfr in Hfr0. injection Hfr0 as <-.
  apply ctor_inv in Hctor as (-> & fr1 & ? & Hfr1' & Ht1).
  apply move_ctor_inv in Hmove as (-> & Hnone & fr2 & ? & Hfr2 & Ht2).
  apply (Drop_no_frame _ _ _ _ Hnone) in Hdrop as ->.
  apply touch_replacer_inv in Ht1 as (Hf2 & Hfree2 & Hs2 & Hev2).
  apply touch_replacer_inv in Ht2 as (Hf3 & Hfree3 & Hs3 & Hev3).
  rewrite Hfr1 in Hfr1'. rewrite (frame_at_set_eq _ _ _ _ Hfr) in Hfr1'.
  injection Hfr1' as <-. simpl in *.
  rewrite Hf2, Hfr1 in Hfr2. rewrite (frame_at_set_eq _ _ _ _ Hfr) in Hfr2.
  injection Hfr2 as <-. simpl in *.
  rewrite (frame_at_id _ _ _ Hc Hfr) in *.
  rewrite Hev2 in Hs3. rewrite Hr1 in Hs2.
  destruct (frame_at_pin_range _ _ _ Hc Hfr) as [Hp0 Hp1].
  unfold occupancy, Size.
  rewrite Hf3, Hf2, Hfr1, Hfree3, Hfree2, Hfree1, Hs3, Hs2.
  rewrite (pinned_frames_set _ _ _ _ Hfr). simpl.
  rewrite (wrap64_small (pin_count_ fr + 1)) by lia.
  assert ((0 <? pin_count_ fr + 1) = true) as -> by (apply Z.ltb_lt; lia).
  destruct (is_ev f (replacer_ b)) eqn:Hev.
  - pose proof (is_ev_unpinned _ _ _ Hc Hfr Hev) as Hz.
    pose proof (is_ev_size _ _ (c_replacer b Hc) Hev) as Hge.
    pose proof (c_size b Hc) as Hlt.
    rewrite Hz. simpl. rewrite wrap64_small by lia. lia.
  - rewrite andb_true_r.
    destruct (Z.eqb_spec (pin_count_ fr) 0) as [->|Hne]; simpl; [lia|].
    assert ((0 <? pin_count_ fr) = true) as -> by (apply Z.ltb_lt; lia). lia.
Qed.

Lemma is_ev_erased f s ts cs rs k :
  is_ev f (mkReplacer (store_erase f s) ts cs rs k) = false.
Proof. unfold is_ev. simpl. by rewrite store_find_erase_eq. Qed.

Lemma install_page_inv p i b b' :
  BPM.install_page p i b = Ok b' →
  ∃ fr, frame_at i (frames_ b) = Ok fr ∧
        frames_ b' = set_frame i (Reset fr) (frames_ b) ∧
        free_frames_ b' = free_frames_ b ∧
        curr_size_ (replacer_ b') =
          (if is_ev i (replacer_ b) then wrap64 (curr_size_ (replacer_ b) - 1)
           else curr_size_ (replacer_ b)) ∧
        is_ev i (replacer_ b') = false.
Proof.
  unfold BPM.install_page. intros H. repeat bind_step H. injection H as <-. simpl.
  apply RecordAccess_inv in E0 as (_ & Hs & _ & _ & _ & Hev & _).
  apply SetEvictable_false_inv in E1 as (_ & Hs' & _ & _ & _ & Hev' & _).
  exists a. rewrite Hs', Hev, Hs. done.
Qed.

(** The calls made once a frame is chosen for a page, one by one. *)
Lemma into_frame_chain p i fr b b' g :
  frame_at i (frames_ b) = Ok fr →
  BPM.read_into_frame p i b = Ok (b', g) ∨ BPM.write_into_frame p i b = Ok (b', g) →
  ∃ bd b1 g1 b2 b3 ret g2 b4 g3,
    BPM.install_page p i bd = Ok b1 ∧
    (ReadPageGuard.ctor p i b1 = Ok (g1, b2) ∨
     WritePageGuard.ctor p i b1 = Ok (g1, b2)) ∧
    BPM.pin i b2 = Ok b3 ∧
    (ReadPageGuard.move_ctor 0 (BPM.set_valid g1) b3 = Ok (ret, g2, b4) ∨
     WritePageGuard.move_ctor 0 (BPM.set_valid g1) b3 = Ok (ret, g2, b4)) ∧
    (ReadPageGuard.Drop g2 b4 = Ok (g3, b') ∨
     WritePageGuard.Drop g2 b4 = Ok (g3, b')) ∧
    g = Some ret ∧ num_frames_ bd = num_frames_ b ∧
    replacer_ bd = replacer_ b ∧ free_frames_ bd = free_frames_ b ∧
    (frames_ bd = frames_ b ∧ disk_scheduler_ bd = disk_scheduler_ b ∨
     frames_ bd = set_frame i
                    (mkFrame (frame_id_ fr) (pin_count_ fr) false (data_ fr))
                    (frames_ b) ∧
     log_ (disk_scheduler_ bd) =
       log_ (disk_scheduler_ b) ++ [EvWrite (frame_id_ fr) (data_ fr)]).
Proof.
  intros Hfr H.
  destruct H as [H|H]; unfold BPM.read_into_frame, BPM.write_into_frame in H;
    rewrite Hfr in H; simpl in H; destruct (is_dirty_ fr); simpl in H;
    try discriminate H; repeat bind_step H; injection H as <- <-;
    eexists _, _, _, _, _, _, _, _, _; (do 5 (split; [by eauto|])); simpl; eauto 10.
Qed.

(** A frame that is unpinned and not evictable is handed out behind a
    guard: one more frame is pinned, nothing else moves. *)
Lemma into_frame_view p i fr b b' g :
  frame_at i (frames_ b) = Ok fr → frame_id_ fr = i → pin_count_ fr = 0 →
  is_ev i (replacer_ b) = false →
  BPM.read_into_frame p i b = Ok (b', g) ∨ BPM.write_into_frame p i b = Ok (b', g) →
  pinned_frames (frames_ b') = pinned_frames (frames_ b) + 1 ∧
  free_frames_ b' = free_frames_ b ∧
  curr_size_ (replacer_ b') = curr_size_ (replacer_ b).
Proof.
  intros Hfr Hid Hpin Hev H.
  destruct (into_frame_chain _ _ _ _ _ _ Hfr H)
    as (bd & b1 & g1 & b2 & b3 & ret & g2 & b4 & g3
        & Hinst & Hctor & Hpinned & Hmove & Hdrop & _ & _ & Hrd & Hfd & Hframes).
  clear H.
  assert (∃ frd, frame_at i (frames_ bd) = Ok frd ∧ frame_id_ frd = i ∧
                 pin_count_ frd = 0 ∧
                 pinned_frames (frames_ bd) = pinned_frames (frames_ b))
    as (frd & Hfrd & Hidd & Hpind & Hpd).
  { destruct Hframes as [[-> _]|[-> _]]; [by exists fr|].
    eexists. split; [by eapply frame_at_set_eq|]. simpl. repeat split; try done.
    rewrite (pinned_frames_set _ _ _ _ Hfr). simpl. lia. }
  apply install_page_inv in Hinst as (fr0 & Hfr0 & Hf1 & Hfree1 & Hs1 & Hev1).
  rewrite Hfrd in Hfr0. injection Hfr0 as <-.
  rewrite Hrd, Hev in Hs1.
  apply ctor_inv in Hctor as (-> & fr1 & ? & Hfr1 & Ht1).
  rewrite Hf1, (frame_at_set_eq _ _ _ _ Hfrd) in Hfr1. injection Hfr1 as <-.
  simpl in Ht1. rewrite Hidd in Ht1.
  apply touch_replacer_inv in Ht1 as (Hf2 & Hfree2 & Hs2 & Hev2).
  rewrite Hev1 in Hs2.
  apply pin_inv in Hpinned as (fr2 & Hfr2 & Hf3 & Hr3 & Hfree3).
  rewrite Hf2, Hf1, (frame_at_set_eq _ _ _ _ Hfrd) in Hfr2. injection Hfr2 as <-.
  simpl in Hf3.
  apply move_ctor_inv in Hmove as (-> & Hnone & fr3 & ? & Hfr3 & Ht3).
  assert (frame_at i (frames_ b2) = Ok (Reset frd)) as Hat2.
  { rewrite Hf2, Hf1. by eapply frame_at_set_eq. }
  rewrite Hf3, (frame_at_set_eq _ _ _ _ Hat2) in Hfr3. injection Hfr3 as <-.
  simpl in Ht3. rewrite Hidd in Ht3.
  apply touch_replacer_inv in Ht3 as (Hf4 & Hfree4 & Hs4 & Hev4).
  rewrite Hr3, Hev2 in Hs4.
  apply (Drop_no_frame _ _ _ _ Hnone) in Hdrop as ->.
  split; [|split].
  - rewrite Hf4, Hf3, (pinned_frames_set _ _ _ _ Hat2), Hf2, Hf1,
      (pinned_frames_set _ _ _ _ Hfrd), Hpd, Hpind. simpl. lia.
  - congruence.
  - congruence.
Qed.

Lemma free_frame_facts b i :
  consistent b → i ∈ free_frames_ b →
  is_ev i (replacer_ b) = false ∧
  ∃ f, frame_at i (frames_ b) = Ok f ∧ frame_id_ f = i ∧ pin_count_ f = 0.
Proof.
  intros Hc Hin. destruct (c_free b Hc i Hin) as (Hev & f & Hf & Hpin).
  split; [done|]. exists f. repeat split; try done. by eapply frame_at_id.
Qed.

(** [NewPage] takes a frame off the free list, or out of the replacer, and
    leaves it unpinned and not evictable. *)
Lemma NewPage_occupancy b b' p :
  consistent b → BPM.NewPage b = Ok (b', p) → occupancy b' = occupancy b - 1.
Proof.
  intros Hc H. unfold BPM.NewPage in H.
  pose proof (c_replacer b Hc) as Hwf.
  destruct (free_frames_ b) as [|i rest] eqn:Hfree.
  - destruct (Evict_shape _ Hwf) as [[_ Hev]|(v & node & _ & Ef & Hnode & Hev)];
      rewrite Hev in H; simpl in H; [done|].
    repeat bind_step H. injection H as <- _.
    assert (is_ev v (replacer_ b) = true) as Hisev by (unfold is_ev; by rewrite Ef).
    pose proof (is_ev_unpinned _ _ _ Hc E Hisev) as Hpin.
    pose proof (is_ev_size _ _ Hwf Hisev) as Hge.
    apply RecordAccess_inv in E0 as (_ & Hs & _ & _ & _ & Hev0 & _).
    apply SetEvictable_false_inv in E1 as (_ & Hs' & _).
    rewrite Hev0, is_ev_erased, Hs in Hs'. simpl in Hs'.
    unfold occupancy, Size. simpl. rewrite Hfree, Hs'.
    rewrite (pinned_frames_set _ _ _ _ E), Hpin. simpl. lia.
  - simpl in H. repeat bind_step H. injection H as <- _.
    destruct (free_frame_facts b i Hc) as (Hisev & f & Hf & _ & Hpin).
    { rewrite Hfree. apply elem_of_cons; by left. }
    rewrite E in Hf. injection Hf as <-.
    apply RecordAccess_inv in E0 as (_ & Hs & _ & _ & _ & Hev0 & _).
    apply SetEvictable_false_inv in E1 as (_ & Hs' & _).
    rewrite Hev0, Hisev, Hs in Hs'.
    unfold occupancy, Size. simpl. rewrite Hfree, Hs'.
    rewrite (pinned_frames_set _ _ _ _ E), Hpin. simpl length.
    rewrite Nat2Z.inj_succ. unfold Reset. simpl. lia.
Qed.

(** A page that is not resident, when [Evict] and the free list do not both
    offer a frame. *)
Lemma Checked_absent_occupancy t p b b' g :
  consistent b → p ≠ INVALID_PAGE_ID → page_table_ b !! p = None →
  free_frames_ b = [] ∨ count_evictable (node_store_ (replacer_ b)) = 0 →
  BPM.CheckedReadPage p t b = Ok (b', g) ∨ BPM.CheckedWritePage p t b = Ok (b', g) →
  occupancy b' = occupancy b.
Proof.
  intros Hc Hp%Z.eqb_neq Hpt Hside H.
  pose proof (c_replacer b Hc) as Hwf.
  assert (∃ b0 victim, BPM.acquire_frame b = (b0, victim) ∧
            match victim with
            | None => b' = b0
            | Some i => BPM.read_into_frame p i b0 = Ok (b', g) ∨
                        BPM.write_into_frame p i b0 = Ok (b', g)
            end) as (b0 & victim & Hacq & Hrest).
  { destruct (BPM.acquire_frame b) as [b0 victim] eqn:Hacq. exists b0, victim.
    split; [done|].
    destruct H as [H|H]; unfold BPM.CheckedReadPage, BPM.CheckedWritePage in H;
      rewrite Hp, Hpt, Hacq in H; destruct victim; eauto; by injection H as <- _. }
  clear H. unfold BPM.acquire_frame in Hacq.
  destruct (Evict_shape _ Hwf) as [[H0 Hev]|(v & node & Hn0 & Ef & Hnode & Hev)];
    rewrite Hev in Hacq.
  - destruct (free_frames_ b) as [|i rest] eqn:Hfree; injection Hacq as <- <-.
    + subst b'. unfold occupancy. simpl. by rewrite Hfree.
    + destruct (free_frame_facts b i Hc) as (Hisev & f & Hf & Hid & Hpin).
      { rewrite Hfree. apply elem_of_cons; by left. }
      apply (into_frame_view p i f) in Hrest as (Hpinned & Hfree' & Hs);
        [|simpl; done..].
      unfold occupancy, Size. rewrite Hpinned, Hfree', Hs, Hfree. simpl.
      rewrite Nat2Z.inj_succ. lia.
  - destruct Hside as [Hfree|?]; [|done]. rewrite Hfree in Hacq.
    injection Hacq as <- <-.
    assert (is_ev v (replacer_ b) = true) as Hisev by (unfold is_ev; by rewrite Ef).
    destruct (c_tracked b Hc v (is_ev_tracked _ _ Hisev)) as (f & Hf & Hpin).
    specialize (Hpin Hisev).
    pose proof (frame_at_id _ _ _ Hc Hf) as Hid.
    pose proof (is_ev_size _ _ Hwf Hisev) as Hge.
    apply (into_frame_view p v f) in Hrest as (Hpinned & Hfree' & Hs);
      [|simpl; try done..]; [|apply is_ev_erased].
    unfold occupancy, Size. rewrite Hpinned, Hfree', Hs. simpl. lia.
Qed.

(** [DeletePage] on a page whose frame, if it has one, is tracked by the
    replacer. *)
Lemma DeletePage_occupancy p b b' r :
  consistent b →
  (∀ f, page_table_ b !! p = Some f → tracked f (replacer_ b) = true) →
  BPM.DeletePage p b = Ok (b', r) → occupancy b' = occupancy b.
Proof.
  intros Hc Htr H. unfold BPM.DeletePage in H.
  destruct (p =? INVALID_PAGE_ID); [by injection H as <- _|].
  destruct (page_table_ b !! p) as [f|] eqn:Hpt; [|by injection H as <- _].
  specialize (Htr f eq_refl). bind_step H.
  destruct (Z.gtb_spec (pin_count_ a) 0) as [Hgt|Hle]; [by injection H as <- _|].
  bind_step H. injection H as <- _.
  destruct (frame_at_pin_range _ _ _ Hc E) as [Hp0 _].
  unfold Remove, tracked in *.
  destruct (store_find f (node_store_ (replacer_ b))) as [node|] eqn:Ef; [|done].
  apply BUSTUB_ASSERT_inv in E0 as [Hev [= <-]].
  assert (is_ev f (replacer_ b) = true) as Hisev by (unfold is_ev; by rewrite Ef).
  pose proof (is_ev_size _ _ (c_replacer b Hc) Hisev) as Hge.
  pose proof (c_size b Hc) as Hlt.
  unfold occupancy, Size. simpl.
  rewrite (pinned_frames_set _ _ _ _ E), length_app, Nat2Z.inj_add. simpl.
  rewrite wrap64_small by lia.
  assert ((0 <? pin_count_ a) = false) as -> by (apply Z.ltb_ge; lia). lia.
Qed.

(** The cases of a drop of a valid guard that holds a frame. *)
Lemma Drop_cases g i b g' b' :
  consistent b → is_valid_ g = true → frame_ g = Some i →
  ReadPageGuard.Drop g b = Ok (g', b') ∨ WritePageGuard.Drop g b = Ok (g', b') →
  ∃ f, frame_at i (frames_ b) = Ok f ∧
       (pin_count_ f ≤ 0 ∧ b' = b ∨
        0 < pin_count_ f ∧
        ∃ b1, b1 = with_frames b
                     (set_frame i
                        (mkFrame (frame_id_ f) (wrap64 (pin_count_ f - 1))
                                 (is_dirty_ f) (data_ f)) (frames_ b)) ∧
              if wrap64 (pin_count_ f - 1) =? 0 then
                ∃ r, SetEvictable (frame_id_ f) true (replacer_ b1) = Ok r ∧
                     b' = with_replacer b1 r
              else b' = b1).
Proof.
  intros Hc Hv Hfg [H|H].
  - unfold ReadPageGuard.Drop in H. rewrite Hv, Hfg in H. simpl in H.
    bind_step H. exists a. split; [done|].
    destruct (Z.leb_spec (pin_count_ a) 0) as [Hle|Hgt];
      [left; by injection H as _ <-|right]. split; [done|].
    eexists. split; [done|]. bind_step H. injection H as _ <-.
    destruct (wrap64 (pin_count_ a - 1) =? 0); [|by injection E0 as <-].
    destruct (guard_replacer_ g); simpl in E0; [|done].
    bind_step E0. injection E0 as <-. eauto.
  - unfold WritePageGuard.Drop in H. rewrite Hv in H. simpl in H.
    bind_step H. apply deref_frame_inv in E as [Hz E].
    rewrite Hfg in Hz. injection Hz as <-.
    exists f. split; [done|].
    destruct (frame_at_pin_range _ _ _ Hc E) as [Hp0 _].
    destruct (Z.eqb_spec (pin_count_ f) 0) as [Hz|Hnz];
      [left; injection H as _ <-; split; [lia|done]|right]. split; [lia|].
    eexists. split; [done|]. bind_step H. injection H as _ <-.
    destruct (wrap64 (pin_count_ f - 1) =? 0); [|by injection E0 as <-].
    destruct (guard_replacer_ g); simpl in E0; [|done].
    bind_step E0. injection E0 as <-. eauto.
Qed.

(** Dropping a guard, whatever the guard. *)
Lemma Drop_occupancy g b g' b' :
  consistent b →
  ReadPageGuard.Drop g b = Ok (g', b') ∨ WritePageGuard.Drop g b = Ok (g', b') →
  occupancy b' = occupancy b.
Proof.
  intros Hc H.
  destruct (is_valid_ g) eqn:Hv.
  2:{ destruct (Drop_invalid g b Hv) as [Hr Hw].
      destruct H as [H|H]; rewrite ?Hr, ?Hw in H; by injection H as _ <-. }
  destruct (frame_ g) as [i|] eqn:Hfg.
  2:{ by rewrite (Drop_no_frame _ _ _ _ Hfg H). }
  destruct (Drop_cases _ _ _ _ _ Hc Hv Hfg H) as (f & Hf & Hcases).
  clear H. destruct Hcases as [[_ ->]|(Hgt & b1 & -> & Hb')]; [done|].
  destruct (frame_at_pin_range _ _ _ Hc Hf) as [_ Hp1].
  rewrite (frame_at_id _ _ _ Hc Hf) in Hb'.
  rewrite (wrap64_small (pin_count_ f - 1)) in * by lia.
  assert ((0 <? pin_count_ f) = true) as Hpos by (apply Z.ltb_lt; lia).
  destruct (Z.eqb_spec (pin_count_ f - 1) 0) as [Hz|Hnz].
  - destruct Hb' as (r & Hset & ->).
    apply SetEvictable_true_inv in Hset as (_ & Hs & _). simpl in Hs.
    destruct (is_ev i (replacer_ b)) eqn:Hisev.
    { pose proof (is_ev_unpinned _ _ _ Hc Hf Hisev). lia. }
    pose proof (c_size b Hc) as Hlt.
    pose proof (wf_size _ (c_replacer b Hc)) as Hsz.
    pose proof (count_evictable_nonneg (node_store_ (replacer_ b))) as Hnn.
    unfold occupancy, Size. simpl. rewrite Hs, wrap64_small by lia.
    rewrite (pinned_frames_set _ _ _ _ Hf), Hpos. simpl. rewrite Hz. simpl. lia.
  - subst b'. unfold occupancy, Size. simpl.
    rewrite (pinned_frames_set _ _ _ _ Hf), Hpos. simpl.
    assert ((0 <? pin_count_ f - 1) = true) as -> by (apply Z.ltb_lt; lia). lia.
Qed.

(** ** A new pool *)

Lemma pinned_frames_new (l : list Z) : pinned_frames (map new_frame l) = 0.
Proof. induction l as [|i l IH]; simpl; [done|]. by rewrite IH. Qed.

Lemma occupancy_init n k disk : 0 ≤ n → occupancy (Pool.init n k disk) = n.
Proof.
  intros Hn. unfold occupancy, Pool.init, Size. simpl.
  rewrite pinned_frames_new, length_seqZ. lia.
Qed.

Lemma frames_init_lookup n i f :
  map new_frame (seqZ 0 n) !! i = Some f → f = new_frame (Z.of_nat i) ∧ Z.of_nat i < n.
Proof.
  rewrite list_lookup_fmap. destruct (seqZ 0 n !! i) as [j|] eqn:Hj; [|done].
  apply lookup_seqZ in Hj as [-> Hlt]. simpl. intros [= <-]. split; [f_equal; lia|lia].
Qed.

Lemma consistent_init n k disk :
  1 ≤ k → 0 ≤ n < 2 ^ 31 → consistent (Pool.init n k disk).
Proof.
  intros Hk Hn. split; simpl; try done.
  - by apply wf_init.
  - rewrite length_map, length_seqZ. lia.
  - intros i f [-> _]%frames_init_lookup. simpl. lia.
  - apply NoDup_seqZ.
  - intros i [Hi0 Hi1]%elem_of_seqZ. split; [done|].
    exists (new_frame i). split; [|done]. apply frame_at_Ok. split; [lia|].
    rewrite list_lookup_fmap.
    assert (seqZ 0 n !! Z.to_nat i = Some i) as ->; [|done].
    apply lookup_seqZ. lia.
Qed.

(** [NewPage] returns when the free list is not empty. *)
Lemma NewPage_returns b :
  consistent b → free_frames_ b ≠ [] → ∃ b' p, BPM.NewPage b = Ok (b', p).
Proof.
  intros Hc Hne. unfold BPM.NewPage.
  destruct (free_frames_ b) as [|i rest] eqn:Hfree; [done|]. simpl.
  destruct (free_frame_facts b i Hc) as (_ & f & Hf & Hid & _).
  { rewrite Hfree. apply elem_of_cons; by left. }
  rewrite Hf. simpl.
  assert ((wrap64 i <=? replacer_size_ (replacer_ b)) = true) as Hrange.
  { apply frame_at_Ok in Hf as [Hi Hl]. apply lookup_lt_Some in Hl.
    pose proof (c_length b Hc). pose proof (c_bound b Hc).
    pose proof (wf_bound _ (c_replacer b Hc)).
    apply assert_in_range; lia. }
  destruct (RecordAccess_ok i Unknown _ (wf_k _ (c_replacer b Hc)) Hrange)
    as [r1 Hr1]. rewrite Hr1. simpl.
  apply RecordAccess_inv in Hr1 as Hinv. destruct Hinv as (_ & _ & Hb & _).
  rewrite <- Hb in Hrange.
  destruct (SetEvictable_ok i false _ Hrange) as [r2 Hr2]. rewrite Hr2. simpl.
  by eexists _, _.
Qed.

(** ** No page is ever read from disk *)

Lemma touch_replacer_disk g f b b' :
  touch_replacer g f b = Ok b' → disk_scheduler_ b' = disk_scheduler_ b.
Proof.
  unfold touch_replacer. destruct (guard_replacer_ g); simpl; [|done].
  intros H. repeat bind_step H. by injection H as <-.
Qed.

Lemma acquire_frame_keeps b b0 victim :
  BPM.acquire_frame b = (b0, victim) →
  frames_ b0 = frames_ b ∧ disk_scheduler_ b0 = disk_scheduler_ b.
Proof.
  unfold BPM.acquire_frame. destruct (Evict (replacer_ b)) as [repl pid].
  destruct (free_frames_ b); [destruct pid|]; by intros [= <- _].
Qed.

(** What stands behind [Checked_page_not_read_from_disk]: whenever a frame
    is given to a page, the guard returned shows a buffer of zeros, and the
    disk has received no read request that it had not received before. *)
Lemma into_frame_zeroed p i fr b b' g :
  frame_at i (frames_ b) = Ok fr →
  BPM.read_into_frame p i b = Ok (b', g) ∨ BPM.write_into_frame p i b = Ok (b', g) →
  ∃ guard,
    g = Some guard ∧
    ReadPageGuard.GetData guard b' = Ok (replicate (length (data_ fr)) 0) ∧
    WritePageGuard.GetData guard b' = Ok (replicate (length (data_ fr)) 0) ∧
    ∀ q, EvRead q ∈ log_ (disk_scheduler_ b') → EvRead q ∈ log_ (disk_scheduler_ b).
Proof.
  intros Hfr H.
  destruct (into_frame_chain _ _ _ _ _ _ Hfr H)
    as (bd & b1 & g1 & b2 & b3 & ret & g2 & b4 & g3
        & Hinst & Hctor & Hpinned & Hmove & Hdrop & -> & _ & Hrd & Hfd & Hframes).
  assert (∃ frd, frame_at i (frames_ bd) = Ok frd ∧
                 length (data_ frd) = length (data_ fr) ∧
                 ∀ q, EvRead q ∈ log_ (disk_scheduler_ bd) →
                      EvRead q ∈ log_ (disk_scheduler_ b))
    as (frd & Hfrd & Hlen & Hlog).
  { destruct Hframes as [[-> ->]|[-> ->]]; [by exists fr|].
    eexists. split; [by eapply frame_at_set_eq|]. split; [done|].
    intros q [Hq|Hq]%elem_of_app; [done|]. by apply list_elem_of_singleton in Hq. }
  assert (disk_scheduler_ b1 = disk_scheduler_ bd) as Hd1.
  { unfold BPM.install_page in Hinst. repeat bind_step Hinst.
    by injection Hinst as <-. }
  apply install_page_inv in Hinst as (fr0 & Hfr0 & Hf1 & _).
  rewrite Hfrd in Hfr0. injection Hfr0 as <-.
  apply ctor_inv in Hctor as (-> & fr1 & ? & Hfr1 & Ht1).
  pose proof (touch_replacer_disk _ _ _ _ Ht1) as Hd2.
  apply touch_replacer_inv in Ht1 as (Hf2 & _).
  assert (disk_scheduler_ b3 = disk_scheduler_ b2) as Hd3.
  { unfold BPM.pin in Hpinned. bind_step Hpinned. by injection Hpinned as <-. }
  apply pin_inv in Hpinned as (fr2 & Hfr2 & Hf3 & _).
  rewrite Hf2, Hf1, (frame_at_set_eq _ _ _ _ Hfrd) in Hfr2. injection Hfr2 as <-.
  assert (frame_at i (frames_ b2) = Ok (Reset frd)) as Hat2.
  { rewrite Hf2, Hf1. by eapply frame_at_set_eq. }
  apply move_ctor_inv in Hmove as (-> & Hnone & fr3 & ? & _ & Ht3).
  pose proof (touch_replacer_disk _ _ _ _ Ht3) as Hd4.
  apply touch_replacer_inv in Ht3 as (Hf4 & _).
  apply (Drop_no_frame _ _ _ _ Hnone) in Hdrop as ->.
  eexists. split; [done|].
  unfold ReadPageGuard.GetData, WritePageGuard.GetData, deref_frame. simpl.
  rewrite Hf4, Hf3, (frame_at_set_eq _ _ _ _ Hat2). simpl. rewrite Hlen.
  split; [done|]. split; [done|].
  intros q. rewrite Hd4, Hd3, Hd2, Hd1. apply Hlog.
Qed.

(** The same for the two public functions, on any pool. *)
Lemma Checked_absent_zeroed t p b b' guard :
  p ≠ INVALID_PAGE_ID → page_table_ b !! p = None →
  BPM.CheckedReadPage p t b = Ok (b', Some guard) ∨
  BPM.CheckedWritePage p t b = Ok (b', Some guard) →
  ∃ n, ReadPageGuard.GetData guard b' = Ok (replicate n 0) ∧
       WritePageGuard.GetData guard b' = Ok (replicate n 0) ∧
       ∀ q, EvRead q ∈ log_ (disk_scheduler_ b') → EvRead q ∈ log_ (disk_scheduler_ b).
Proof.
  intros Hp%Z.eqb_neq Hpt H.
  destruct (BPM.acquire_frame b) as [b0 victim] eqn:Hacq.
  destruct (acquire_frame_keeps _ _ _ Hacq) as [_ Hd0].
  assert (∃ i, BPM.read_into_frame p i b0 = Ok (b', Some guard) ∨
               BPM.write_into_frame p i b0 = Ok (b', Some guard)) as [i Hrest].
  { destruct H as [H|H]; unfold BPM.CheckedReadPage, BPM.CheckedWritePage in H;
      rewrite Hp, Hpt, Hacq in H; destruct victim; try done; eauto. }
  assert (∃ fr, frame_at i (frames_ b0) = Ok fr) as [fr Hfr].
  { destruct (frame_at i (frames_ b0)) as [fr|e] eqn:Hfr; [by exists fr|].
    destruct Hrest as [H'|H']; unfold BPM.read_into_frame, BPM.write_into_frame in H';
      by rewrite Hfr in H'. }
  destruct (into_frame_zeroed _ _ _ _ _ _ Hfr Hrest) as (g' & [= <-] & Hr & Hw & Hlog).
  rewrite Hd0 in Hlog. eauto.
Qed.

(** ** The sum of the specification *)

(** C2 fails on the code.  A new pool of two frames has the sum at 2, its
    capacity, and after its first [NewPage] the sum is 1: the frame taken
    from the free list is marked non-evictable by [SetEvictable(_, false)]
    while its pin count stays 0 ([pin_count_++] is commented out), so that
    it is neither pinned, nor free, nor counted by [Size()]. *)
Lemma NewPage_breaks_occupancy :
  occupancy PoolExamples.pool_of_two = BPM.Size PoolExamples.pool_of_two ∧
  ∃ b', BPM.NewPage PoolExamples.pool_of_two = Ok (b', 0) ∧
        occupancy b' ≠ BPM.Size b'.
Proof.
  split; [vm_compute; reflexivity|].
  eexists. split; [vm_compute; reflexivity|]. vm_compute. discriminate.
Qed.

(** How each operation moves the sum, from a pool whose bookkeeping is
    consistent:
    - [NewPage] lowers the sum by exactly one: the frame it takes is left
      with pin count 0 and marked non-evictable, so it is neither pinned,
      nor free, nor counted by [Size()];
    - [CheckedReadPage] and [CheckedWritePage] on a resident page keep the
      sum when the frame is pinned or evictable, and raise it by one when
      the frame is unpinned and not evictable (as [NewPage] leaves it);
    - on a page that is not resident they keep the sum when the free list is
      empty or the replacer has no evictable frame, whether a guard is
      returned or not;
    - [DeletePage] keeps the sum when the page's frame, if it has one, is
      tracked by the replacer;
    - dropping a guard keeps the sum. *)
Lemma occupancy_steps (b : BufferPoolManager) :
  consistent b →
  (∀ b' p, BPM.NewPage b = Ok (b', p) → occupancy b' = occupancy b - 1) ∧
  (∀ t p f fr b' g,
     p ≠ INVALID_PAGE_ID →
     page_table_ b !! p = Some f → frame_at f (frames_ b) = Ok fr →
     BPM.CheckedReadPage p t b = Ok (b', g) ∨ BPM.CheckedWritePage p t b = Ok (b', g) →
     occupancy b' =
     occupancy b
     + (if (pin_count_ fr =? 0) && negb (is_ev f (replacer_ b)) then 1 else 0)) ∧
  (∀ t p b' g,
     p ≠ INVALID_PAGE_ID → page_table_ b !! p = None →
     free_frames_ b = [] ∨ count_evictable (node_store_ (replacer_ b)) = 0 →
     BPM.CheckedReadPage p t b = Ok (b', g) ∨ BPM.CheckedWritePage p t b = Ok (b', g) →
     occupancy b' = occupancy b) ∧
  (∀ p b' r,
     (∀ f, page_table_ b !! p = Some f → tracked f (replacer_ b) = true) →
     BPM.DeletePage p b = Ok (b', r) → occupancy b' = occupancy b) ∧
  (∀ g g' b',
     ReadPageGuard.Drop g b = Ok (g', b') ∨ WritePageGuard.Drop g b = Ok (g', b') →
     occupancy b' = occupancy b).
Proof.
  intros Hc. split; [|split; [|split; [|split]]].
  - intros b' p. by apply NewPage_occupancy.
  - intros t p f fr b' g. by apply Checked_resident_occupancy.
  - intros t p b' g. by apply Checked_absent_occupancy.
  - intros p b' r. by apply DeletePage_occupancy.
  - intros g g' b'. by apply Drop_occupancy.
Qed.

(** [occupancy_steps] at a new pool of two frames, for [NewPage]. *)
Lemma occupancy_steps_witness :
  consistent PoolExamples.pool_of_two ∧
  ∃ b' p, BPM.NewPage PoolExamples.pool_of_two = Ok (b', p) ∧
          occupancy b' = occupancy PoolExamples.pool_of_two - 1.
Proof.
  assert (consistent PoolExamples.pool_of_two) as Hc.
  { apply consistent_init; lia. }
  split; [exact Hc|].
  destruct (NewPage_returns _ Hc) as (b' & p & H); [discriminate|].
  exists b', p. split; [exact H|].
  exact (proj1 (occupancy_steps _ Hc) b' p H).
Defined.

(** The case [occupancy_steps] leaves out.  With a frame on the free
    list and another one evictable, fetching a page that is not resident
    takes the free frame and also removes the evictable one from the
    replacer: the sum goes from 2 to 1. *)
Lemma Checked_absent_drops_victim :
  ∃ b b' g,
    PoolExamples.one_free_one_evictable = Ok b ∧
    free_frames_ b = [1] ∧ is_ev 0 (replacer_ b) = true ∧ occupancy b = 2 ∧
    BPM.CheckedReadPage 7 Unknown b = Ok (b', Some g) ∧
    tracked 0 (replacer_ b') = false ∧ occupancy b' = 1.
Proof.
  eexists _, _, _. split; [vm_compute; reflexivity|].
  split; [vm_compute; reflexivity|]. split; [vm_compute; reflexivity|].
  split; [vm_compute; reflexivity|]. split; [vm_compute; reflexivity|].
  split; vm_compute; reflexivity.
Qed.

End Occupancy.

(** * Consistency is kept along a run *)

Section Consistency.
Import Pool PoolInv Replacer Inv.

Lemma frame_at_set_ne i j new frames :
  0 ≤ i → i ≠ j → frame_at j (set_frame i new frames) = frame_at j frames.
Proof.
  intros Hi Hne. unfold frame_at, set_frame.
  destruct (Z.ltb_spec j 0); [done|].
  rewrite list_lookup_insert_ne; [done|]. lia.
Qed.

Lemma is_ev_find g r r' :
  store_find g (node_store_ r') = store_find g (node_store_ r) →
  is_ev g r' = is_ev g r ∧ tracked g r' = tracked g r.
Proof. unfold is_ev, tracked. by intros ->. Qed.

(** One frame of a consistent pool is replaced and the replacer and the free
    list move with it. *)
Lemma consistent_update b b' i a a' :
  consistent b → frame_at i (frames_ b) = Ok a →
  num_frames_ b' = num_frames_ b →
  frames_ b' = set_frame i a' (frames_ b) →
  frame_id_ a' = frame_id_ a → 0 ≤ pin_count_ a' → pin_count_ a' + 1 < 2 ^ 64 →
  wf (replacer_ b') → replacer_size_ (replacer_ b') = num_frames_ b →
  curr_size_ (replacer_ b') + 1 < 2 ^ 64 →
  (∀ g, g ≠ i → store_find g (node_store_ (replacer_ b'))
                = store_find g (node_store_ (replacer_ b)) ∨
                store_find g (node_store_ (replacer_ b')) = None) →
  (is_ev i (replacer_ b') = true → pin_count_ a' = 0) →
  NoDup (free_frames_ b') →
  (∀ j, j ∈ free_frames_ b' → j = i ∨ j ∈ free_frames_ b) →
  (i ∈ free_frames_ b' → is_ev i (replacer_ b') = false ∧ pin_count_ a' = 0) →
  consistent b'.
Proof.
  intros Hc Ha Hn Hfr Hid Hp0 Hp1 Hwf Hb Hs Hother Hev Hnd Hfree Hifree.
  pose proof (frame_at_id _ _ _ Hc Ha) as Hida.
  apply frame_at_Ok in Ha as Ha'. destruct Ha' as [Hi0 Hl].
  pose proof (lookup_lt_Some _ _ _ Hl) as Hlt.
  assert (∀ g, g ≠ i →
               (is_ev g (replacer_ b) = false → is_ev g (replacer_ b') = false) ∧
               (tracked g (replacer_ b') = true →
                tracked g (replacer_ b) = true ∧
                is_ev g (replacer_ b') = is_ev g (replacer_ b))) as Hsame.
  { intros g Hg. unfold is_ev, tracked.
    destruct (Hother g Hg) as [-> | ->]; [|done].
    by destruct (store_find g (node_store_ (replacer_ b))). }
  split.
  - done.
  - congruence.
  - rewrite Hfr, Hn. unfold set_frame. rewrite length_insert. apply (c_length b Hc).
  - done.
  - intros j f. rewrite Hfr. unfold set_frame.
    destruct (decide (j = Z.to_nat i)) as [->|Hj].
    + rewrite list_lookup_insert_eq by done. intros [= <-]. split; [|done].
      rewrite Hid, Hida. lia.
    + rewrite list_lookup_insert_ne by done. apply (c_frames b Hc).
  - done.
  - intros j Hj. rewrite Hfr. destruct (decide (j = i)) as [->|Hne].
    + destruct (Hifree Hj) as [? ?]. split; [done|].
      exists a'. split; [by eapply frame_at_set_eq|done].
    + destruct (Hfree j Hj) as [?|Hj']; [done|].
      destruct (c_free b Hc j Hj') as (Hevj & f & Hf & Hpin).
      split; [by apply (Hsame j Hne)|].
      exists f. split; [|done]. by rewrite frame_at_set_ne.
  - intros j Hj. rewrite Hfr. destruct (decide (j = i)) as [->|Hne].
    + exists a'. split; [by eapply frame_at_set_eq|done].
    + destruct (proj2 (Hsame j Hne) Hj) as [Ht He].
      destruct (c_tracked b Hc j Ht) as (f & Hf & Hpin).
      exists f. split; [by rewrite frame_at_set_ne|]. by rewrite He.
Qed.

Lemma frame_index_int b i a :
  consistent b → frame_at i (frames_ b) = Ok a → - 2 ^ 31 ≤ i < 2 ^ 31.
Proof.
  intros Hc [Hi Hl]%frame_at_Ok. apply lookup_lt_Some in Hl.
  pose proof (c_length b Hc). pose proof (c_bound b Hc).
  pose proof (wf_bound _ (c_replacer b Hc)). lia.
Qed.

(** [RecordAccess] followed by [SetEvictable(false)] on a consistent
    replacer. *)
Lemma touch_wf i r r1 r2 :
  wf r → - 2 ^ 31 ≤ i < 2 ^ 31 →
  current_timestamp_ r + 1 < 2 ^ 64 → curr_size_ r + 1 < 2 ^ 64 →
  RecordAccess i Unknown r = Ok r1 → SetEvictable i false r1 = Ok r2 →
  wf r2 ∧ replacer_size_ r2 = replacer_size_ r ∧
  curr_size_ r2 ≤ curr_size_ r ∧
  current_timestamp_ r2 ≤ current_timestamp_ r + 1 ∧
  is_ev i r2 = false ∧
  (∀ g, g ≠ i → store_find g (node_store_ r2) = store_find g (node_store_ r)).
Proof.
  intros Hwf Hint Hts Hcs H1 H2.
  pose proof (wf_RecordAccess _ _ _ _ Hwf Hint Hts H1) as Hwf1.
  assert (current_timestamp_ r1 ≤ current_timestamp_ r + 1) as Hts1.
  { revert H1. unfold RecordAccess. intros [_ H1]%BUSTUB_ASSERT_inv.
    destruct (store_find i (node_store_ r)); simpl in H1; try bind_step H1;
      injection H1 as <-;
      simpl; rewrite ?wrap64_small; destruct (wf_now _ Hwf); lia. }
  apply RecordAccess_inv in H1 as (_ & Hs1 & Hb1 & _ & _ & Hev1 & Hf1 & _).
  assert (curr_size_ r1 + 1 < 2 ^ 64) as Hsz1 by lia.
  pose proof (wf_SetEvictable _ _ _ _ Hwf1 Hint Hsz1 H2) as Hwf2.
  pose proof (is_ev_size i r1 Hwf1) as Hge.
  apply SetEvictable_false_inv in H2 as (_ & Hs2 & Hb2 & _ & Hts2 & Hev2 & _ & Hf2 & _).
  split; [done|]. split; [congruence|]. split.
  { rewrite Hs2. destruct (is_ev i r1); [|lia].
    rewrite wrap64_small; [lia|]. specialize (Hge eq_refl).
    destruct (wf_size _ Hwf1). lia. }
  split; [lia|]. split; [done|].
  intros g Hg. by rewrite Hf2, Hf1.
Qed.

(** [NewPage] keeps the bookkeeping consistent. *)
Lemma consistent_NewPage b b' p :
  consistent b → current_timestamp_ (replacer_ b) + 1 < 2 ^ 64 →
  BPM.NewPage b = Ok (b', p) → consistent b'.
Proof.
  intros Hc Hts H. unfold BPM.NewPage in H.
  pose proof (c_replacer b Hc) as Hwf. pose proof (c_size b Hc) as Hcs.
  destruct (free_frames_ b) as [|i rest] eqn:Hfree.
  - destruct (Evict_shape _ Hwf) as [[_ Hev]|(v & node & _ & Ef & Hnode & Hev)];
      rewrite Hev in H; simpl in H; [done|].
    pose proof (wf_Evict _ Hwf) as Hwf0. rewrite Hev in Hwf0. simpl in Hwf0.
    repeat bind_step H. injection H as <- _.
    assert (is_ev v (replacer_ b) = true) as Hisev by (unfold is_ev; by rewrite Ef).
    pose proof (is_ev_size _ _ Hwf Hisev) as Hge.
    destruct (touch_wf _ _ _ _ Hwf0 (frame_index_int _ _ _ Hc E) ltac:(simpl; lia)
                ltac:(simpl; lia) E0 E1) as (Hwf2 & Hb2 & Hs2 & _ & Hev2 & Hf2).
    simpl in *.
    eapply (consistent_update b _ v a (Reset a)); simpl; try done; try lia.
    + rewrite Hb2. apply (c_bound b Hc).
    + intros g Hg. left. rewrite Hf2 by done. by apply store_find_erase_ne.
    + apply NoDup_nil_2.
    + intros j Hj. by apply elem_of_nil in Hj.
  - simpl in H. repeat bind_step H. injection H as <- _.
    destruct (touch_wf _ _ _ _ Hwf (frame_index_int _ _ _ Hc E) Hts Hcs E0 E1)
      as (Hwf2 & Hb2 & Hs2 & _ & Hev2 & Hf2).
    eapply (consistent_update b _ i a (Reset a)); simpl; try done; try lia.
    + rewrite Hb2. apply (c_bound b Hc).
    + intros g Hg. left. by apply Hf2.
    + pose proof (c_nodup b Hc) as Hnd. rewrite Hfree in Hnd.
      by apply NoDup_cons_1_2 in Hnd.
    + intros j Hj. right. rewrite Hfree. apply elem_of_cons; by right.
Qed.



Lemma set_frame_twice i x y frames :
  set_frame i x (set_frame i y frames) = set_frame i x frames.
Proof. unfold set_frame. apply list_insert_insert_eq. Qed.









End Consistency.

(** * Further properties of the replacer *)

Section ReplacerMore.
Import Replacer Inv.




Lemma replacer_one_pinned_wf : wf Examples.replacer_one_pinned.
Proof.
  split; simpl; try lia.
  - repeat (apply Forall_cons; split); try apply Forall_nil;
      unfold node_ok; simpl; repeat split; try lia;
      repeat (apply Forall_cons; split); try apply Forall_nil; lia.
  - repeat apply NoDup_cons_2; try apply NoDup_nil_2;
      rewrite ?elem_of_cons, ?elem_of_nil; lia.
Qed.





(** X3.  [Size()] is the number of evictable entries for as long as
    [SetEvictable(_, true)] is only called for frames the replacer already
    tracks: from a consistent replacer whose [curr_size_] equals the number
    of entries with the flag set, [RecordAccess], [SetEvictable(_, false)],
    [SetEvictable(_, true)] on a tracked frame, [Remove] and [Evict] all
    keep the equality. *)
Theorem Size_counts_evictable (r : LRUKReplacer) :
  wf r → curr_size_ r + 1 < 2 ^ 64 →
  Size r = count_evictable (node_store_ r) →
  (∀ f t r', RecordAccess f t r = Ok r' →
             Size r' = count_evictable (node_store_ r')) ∧
  (∀ f flag r', (flag = true → tracked f r = true) →
                SetEvictable f flag r = Ok r' →
                Size r' = count_evictable (node_store_ r')) ∧
  (∀ f r', Remove f r = Ok r' → Size r' = count_evictable (node_store_ r')) ∧
  Size (Evict r).1 = count_evictable (node_store_ (Evict r).1).
Proof.
  unfold Size. intros Hwf Hcs Hsize.
  pose proof (count_evictable_nonneg (node_store_ r)) as Hc0.
  split; [|split; [|split]].
  - intros f t r' H. apply RecordAccess_inv in H as (_ & -> & _ & _ & _ & _ & _ & ->).
    done.
  - intros f [|] r' Htr H.
    + apply SetEvictable_true_inv in H as (_ & -> & _ & _ & _ & _ & _ & _ & ->).
      rewrite (Htr eq_refl).
      destruct (is_ev f r); simpl; [lia|]. rewrite wrap64_small by lia. lia.
    + apply SetEvictable_false_inv in H as (_ & -> & _ & _ & _ & _ & _ & _ & ->).
      destruct (is_ev f r) eqn:Hev; simpl; [|lia].
      pose proof (is_ev_size _ _ Hwf Hev). rewrite wrap64_small by lia. lia.
  - intros f r'. unfold Remove.
    destruct (store_find f (node_store_ r)) as [node|] eqn:Ef; [|by intros [= <-]].
    intros [Hev [= <-]]%BUSTUB_ASSERT_inv. simpl.
    rewrite store_erase_clear_history.
    rewrite (count_evictable_erase _ _ _ (wf_nodup _ Hwf) Ef), Hev. simpl.
    pose proof (count_evictable_find _ _ _ Ef) as Hge. rewrite Hev in Hge.
    simpl in Hge. rewrite wrap64_small by lia. lia.
  - destruct (Evict_shape r Hwf) as [[_ ->]|(f & node & _ & Ef & Hev & ->)];
      [done|]. simpl.
    rewrite (count_evictable_erase _ _ _ (wf_nodup _ Hwf) Ef), Hev. simpl. lia.
Qed.

(** [Size_counts_evictable] at a replacer that tracks frame 0, not
    evictable, and frame 1, evictable: an access, both changes of flag, a
    removal and an eviction. *)
Lemma Size_counts_evictable_witness :
  ∃ r1 r2 r3 r4,
    RecordAccess 0 Unknown Examples.replacer_one_pinned = Ok r1 ∧
    Size r1 = count_evictable (node_store_ r1) ∧
    SetEvictable 0 true Examples.replacer_one_pinned = Ok r2 ∧
    Size r2 = count_evictable (node_store_ r2) ∧ Size r2 = 2 ∧
    SetEvictable 1 false Examples.replacer_one_pinned = Ok r3 ∧
    Size r3 = count_evictable (node_store_ r3) ∧ Size r3 = 0 ∧
    Remove 1 Examples.replacer_one_pinned = Ok r4 ∧
    Size r4 = count_evictable (node_store_ r4) ∧
    (Evict Examples.replacer_one_pinned).2 = Some 1 ∧
    Size (Evict Examples.replacer_one_pinned).1
    = count_evictable (node_store_ (Evict Examples.replacer_one_pinned).1).
Proof.
  destruct (Size_counts_evictable Examples.replacer_one_pinned
              replacer_one_pinned_wf ltac:(simpl; lia) eq_refl)
    as (Hrecord & Hset & Hremove & Hevict).
  eexists _, _, _, _.
  split; [reflexivity|]. split; [apply (Hrecord 0 Unknown); reflexivity|].
  split; [reflexivity|].
  split; [apply (Hset 0 true); [reflexivity|reflexivity]|].
  split; [reflexivity|]. split; [reflexivity|].
  split; [apply (Hset 1 false); [discriminate|reflexivity]|].
  split; [reflexivity|]. split; [reflexivity|].
  split; [apply (Hremove 1); reflexivity|].
  split; [reflexivity|]. exact Hevict.
Defined.

(** X4.  [Remove].  A frame without an entry: nothing happens.  A frame
    whose entry is not evictable: the assertion fails.  A frame whose entry
    is evictable: the entry is erased, every other entry stays as it is,
    [Size()] goes down by one and the timestamp does not move. *)
Theorem Remove_spec (f : Z) (r : LRUKReplacer) :
  wf r →
  (tracked f r = false → Remove f r = Ok r) ∧
  (tracked f r = true → is_ev f r = false → Remove f r = Fault AssertionFailure) ∧
  (is_ev f r = true →
   ∃ r', Remove f r = Ok r' ∧ tracked f r' = false ∧
         (∀ g, g ≠ f → store_find g (node_store_ r') = store_find g (node_store_ r)) ∧
         Size r' = Size r - 1 ∧
         current_timestamp_ r' = current_timestamp_ r).
Proof.
  intros Hwf. unfold tracked, is_ev, Remove, Size.
  destruct (store_find f (node_store_ r)) as [node|] eqn:Ef.
  - split; [done|]. split.
    + intros _ ->. done.
    + intros Hev. rewrite Hev. simpl. eexists. split; [reflexivity|]. simpl.
      rewrite store_erase_clear_history, store_find_erase_eq.
      split; [done|]. split.
      * intros g Hg. by apply store_find_erase_ne.
      * pose proof (count_evictable_find _ _ _ Ef) as Hge. rewrite Hev in Hge.
        simpl in Hge. destruct (wf_size _ Hwf).
        rewrite wrap64_small by lia. done.
  - split; [done|]. split; done.
Qed.

(** [Remove_spec] at a replacer that tracks frame 0, not evictable, and
    frame 1, evictable, and does not track frame 2: the three cases. *)
Lemma Remove_spec_witness :
  Remove 2 Examples.replacer_one_pinned = Ok Examples.replacer_one_pinned ∧
  Remove 0 Examples.replacer_one_pinned = Fault AssertionFailure ∧
  ∃ r', Remove 1 Examples.replacer_one_pinned = Ok r' ∧
        tracked 1 r' = false ∧
        (∀ g, g ≠ 1 → store_find g (node_store_ r')
                      = store_find g (node_store_ Examples.replacer_one_pinned)) ∧
        Size r' = Size Examples.replacer_one_pinned - 1 ∧
        current_timestamp_ r' = current_timestamp_ Examples.replacer_one_pinned.
Proof.
  split; [|split].
  - exact (proj1 (Remove_spec 2 Examples.replacer_one_pinned
                    replacer_one_pinned_wf) eq_refl).
  - exact (proj1 (proj2 (Remove_spec 0 Examples.replacer_one_pinned
                           replacer_one_pinned_wf)) eq_refl eq_refl).
  - exact (proj2 (proj2 (Remove_spec 1 Examples.replacer_one_pinned
                           replacer_one_pinned_wf)) eq_refl).
Defined.

Lemma count_evictable_pos (s : store) :
  count_evictable s ≠ 0 → ∃ g nd, (g, nd) ∈ s ∧ is_evictable_ nd = true.
Proof.
  induction s as [|[f node] s IH]; simpl; [done|].
  destruct (is_evictable_ node) eqn:E.
  - intros _. exists f, node. split; [apply elem_of_cons; by left|done].
  - intros H. destruct IH as (g & nd & Hin & Hev); [lia|].
    exists g, nd. split; [apply elem_of_cons; by right|done].
Qed.

(** The loop of [Evict] over entries of one kind: all evictable entries have
    [k] timestamps ([same_k]), or all have fewer and at least one. *)
Lemma Evict_loop_max k now bound (same_k : bool) (s : store) v :
  0 ≤ now < 2 ^ 64 →
  Forall (node_ok k now bound) s →
  (∀ f node, (f, node) ∈ s → is_evictable_ node = true →
     history_ node ≠ [] ∧
     if same_k then Z.of_nat (length (history_ node)) = k
     else Z.of_nat (length (history_ node)) < k) →
  (same_k = true → is_inf v = false) →
  max_delta_time v ≤ max_delta_time (Evict_loop k now s v) ∧
  (∀ f node front h, (f, node) ∈ s → is_evictable_ node = true →
     history_ node = front :: h →
     now - front ≤ max_delta_time (Evict_loop k now s v)) ∧
  ((ans (Evict_loop k now s v) = ans v ∧
    max_delta_time (Evict_loop k now s v) = max_delta_time v) ∨
   (∃ node front h, (ans (Evict_loop k now s v), node) ∈ s ∧
      is_evictable_ node = true ∧ history_ node = front :: h ∧
      max_delta_time (Evict_loop k now s v) = now - front)).
Proof.
  intros Hnow. revert v.
  induction s as [|[f node] s IH]; intros v Hok Hkind Hinf; simpl.
  { split; [lia|]. split; [|by left].
    intros g nd front h Hin. by apply elem_of_nil in Hin. }
  apply Forall_cons in Hok as [(Hf & Hlen & Hts) Hok]. simpl in *.
  assert (∀ g nd, (g, nd) ∈ s → is_evictable_ nd = true →
            history_ nd ≠ [] ∧
            if same_k then Z.of_nat (length (history_ nd)) = k
            else Z.of_nat (length (history_ nd)) < k) as Hkind'.
  { intros g nd Hin. apply (Hkind g). apply elem_of_cons; by right. }
  assert (∀ w, (same_k = true → is_inf w = false) →
            max_delta_time v ≤ max_delta_time w →
            (ans w = ans v ∧ max_delta_time w = max_delta_time v ∨
             ans w = f ∧ is_evictable_ node = true ∧
             ∃ front h, history_ node = front :: h ∧
                        max_delta_time w = now - front) →
            (is_evictable_ node = true →
             ∀ front h, history_ node = front :: h →
                        now - front ≤ max_delta_time w) →
            max_delta_time v ≤ max_delta_time (Evict_loop k now s w) ∧
            (∀ g nd front h, (g, nd) ∈ (f, node) :: s → is_evictable_ nd = true →
               history_ nd = front :: h →
               now - front ≤ max_delta_time (Evict_loop k now s w)) ∧
            ((ans (Evict_loop k now s w) = ans v ∧
              max_delta_time (Evict_loop k now s w) = max_delta_time v) ∨
             (∃ nd front h, (ans (Evict_loop k now s w), nd) ∈ (f, node) :: s ∧
                is_evictable_ nd = true ∧ history_ nd = front :: h ∧
                max_delta_time (Evict_loop k now s w) = now - front))) as Hstep.
  { intros w Hw Hle Hans Hcov.
    destruct (IH w Hok Hkind' Hw) as (Hmono & Hall & Hres).
    split; [lia|]. split.
    - intros g nd front h [Heq|Hin]%elem_of_cons Hev Hh.
      + injection Heq as -> ->. specialize (Hcov Hev _ _ Hh). lia.
      + apply (Hall g nd front h Hin Hev Hh).
    - destruct Hres as [[Ha Hm]|(nd & front & h & Hin & Hev & Hh & Hm)].
      + destruct Hans as [[Ha' Hm']|(Ha' & Hev & front & h & Hh & Hm')].
        * left. split; congruence.
        * right. exists node, front, h. rewrite Ha, Ha'.
          split; [apply elem_of_cons; by left|]. split; [done|]. split; [done|].
          congruence.
      + right. exists nd, front, h. split; [apply elem_of_cons; by right|]. done. }
  destruct (is_evictable_ node) eqn:E; simpl.
  2:{ apply Hstep; try done. by left. }
  destruct (Hkind f node) as [Hne Hk]; [apply elem_of_cons; by left|done|].
  destruct (history_ node) as [|front h] eqn:Eh; [done|].
  apply Forall_cons in Hts as [Hfront _].
  rewrite (wrap64_small (now - front)) by lia.
  destruct same_k.
  - rewrite (Hinf eq_refl). rewrite (proj2 (Z.eqb_eq _ _) Hk). simpl.
    destruct (Z.ltb_spec (max_delta_time v) (now - front)) as [Hlt|Hge].
    + apply Hstep; simpl; try done; try lia.
      * right. split; [done|]. split; [done|]. by exists front, h.
      * intros _ front' h' [= <- <-]. lia.
    + apply Hstep; simpl; try done; try lia; try (by left).
      intros _ front' h' [= <- <-]. lia.
  - assert ((Z.of_nat (length (front :: h)) =? k) = false) as ->
      by (apply Z.eqb_neq; lia).
    rewrite andb_false_l, (proj2 (Z.ltb_lt _ _) Hk).
    destruct (Z.gtb_spec (now - front) (max_delta_time v)) as [Hlt|Hge].
    + apply Hstep; simpl; try done; try lia.
      * right. split; [done|]. split; [done|]. by exists front, h.
      * intros _ front' h' [= <- <-]. lia.
    + apply Hstep; simpl; try done; try lia; try (by left).
      intros _ front' h' [= <- <-]. lia.
Qed.

(** X5.  [Evict] follows LRU-K whenever the evictable frames are of one
    kind.  In a consistent replacer with an evictable frame, if every
    evictable frame has [k_] recorded accesses, or every evictable frame has
    at least one and fewer than [k_], then [Evict] returns an evictable
    frame whose oldest recorded timestamp is the smallest among the
    evictable frames (largest backward k-distance in the first case,
    earliest first access in the second). *)
Theorem Evict_oldest_of_one_kind (r : LRUKReplacer) :
  wf r → count_evictable (node_store_ r) ≠ 0 →
  (∀ f node, (f, node) ∈ node_store_ r → is_evictable_ node = true →
             Z.of_nat (length (history_ node)) = k_ r) ∨
  (∀ f node, (f, node) ∈ node_store_ r → is_evictable_ node = true →
             0 < Z.of_nat (length (history_ node)) < k_ r) →
  ∃ f node t,
    (Evict r).2 = Some f ∧
    store_find f (node_store_ r) = Some node ∧ is_evictable_ node = true ∧
    head (history_ node) = Some t ∧
    ∀ g node' t', (g, node') ∈ node_store_ r → is_evictable_ node' = true →
                  head (history_ node') = Some t' → t ≤ t'.
Proof.
  intros Hwf Hcnt Hkind.
  pose proof Hwf as [Hk Hnow Hbound Hnodes Hnodup Hsize].
  set (v0 := mkLocals false false 0 INVALID_PAGE_ID).
  assert (∃ same_k : bool,
            ∀ f node, (f, node) ∈ node_store_ r → is_evictable_ node = true →
              history_ node ≠ [] ∧
              if same_k then Z.of_nat (length (history_ node)) = k_ r
              else Z.of_nat (length (history_ node)) < k_ r) as [same_k Hk'].
  { destruct Hkind as [H|H]; [exists true|exists false];
      intros f node Hin Hev; specialize (H f node Hin Hev);
      (split; [|lia]); intros E; rewrite E in H; simpl in H; lia. }
  destruct (Evict_loop_max (k_ r) (current_timestamp_ r) (replacer_size_ r)
              same_k (node_store_ r) v0 Hnow Hnodes Hk' ltac:(done))
    as (Hmono & Hall & Hres).
  assert (∃ g nd, (g, nd) ∈ node_store_ r ∧ is_evictable_ nd = true)
    as (g & nd & Hin & Hev).
  { by apply count_evictable_pos. }
  assert (1 ≤ max_delta_time
                (Evict_loop (k_ r) (current_timestamp_ r) (node_store_ r) v0))
    as Hpos.
  { destruct (Hk' g nd Hin Hev) as [Hne _].
    destruct (history_ nd) as [|front h] eqn:Eh; [done|].
    specialize (Hall g nd front h Hin Hev Eh).
    rewrite Forall_forall in Hnodes. destruct (Hnodes _ Hin) as (_ & _ & Hts).
    simpl in Hts. rewrite Eh in Hts. apply Forall_cons in Hts as [? _]. lia. }
  destruct Hres as [[_ Hm]|(node & front & h & Hnode & Hnev & Hh & Hm)].
  { simpl in Hm. lia. }
  unfold Evict. fold v0.
  set (v := Evict_loop (k_ r) (current_timestamp_ r) (node_store_ r) v0) in *.
  assert (0 ≤ ans v) as Hans.
  { rewrite Forall_forall in Hnodes. by destruct (Hnodes _ Hnode) as [[? _] _]. }
  assert ((ans v =? INVALID_PAGE_ID) = false) as ->.
  { apply Z.eqb_neq. unfold INVALID_PAGE_ID. lia. }
  exists (ans v), node, front. simpl.
  split; [done|]. split; [by apply store_find_NoDup|]. split; [done|].
  split; [by rewrite Hh|].
  intros g' node' t' Hin' Hev' Ht'.
  destruct (history_ node') as [|front' h'] eqn:Eh'; [done|].
  injection Ht' as <-.
  specialize (Hall g' node' front' h' Hin' Hev' Eh'). lia.
Qed.

Lemma Evict_oldest_of_one_kind_witness :
  wf Examples.replacer_both_full ∧
  ∃ f node t,
    (Evict Examples.replacer_both_full).2 = Some f ∧
    store_find f (node_store_ Examples.replacer_both_full) = Some node ∧
    is_evictable_ node = true ∧ head (history_ node) = Some t ∧
    ∀ g node' t', (g, node') ∈ node_store_ Examples.replacer_both_full →
                  is_evictable_ node' = true →
                  head (history_ node') = Some t' → t ≤ t'.
Proof.
  assert (wf Examples.replacer_both_full) as Hwf.
  { split; simpl; try lia.
    - repeat (apply Forall_cons; split); try apply Forall_nil;
        unfold node_ok; simpl; repeat split; try lia;
        repeat (apply Forall_cons; split); try apply Forall_nil; lia.
    - repeat apply NoDup_cons_2; try apply NoDup_nil_2;
        rewrite ?elem_of_cons, ?elem_of_nil; lia. }
  split; [exact Hwf|].
  apply (Evict_oldest_of_one_kind _ Hwf); [simpl; lia|].
  left. intros f node Hin _. simpl in Hin.
  rewrite !elem_of_cons, elem_of_nil in Hin.
  destruct Hin as [[= -> ->]|[[= -> ->]|[]]]; reflexivity.
Defined.

End ReplacerMore.

(** * Further properties of the buffer pool and of the guards *)

Section PoolMore.
Import Pool PoolInv Replacer Inv.


Lemma touch_replacer_eq g i b :
  guard_replacer_ g = true →
  touch_replacer g i b = (r ← touch i (replacer_ b); Ok (with_replacer b r)).
Proof.
  intros Hg. unfold touch_replacer, touch. rewrite Hg. simpl.
  by destruct (RecordAccess i Unknown (replacer_ b)).
Qed.

Lemma RecordAccess_timestamp f t r r' :
  RecordAccess f t r = Ok r' →
  current_timestamp_ r' =
    if is_scan t then current_timestamp_ r else wrap64 (current_timestamp_ r + 1).
Proof.
  unfold RecordAccess. intros [_ H]%BUSTUB_ASSERT_inv.
  destruct (store_find f (node_store_ r)); destruct (is_scan t); simpl in H;
    try bind_step H; by injection H as <-.
Qed.

(** The two calls succeed for a frame identifier the assertion accepts, and
    leave the frame tracked and not evictable. *)
Lemma touch_returns i r :
  (wrap64 i <=? replacer_size_ r) = true → 1 ≤ k_ r →
  ∃ r', touch i r = Ok r' ∧
        replacer_size_ r' = replacer_size_ r ∧ k_ r' = k_ r ∧
        current_timestamp_ r' = wrap64 (current_timestamp_ r + 1) ∧
        is_ev i r' = false ∧ tracked i r' = true ∧
        (∀ g, g ≠ i → store_find g (node_store_ r') = store_find g (node_store_ r)).
Proof.
  intros Hrange Hk. unfold touch.
  destruct (RecordAccess_ok i Unknown _ Hk Hrange) as [r1 Hr1]. rewrite Hr1. simpl.
  pose proof (RecordAccess_timestamp _ _ _ _ Hr1) as Hts1. simpl in Hts1.
  apply RecordAccess_inv in Hr1 as (_ & _ & Hb1 & Hk1 & _ & _ & Ho1 & _).
  rewrite <- Hb1 in Hrange.
  destruct (SetEvictable_ok i false _ Hrange) as [r2 Hr2]. rewrite Hr2.
  apply SetEvictable_false_inv in Hr2 as (_ & _ & Hb2 & Hk2 & Hts2 & Hev2 & Htr2 & Ho2 & _).
  exists r2. split; [done|]. split; [congruence|]. split; [congruence|].
  split; [congruence|]. split; [done|]. split; [done|].
  intros g Hg. by rewrite Ho2, Ho1.
Qed.

Lemma touch_inv i r r' :
  touch i r = Ok r' →
  (wrap64 i <=? replacer_size_ r) = true ∧
  replacer_size_ r' = replacer_size_ r ∧ k_ r' = k_ r ∧
  current_timestamp_ r' = wrap64 (current_timestamp_ r + 1) ∧
  is_ev i r' = false ∧ tracked i r' = true ∧
  (∀ g, g ≠ i → store_find g (node_store_ r') = store_find g (node_store_ r)).
Proof.
  intros H. unfold touch in H. bind_step H.
  pose proof (RecordAccess_timestamp _ _ _ _ E) as Hts1. simpl in Hts1.
  apply RecordAccess_inv in E as (Hrange & _ & Hb1 & Hk1 & _ & _ & Ho1 & _).
  apply SetEvictable_false_inv in H
    as (_ & _ & Hb2 & Hk2 & Hts2 & Hev2 & Htr2 & Ho2 & _).
  split; [done|]. split; [congruence|]. split; [congruence|].
  split; [congruence|]. split; [done|]. split; [done|].
  intros g Hg. by rewrite Ho2, Ho1.
Qed.

Lemma Evict_k r : k_ (Evict r).1 = k_ r.
Proof.
  unfold Evict. cbv zeta. destruct (ans _ =? _); simpl;
    by destruct (evict_success _).
Qed.

Lemma acquire_frame_k b b0 victim :
  BPM.acquire_frame b = (b0, victim) → k_ (replacer_ b0) = k_ (replacer_ b).
Proof.
  unfold BPM.acquire_frame. pose proof (Evict_k (replacer_ b)) as Hk.
  destruct (Evict (replacer_ b)) as [repl pid]. simpl in Hk.
  destruct (free_frames_ b); [destruct pid|]; by intros [= <- _].
Qed.

Lemma frame_in_range b i f :
  consistent b → frame_at i (frames_ b) = Ok f →
  (wrap64 i <=? replacer_size_ (replacer_ b)) = true.
Proof.
  intros Hc Hf. apply frame_at_Ok in Hf as [Hi Hl]. apply lookup_lt_Some in Hl.
  pose proof (c_length b Hc). pose proof (c_bound b Hc).
  pose proof (wf_bound _ (c_replacer b Hc)).
  apply assert_in_range; lia.
Qed.

(** The example pool is the one [NewPage] leaves, and is consistent. *)
Lemma pool_with_page_0_reached :
  PoolExamples.after_NewPage = Ok (PoolExamples.pool_with_page_0, 0).
Proof. vm_compute. reflexivity. Qed.

Lemma pool_with_page_0_consistent : consistent PoolExamples.pool_with_page_0.
Proof.
  eapply (consistent_NewPage (Pool.init 1 2 PoolExamples.empty_disk) _ 0).
  - apply consistent_init; lia.
  - by vm_compute.
  - exact pool_with_page_0_reached.
Qed.

(** ** Fetching a page that is resident *)

(** A fetch of a resident page, statement by statement: the frame is
    pinned, the replacer is called by the constructor of the guard and once
    more when the guard is moved into the optional. *)
Lemma Checked_resident_eq t p f fr b :
  p ≠ INVALID_PAGE_ID → page_table_ b !! p = Some f →
  frame_at f (frames_ b) = Ok fr →
  let res :=
    r ← touch (frame_id_ fr) (replacer_ b);
    r ← touch (frame_id_ fr) r;
    Ok (mkBPM (num_frames_ b) (next_page_id_ b)
              (set_frame f (mkFrame (frame_id_ fr) (wrap64 (pin_count_ fr + 1))
                                    (is_dirty_ fr) (data_ fr)) (frames_ b))
              (page_table_ b) (free_frames_ b) r (disk_scheduler_ b),
        Some (mkGuard p (Some f) true true true)) in
  BPM.CheckedReadPage p t b = res ∧ BPM.CheckedWritePage p t b = res.
Proof.
  intros Hp%Z.eqb_neq Hpt Hfr. simpl.
  unfold BPM.CheckedReadPage, BPM.CheckedWritePage, BPM.pin.
  rewrite Hp, Hpt, Hfr. simpl.
  unfold ReadPageGuard.ctor, WritePageGuard.ctor, deref_frame. simpl.
  rewrite (frame_at_set_eq _ _ _ _ Hfr). simpl.
  rewrite touch_replacer_eq by done. simpl.
  destruct (touch (frame_id_ fr) (replacer_ b)) as [r1|e]; simpl; [|done].
  unfold ReadPageGuard.move_ctor, WritePageGuard.move_ctor, deref_frame. simpl.
  rewrite (frame_at_set_eq _ _ _ _ Hfr). simpl.
  rewrite touch_replacer_eq by done. simpl.
  destruct (touch (frame_id_ fr) r1) as [r2|e]; simpl; done.
Qed.

(** X6.  A fetch of a page that is resident.  In a consistent pool,
    [CheckedReadPage] and [CheckedWritePage] of a page found in the page
    table return a valid guard for that page and its frame; the frame's pin
    count has gone up by one, the bytes seen through the guard are the bytes
    the frame held, the frame is tracked and not evictable; page table, free
    list and disk have not changed.  The access type passed plays no
    part. *)
Theorem Checked_resident_spec (t : AccessType) (p f : Z) (fr : FrameHeader)
    (b : BufferPoolManager) :
  consistent b → p ≠ INVALID_PAGE_ID →
  page_table_ b !! p = Some f → frame_at f (frames_ b) = Ok fr →
  ∃ b', let g := mkGuard p (Some f) true true true in
    BPM.CheckedReadPage p t b = Ok (b', Some g) ∧
    BPM.CheckedWritePage p t b = Ok (b', Some g) ∧
    BPM.GetPinCount p b' = Ok (Some (pin_count_ fr + 1)) ∧
    ReadPageGuard.GetData g b' = Ok (data_ fr) ∧
    WritePageGuard.GetData g b' = Ok (data_ fr) ∧
    is_ev f (replacer_ b') = false ∧ tracked f (replacer_ b') = true ∧
    page_table_ b' = page_table_ b ∧ free_frames_ b' = free_frames_ b ∧
    disk_scheduler_ b' = disk_scheduler_ b.
Proof.
  intros Hc Hp Hpt Hfr.
  destruct (Checked_resident_eq t p f fr b Hp Hpt Hfr) as [Hr Hw].
  pose proof (frame_at_id _ _ _ Hc Hfr) as Hid.
  destruct (frame_at_pin_range _ _ _ Hc Hfr) as [Hp0 Hp1].
  pose proof (frame_in_range _ _ _ Hc Hfr) as Hrange.
  pose proof (wf_k _ (c_replacer b Hc)) as Hk0.
  rewrite Hid in Hr, Hw.
  destruct (touch_returns f _ Hrange ltac:(lia)) as (r1 & Hr1 & Hb1 & Hkr1 & _).
  rewrite <- Hb1 in Hrange.
  destruct (touch_returns f _ Hrange ltac:(lia)) as (r2 & Hr2 & _ & _ & _ & Hev2 & Htr2 & _).
  rewrite Hr1 in Hr, Hw. simpl in Hr, Hw. rewrite Hr2 in Hr, Hw. simpl in Hr, Hw.
  rewrite wrap64_small in Hr, Hw by lia.
  eexists. simpl. split; [exact Hr|]. split; [exact Hw|].
  unfold BPM.GetPinCount, ReadPageGuard.GetData, WritePageGuard.GetData,
    deref_frame. simpl.
  rewrite Hpt, (frame_at_set_eq _ _ _ _ Hfr). simpl. done.
Qed.

Lemma Checked_resident_spec_witness :
  ∃ b', BPM.CheckedReadPage 0 Scan PoolExamples.pool_with_page_0
          = Ok (b', Some (mkGuard 0 (Some 0) true true true)) ∧
        BPM.GetPinCount 0 b' = Ok (Some 1).
Proof.
  destruct (Checked_resident_spec Scan 0 0 (new_frame 0)
              PoolExamples.pool_with_page_0 pool_with_page_0_consistent
              ltac:(discriminate) eq_refl eq_refl)
    as (b' & Hr & _ & Hpin & _).
  exists b'. split; [exact Hr|exact Hpin].
Defined.

(** ** Fetching a page that is not resident *)

(** The statements that follow the choice of a frame that is not dirty,
    one by one: [install_page], the constructor of the guard, the pin and
    the move into the optional. *)
Lemma into_frame_eq p i fr b :
  frame_at i (frames_ b) = Ok fr → is_dirty_ fr = false →
  let res :=
    r ← touch i (replacer_ b);
    r ← touch (frame_id_ fr) r;
    r ← touch (frame_id_ fr) r;
    Ok (mkBPM (num_frames_ b) (next_page_id_ b)
              (set_frame i (mkFrame (frame_id_ fr) (wrap64 (0 + 1)) false
                                    (replicate (length (data_ fr)) 0)) (frames_ b))
              (emplace p i (delete (frame_id_ fr) (page_table_ b)))
              (free_frames_ b) r (disk_scheduler_ b),
        Some (mkGuard p (Some i) true true true)) in
  BPM.read_into_frame p i b = res ∧ BPM.write_into_frame p i b = res.
Proof.
  intros Hfr Hd. cbv zeta.
  unfold BPM.read_into_frame, BPM.write_into_frame, BPM.install_page.
  rewrite Hfr. simpl. rewrite Hd. simpl. rewrite Hfr. simpl.
  change (touch i (replacer_ b))
    with (RecordAccess i Unknown (replacer_ b) ≫= λ r, SetEvictable i false r).
  destruct (RecordAccess i Unknown (replacer_ b)) as [r0|e]; simpl; [|done].
  destruct (SetEvictable i false r0) as [r1|e]; simpl; [|done].
  unfold ReadPageGuard.ctor, WritePageGuard.ctor, deref_frame. simpl.
  rewrite (frame_at_set_eq _ _ _ _ Hfr). simpl.
  rewrite touch_replacer_eq by done. simpl.
  destruct (touch (frame_id_ fr) r1) as [r2|e]; simpl; [|done].
  unfold BPM.pin. simpl. rewrite (frame_at_set_eq _ _ _ _ Hfr). simpl.
  unfold ReadPageGuard.move_ctor, WritePageGuard.move_ctor, deref_frame. simpl.
  rewrite !(set_frame_twice i _ (Reset fr) (frames_ b)).
  rewrite (frame_at_set_eq _ _ _ _ Hfr). simpl.
  rewrite touch_replacer_eq by done. simpl.
  destruct (touch (frame_id_ fr) r2) as [r3|e]; simpl; done.
Qed.

Lemma clean_frame b i f :
  clean b → frame_at i (frames_ b) = Ok f → is_dirty_ f = false.
Proof.
  intros Hcl [_ Hl]%frame_at_Ok. unfold clean in Hcl.
  rewrite Forall_forall in Hcl. apply Hcl. by eapply list_elem_of_lookup_2.
Qed.

Lemma emplace_lookup p i (pt : gmap Z Z) :
  pt !! p = None → emplace p i pt !! p = Some i.
Proof. intros H. unfold emplace. rewrite H. apply lookup_insert_eq. Qed.

(** X7.  A fetch of a page that is not resident, when a frame can be had.
    In a consistent pool without dirty frames, [CheckedReadPage] and
    [CheckedWritePage] of a page that is not in the page table return a
    valid guard when the free list is not empty or the replacer holds an
    evictable frame.  The frame is the head of the free list if there is
    one, otherwise the frame [Evict] returns; afterwards the page table maps
    the page to that frame, [GetPinCount] answers 1, the frame is tracked
    and not evictable, the free list has lost its head, and the disk has
    not been touched. *)
Theorem Checked_absent_spec (t : AccessType) (p : Z) (b : BufferPoolManager) :
  consistent b → clean b → p ≠ INVALID_PAGE_ID → page_table_ b !! p = None →
  free_frames_ b ≠ [] ∨ count_evictable (node_store_ (replacer_ b)) ≠ 0 →
  ∃ b' i, let g := mkGuard p (Some i) true true true in
    BPM.CheckedReadPage p t b = Ok (b', Some g) ∧
    BPM.CheckedWritePage p t b = Ok (b', Some g) ∧
    (head (free_frames_ b) = Some i ∨
     free_frames_ b = [] ∧ (Evict (replacer_ b)).2 = Some i) ∧
    page_table_ b' !! p = Some i ∧
    BPM.GetPinCount p b' = Ok (Some 1) ∧
    is_ev i (replacer_ b') = false ∧ tracked i (replacer_ b') = true ∧
    free_frames_ b' = tail (free_frames_ b) ∧
    disk_scheduler_ b' = disk_scheduler_ b.
Proof.
  intros Hc Hcl Hp%Z.eqb_neq Hpt Hsome.
  pose proof (c_replacer b Hc) as Hwf.
  unfold BPM.CheckedReadPage, BPM.CheckedWritePage. rewrite Hp, Hpt.
  assert (∃ b0 i fr,
            BPM.acquire_frame b = (b0, Some i) ∧
            (head (free_frames_ b) = Some i ∨
             free_frames_ b = [] ∧ (Evict (replacer_ b)).2 = Some i) ∧
            frame_at i (frames_ b0) = Ok fr ∧ frame_id_ fr = i ∧
            is_dirty_ fr = false ∧
            (wrap64 i <=? replacer_size_ (replacer_ b0)) = true ∧
            page_table_ b0 = page_table_ b ∧
            free_frames_ b0 = tail (free_frames_ b) ∧
            disk_scheduler_ b0 = disk_scheduler_ b)
    as (b0 & i & fr & Hacq & Hwhich & Hfr & Hid & Hd & Hrange & Hpt0 & Hfree0 & Hdisk0).
  { unfold BPM.acquire_frame.
    destruct (free_frames_ b) as [|i rest] eqn:Hfree.
    - destruct Hsome as [?|Hcnt]; [done|].
      destruct (Evict_shape _ Hwf) as [[H0 _]|(v & node & _ & Ef & Hnode & Hev)];
        [done|]. rewrite Hev.
      assert (is_ev v (replacer_ b) = true) as Hisev
        by (unfold is_ev; by rewrite Ef).
      destruct (c_tracked b Hc v (is_ev_tracked _ _ Hisev)) as (f & Hf & _).
      eexists _, v, f. split; [reflexivity|]. simpl.
      split; [by right|]. split; [done|].
      split; [by eapply frame_at_id|]. split; [by eapply clean_frame|].
      split; [by eapply frame_in_range|]. done.
    - destruct (free_frame_facts b i Hc) as (_ & f & Hf & Hid & _).
      { rewrite Hfree. apply elem_of_cons; by left. }
      destruct (Evict (replacer_ b)) as [repl pid] eqn:Hev.
      eexists _, i, f. split; [reflexivity|]. simpl.
      split; [by left|]. split; [done|]. split; [done|].
      split; [by eapply clean_frame|]. split; [|done].
      pose proof (frame_in_range _ _ _ Hc Hf) as Hr.
      destruct (Evict_shape _ Hwf) as [[_ Hev']|(v & node & _ & _ & _ & Hev')];
        rewrite Hev' in Hev; injection Hev as <- _; done. }
  pose proof (acquire_frame_k _ _ _ Hacq) as Hkb0.
  pose proof (wf_k _ Hwf) as Hk0. rewrite Hacq.
  destruct (into_frame_eq p i fr b0 Hfr Hd) as [Hr Hw]. rewrite Hr, Hw, Hid.
  clear Hr Hw.
  destruct (touch_returns i _ Hrange ltac:(lia)) as (r1 & -> & Hb1 & Hkr1 & _).
  rewrite <- Hb1 in Hrange.
  destruct (touch_returns i _ Hrange ltac:(lia)) as (r2 & Hr2 & Hb2 & Hkr2 & _).
  rewrite <- Hb2 in Hrange.
  destruct (touch_returns i _ Hrange ltac:(lia)) as (r3 & Hr3 & _ & _ & _ & Hev3 & Htr3 & _).
  simpl. rewrite Hr2. simpl. rewrite Hr3. simpl.
  eexists _, i. split; [reflexivity|]. split; [reflexivity|].
  split; [done|]. simpl.
  assert (emplace p i (delete i (page_table_ b0)) !! p = Some i) as Hnew.
  { apply emplace_lookup. rewrite Hpt0.
    destruct (decide (i = p)) as [->|Hne];
      [apply lookup_delete_eq|by rewrite lookup_delete_ne]. }
  split; [done|]. split.
  { unfold BPM.GetPinCount. simpl. rewrite Hnew.
    rewrite (frame_at_set_eq _ _ _ _ Hfr). done. }
  done.
Qed.

Lemma Checked_absent_spec_witness :
  ∃ b' i,
    BPM.CheckedReadPage 7 Unknown PoolExamples.pool_of_two
      = Ok (b', Some (mkGuard 7 (Some i) true true true)) ∧
    page_table_ b' !! 7 = Some i ∧ BPM.GetPinCount 7 b' = Ok (Some 1).
Proof.
  destruct (Checked_absent_spec Unknown 7 PoolExamples.pool_of_two)
    as (b' & i & Hr & _ & _ & Hpt & Hpin & _).
  - apply consistent_init; lia.
  - unfold clean, PoolExamples.pool_of_two, Pool.init. simpl.
    repeat (apply Forall_cons; split; [reflexivity|]). apply Forall_nil_2.
  - discriminate.
  - reflexivity.
  - left. discriminate.
  - exists b', i. split; [exact Hr|]. split; [exact Hpt|exact Hpin].
Defined.

(** X8.  A pool in which no frame can be had.  With an empty free list and
    no evictable frame in the replacer, [NewPage] ends in
    [std::bad_optional_access] (it calls [pid.value()] on the empty result
    of [Evict]); [CheckedReadPage] and [CheckedWritePage] of a page that is
    not resident return [std::nullopt] and leave the pool as it was, and
    [ReadPage] and [WritePage] then call [std::abort]. *)
Theorem pool_exhausted (t : AccessType) (p : Z) (b : BufferPoolManager) :
  free_frames_ b = [] → count_evictable (node_store_ (replacer_ b)) = 0 →
  BPM.NewPage b = Fault BadOptionalAccess ∧
  (p ≠ INVALID_PAGE_ID → page_table_ b !! p = None →
   BPM.CheckedReadPage p t b = Ok (b, None) ∧
   BPM.CheckedWritePage p t b = Ok (b, None) ∧
   BPM.ReadPage p t b = Fault Aborted ∧
   BPM.WritePage p t b = Fault Aborted).
Proof.
  intros Hfree Hcnt.
  assert (Evict (replacer_ b) = (replacer_ b, None)) as Hev.
  { unfold Evict. by rewrite (Evict_loop_no_evictable _ _ _ _ Hcnt). }
  split.
  - unfold BPM.NewPage. by rewrite Hfree, Hev.
  - intros Hp%Z.eqb_neq Hpt.
    assert (BPM.CheckedReadPage p t b = Ok (b, None) ∧
            BPM.CheckedWritePage p t b = Ok (b, None)) as [Hr Hw].
    { unfold BPM.CheckedReadPage, BPM.CheckedWritePage, BPM.acquire_frame.
      rewrite Hp, Hpt, Hev, Hfree. by destruct b. }
    unfold BPM.ReadPage, BPM.WritePage. by rewrite Hr, Hw.
Qed.

(** [pool_exhausted] at the pool of two frames that [two_pages_fetched]
    leaves: pages 0 and 1 are resident and both frames are pinned. *)
Lemma pool_exhausted_witness :
  BPM.NewPage PoolExamples.pool_two_pages_fetched = Fault BadOptionalAccess ∧
  BPM.CheckedReadPage 2 Unknown PoolExamples.pool_two_pages_fetched
  = Ok (PoolExamples.pool_two_pages_fetched, None) ∧
  BPM.CheckedWritePage 2 Unknown PoolExamples.pool_two_pages_fetched
  = Ok (PoolExamples.pool_two_pages_fetched, None) ∧
  BPM.ReadPage 2 Unknown PoolExamples.pool_two_pages_fetched = Fault Aborted ∧
  BPM.WritePage 2 Unknown PoolExamples.pool_two_pages_fetched = Fault Aborted.
Proof.
  destruct (pool_exhausted Unknown 2 PoolExamples.pool_two_pages_fetched
              eq_refl eq_refl) as [Hnew Hrest].
  split; [exact Hnew|].
  exact (Hrest ltac:(discriminate) eq_refl).
Defined.

(** ** Guards and pin counts *)

(** The frame record rebuilt from its own fields. *)
Lemma frame_eta f :
  mkFrame (frame_id_ f) (pin_count_ f) (is_dirty_ f) (data_ f) = f.
Proof. by destruct f. Qed.

(** Dropping the only valid guard kinds on a frame whose pin count is
    positive: the count goes down by one, and the frame is made evictable
    when it reaches zero. *)
Lemma Drop_pinned p i fr b :
  frame_at i (frames_ b) = Ok fr → 0 < pin_count_ fr < 2 ^ 64 →
  let g := mkGuard p (Some i) true true true in
  let b1 := with_frames b
              (set_frame i (mkFrame (frame_id_ fr) (pin_count_ fr - 1)
                                    (is_dirty_ fr) (data_ fr)) (frames_ b)) in
  let res :=
    b2 ← (if pin_count_ fr - 1 =? 0
          then r ← SetEvictable (frame_id_ fr) true (replacer_ b);
               Ok (with_replacer b1 r)
          else Ok b1);
    Ok (mkGuard p None false false false, b2) in
  ReadPageGuard.Drop g b = res ∧ WritePageGuard.Drop g b = res.
Proof.
  intros Hfr Hpin. cbv zeta.
  unfold ReadPageGuard.Drop, WritePageGuard.Drop, deref_frame. simpl.
  rewrite Hfr. simpl.
  assert ((pin_count_ fr <=? 0) = false) as -> by (apply Z.leb_gt; lia).
  assert ((pin_count_ fr =? 0) = false) as -> by (apply Z.eqb_neq; lia).
  rewrite (wrap64_small (pin_count_ fr - 1)) by lia.
  destruct (pin_count_ fr - 1 =? 0); simpl; done.
Qed.

(** X9.  A fetch followed by the drop of its guard.  In a consistent pool,
    fetching a resident page and dropping the guard returned leaves the
    frame as it was, pin count included; the guard is invalid afterwards.
    If the pin count was zero the frame ends evictable, otherwise it ends
    not evictable.  This holds for read and for write guards alike. *)
Theorem fetch_then_drop (t : AccessType) (p f : Z) (fr : FrameHeader)
    (b : BufferPoolManager) :
  consistent b → p ≠ INVALID_PAGE_ID →
  page_table_ b !! p = Some f → frame_at f (frames_ b) = Ok fr →
  ∃ b1 g b2 g',
    BPM.CheckedReadPage p t b = Ok (b1, Some g) ∧
    BPM.CheckedWritePage p t b = Ok (b1, Some g) ∧
    ReadPageGuard.Drop g b1 = Ok (g', b2) ∧
    WritePageGuard.Drop g b1 = Ok (g', b2) ∧
    is_valid_ g' = false ∧
    frame_at f (frames_ b2) = Ok fr ∧
    BPM.GetPinCount p b2 = Ok (Some (pin_count_ fr)) ∧
    is_ev f (replacer_ b2) = (pin_count_ fr =? 0).
Proof.
  intros Hc Hp Hpt Hfr.
  destruct (Checked_resident_eq t p f fr b Hp Hpt Hfr) as [Hr Hw].
  pose proof (frame_at_id _ _ _ Hc Hfr) as Hid.
  destruct (frame_at_pin_range _ _ _ Hc Hfr) as [Hp0 Hp1].
  pose proof (frame_in_range _ _ _ Hc Hfr) as Hrange.
  pose proof (wf_k _ (c_replacer b Hc)) as Hk0.
  rewrite Hid in Hr, Hw.
  destruct (touch_returns f _ Hrange ltac:(lia)) as (r1 & Hr1 & Hb1 & Hkr1 & _).
  rewrite <- Hb1 in Hrange.
  destruct (touch_returns f _ Hrange ltac:(lia)) as (r2 & Hr2 & Hb2 & Hkr2 & _ & Hev2 & Htr2 & _).
  rewrite <- Hb2 in Hrange.
  rewrite Hr1 in Hr, Hw. simpl in Hr, Hw. rewrite Hr2 in Hr, Hw. simpl in Hr, Hw.
  rewrite wrap64_small in Hr, Hw by lia.
  set (fr1 := mkFrame f (pin_count_ fr + 1) (is_dirty_ fr) (data_ fr)) in *.
  set (b1 := mkBPM _ _ _ _ _ _ _) in *.
  assert (frame_at f (frames_ b1) = Ok fr1) as Hfr1.
  { unfold b1. simpl. by eapply frame_at_set_eq. }
  destruct (Drop_pinned p f fr1 b1 Hfr1) as [Hdr Hdw]; [simpl; lia|].
  cbv zeta in Hdr, Hdw. simpl in Hdr, Hdw.
  replace (pin_count_ fr + 1 - 1) with (pin_count_ fr) in Hdr, Hdw by lia.
  rewrite set_frame_twice in Hdr, Hdw.
  assert (set_frame f (mkFrame f (pin_count_ fr) (is_dirty_ fr) (data_ fr))
            (frames_ b) = set_frame f fr (frames_ b)) as Hsame.
  { by rewrite <- Hid, frame_eta. }
  rewrite Hsame in Hdr, Hdw.
  destruct (Z.eqb_spec (pin_count_ fr) 0) as [Hz|Hnz].
  - destruct (SetEvictable_ok f true r2 Hrange) as [r3 Hr3].
    rewrite Hr3 in Hdr, Hdw. simpl in Hdr, Hdw.
    apply SetEvictable_true_inv in Hr3 as (_ & _ & _ & _ & _ & Hev3 & _).
    eexists _, _, _, _. split; [exact Hr|]. split; [exact Hw|].
    split; [exact Hdr|]. split; [exact Hdw|]. split; [done|]. simpl.
    split; [by eapply frame_at_set_eq|]. split.
    + unfold BPM.GetPinCount. simpl. rewrite Hpt.
      by rewrite (frame_at_set_eq _ _ _ _ Hfr).
    + by rewrite Hev3.
  - eexists _, _, _, _. split; [exact Hr|]. split; [exact Hw|].
    split; [exact Hdr|]. split; [exact Hdw|]. split; [done|]. simpl.
    split; [by eapply frame_at_set_eq|]. split; [|done].
    unfold BPM.GetPinCount. simpl. rewrite Hpt.
    by rewrite (frame_at_set_eq _ _ _ _ Hfr).
Qed.

Lemma fetch_then_drop_witness :
  ∃ b1 g b2 g',
    BPM.CheckedReadPage 0 Unknown PoolExamples.pool_with_page_0 = Ok (b1, Some g) ∧
    ReadPageGuard.Drop g b1 = Ok (g', b2) ∧
    BPM.GetPinCount 0 b2 = Ok (Some 0) ∧ is_ev 0 (replacer_ b2) = true.
Proof.
  destruct (fetch_then_drop Unknown 0 0 (new_frame 0)
              PoolExamples.pool_with_page_0 pool_with_page_0_consistent
              ltac:(discriminate) eq_refl eq_refl)
    as (b1 & g & b2 & g' & Hr & _ & Hd & _ & _ & _ & Hpin & Hev).
  exists b1, g, b2, g'. split; [exact Hr|]. split; [exact Hd|].
  split; [exact Hpin|exact Hev].
Defined.

(** X10.  Bytes stored through a write guard are read back.  In a
    consistent pool, take a write guard on a resident page, store [bytes]
    at the start of its buffer, drop the guard and fetch the page again for
    reading: every step returns, the read guard shows [bytes] followed by
    the rest of the old contents, and the frame's dirty flag is what it was
    before the store: [GetDataMut] does not set it. *)
Theorem write_then_read_back (t t' : AccessType) (p f : Z) (fr : FrameHeader)
    (bytes : list Z) (b : BufferPoolManager) :
  consistent b → p ≠ INVALID_PAGE_ID →
  page_table_ b !! p = Some f → frame_at f (frames_ b) = Ok fr →
  (length bytes ≤ length (data_ fr))%nat →
  ∃ b1 g b2 g' b3 b4 h,
    BPM.CheckedWritePage p t b = Ok (b1, Some g) ∧
    WritePageGuard.GetDataMut_store g bytes b1 = Ok b2 ∧
    WritePageGuard.Drop g b2 = Ok (g', b3) ∧
    BPM.CheckedReadPage p t' b3 = Ok (b4, Some h) ∧
    ReadPageGuard.GetData h b4 = Ok (bytes ++ drop (length bytes) (data_ fr)) ∧
    ReadPageGuard.IsDirty h b4 = Ok (is_dirty_ fr).
Proof.
  intros Hc Hp Hpt Hfr Hlen.
  destruct (Checked_resident_eq t p f fr b Hp Hpt Hfr) as [_ Hw].
  pose proof (frame_at_id _ _ _ Hc Hfr) as Hid.
  destruct (frame_at_pin_range _ _ _ Hc Hfr) as [Hp0 Hp1].
  pose proof (frame_in_range _ _ _ Hc Hfr) as Hrange.
  pose proof (wf_k _ (c_replacer b Hc)) as Hk0.
  rewrite Hid in Hw.
  destruct (touch_returns f _ Hrange ltac:(lia)) as (r1 & Hr1 & Hb1 & Hkr1 & _).
  rewrite <- Hb1 in Hrange.
  destruct (touch_returns f _ Hrange ltac:(lia)) as (r2 & Hr2 & Hb2 & Hkr2 & _).
  rewrite <- Hb2 in Hrange.
  rewrite Hr1 in Hw. simpl in Hw. rewrite Hr2 in Hw. simpl in Hw.
  rewrite wrap64_small in Hw by lia.
  set (data' := bytes ++ drop (length bytes) (data_ fr)).
  set (b1 := mkBPM _ _ _ _ _ _ _) in Hw.
  set (fr2 := mkFrame f (pin_count_ fr + 1) (is_dirty_ fr) data').
  set (b2 := with_frames b1 (set_frame f fr2 (frames_ b))).
  assert (WritePageGuard.GetDataMut_store (mkGuard p (Some f) true true true)
            bytes b1 = Ok b2) as Hstore.
  { unfold WritePageGuard.GetDataMut_store, deref_frame, b1. simpl.
    rewrite (frame_at_set_eq _ _ _ _ Hfr). simpl.
    assert ((length (data_ fr) <? length bytes)%nat = false) as ->
      by (apply Nat.ltb_ge; lia).
    unfold b2, b1, with_frames. simpl. by rewrite set_frame_twice. }
  assert (frame_at f (frames_ b2) = Ok fr2) as Hfr2.
  { unfold b2. simpl. by eapply frame_at_set_eq. }
  destruct (Drop_pinned p f fr2 b2 Hfr2) as [_ Hdw]; [simpl; lia|].
  cbv zeta in Hdw. simpl in Hdw.
  replace (pin_count_ fr + 1 - 1) with (pin_count_ fr) in Hdw by lia.
  rewrite set_frame_twice in Hdw.
  set (fr3 := mkFrame f (pin_count_ fr) (is_dirty_ fr) data') in *.
  assert (∃ r3, (replacer_size_ r3 = replacer_size_ r2 ∧ k_ r3 = k_ r2) ∧
            WritePageGuard.Drop (mkGuard p (Some f) true true true) b2
            = Ok (mkGuard p None false false false,
                  mkBPM (num_frames_ b) (next_page_id_ b)
                        (set_frame f fr3 (frames_ b)) (page_table_ b)
                        (free_frames_ b) r3 (disk_scheduler_ b)))
    as (r3 & [Hb3 Hkr3] & Hdrop).
  { rewrite Hdw. destruct (pin_count_ fr =? 0).
    - destruct (SetEvictable_ok f true r2 Hrange) as [r3 Hr3]. rewrite Hr3.
      apply SetEvictable_true_inv in Hr3 as (_ & _ & Hb3 & Hkr3 & _).
      by exists r3.
    - by exists r2. }
  set (b3 := mkBPM _ _ _ _ _ r3 _) in Hdrop.
  assert (frame_at f (frames_ b3) = Ok fr3) as Hfr3.
  { unfold b3. simpl. by eapply frame_at_set_eq. }
  destruct (Checked_resident_eq t' p f fr3 b3 Hp Hpt Hfr3) as [Hr _].
  cbv zeta in Hr. simpl in Hr.
  rewrite <- Hb3 in Hrange.
  destruct (touch_returns f _ Hrange ltac:(lia)) as (r4 & Hr4 & Hb4 & Hkr4 & _).
  rewrite <- Hb4 in Hrange.
  destruct (touch_returns f _ Hrange ltac:(lia)) as (r5 & Hr5 & _).
  rewrite Hr4 in Hr. simpl in Hr. rewrite Hr5 in Hr. simpl in Hr.
  eexists _, _, _, _, _, _, _.
  split; [exact Hw|]. split; [exact Hstore|]. split; [exact Hdrop|].
  split; [exact Hr|].
  unfold ReadPageGuard.GetData, ReadPageGuard.IsDirty, deref_frame. simpl.
  rewrite set_frame_twice, (frame_at_set_eq _ _ _ _ Hfr). done.
Qed.

Lemma write_then_read_back_witness :
  ∃ b1 g b2 g' b3 b4 h,
    BPM.CheckedWritePage 0 Unknown PoolExamples.pool_with_page_0 = Ok (b1, Some g) ∧
    WritePageGuard.GetDataMut_store g [1; 2; 3] b1 = Ok b2 ∧
    WritePageGuard.Drop g b2 = Ok (g', b3) ∧
    BPM.CheckedReadPage 0 Unknown b3 = Ok (b4, Some h) ∧
    ReadPageGuard.GetData h b4
      = Ok ([1; 2; 3] ++ drop 3 (data_ (new_frame 0))) ∧
    ReadPageGuard.IsDirty h b4 = Ok false.
Proof.
  apply (write_then_read_back Unknown Unknown 0 0 (new_frame 0) [1; 2; 3]
           PoolExamples.pool_with_page_0 pool_with_page_0_consistent
           ltac:(discriminate) eq_refl eq_refl).
  unfold new_frame, Reset. cbn [data_]. rewrite !length_replicate.
  unfold BUSTUB_PAGE_SIZE. cbn [length]. lia.
Defined.

(** ** Flushing *)

(** X11.  [FlushPage].  For the sentinel identifier the assertion fails.
    For a page that is not resident the answer is false and nothing
    changes.  For a resident page the frame's bytes are written to disk
    under the page's identifier: afterwards the disk holds exactly these
    bytes for the page and what it held for every other page, the frame's
    dirty flag is clear, and pin count, contents, page table, free list and
    replacer are as before. *)
Theorem FlushPage_spec (p : Z) (b : BufferPoolManager) :
  BPM.FlushPage INVALID_PAGE_ID b = Fault AssertionFailure ∧
  (p ≠ INVALID_PAGE_ID → page_table_ b !! p = None →
   BPM.FlushPage p b = Ok (b, false)) ∧
  (∀ f fr, p ≠ INVALID_PAGE_ID →
     page_table_ b !! p = Some f → frame_at f (frames_ b) = Ok fr →
     ∃ b', BPM.FlushPage p b = Ok (b', true) ∧
       pages_ (disk_scheduler_ b') !! p = Some (data_ fr) ∧
       (∀ q, q ≠ p → pages_ (disk_scheduler_ b') !! q
                     = pages_ (disk_scheduler_ b) !! q) ∧
       log_ (disk_scheduler_ b')
         = log_ (disk_scheduler_ b) ++ [EvWrite p (data_ fr)] ∧
       frame_at f (frames_ b')
         = Ok (mkFrame (frame_id_ fr) (pin_count_ fr) false (data_ fr)) ∧
       page_table_ b' = page_table_ b ∧ free_frames_ b' = free_frames_ b ∧
       replacer_ b' = replacer_ b).
Proof.
  split; [done|]. split.
  - intros Hp%Z.eqb_neq Hpt. unfold BPM.FlushPage. by rewrite Hp, Hpt.
  - intros f fr Hp%Z.eqb_neq Hpt Hfr. unfold BPM.FlushPage.
    rewrite Hp, Hpt, Hfr. simpl. eexists. split; [reflexivity|]. simpl.
    split; [apply lookup_insert_eq|]. split.
    { intros q Hq. by apply lookup_insert_ne. }
    split; [done|]. split; [by eapply frame_at_set_eq|done].
Qed.


(** The frame found at an index after another index, or the same, has been
    flushed. *)
Lemma frame_at_flushed i j fr frj frames :
  frame_at i frames = Ok fr → frame_at j frames = Ok frj →
  ∃ frj', frame_at j (set_frame i (mkFrame (frame_id_ fr) (pin_count_ fr) false
                                          (data_ fr)) frames) = Ok frj' ∧
          frame_id_ frj' = frame_id_ frj ∧ pin_count_ frj' = pin_count_ frj ∧
          data_ frj' = data_ frj ∧
          (is_dirty_ frj = false ∨ j = i → is_dirty_ frj' = false).
Proof.
  intros Hi Hj. destruct (decide (i = j)) as [->|Hne].
  - rewrite Hi in Hj. injection Hj as ->.
    eexists. split; [by eapply frame_at_set_eq|]. done.
  - exists frj. apply frame_at_Ok in Hi as Hi'. destruct Hi' as [Hi0 _].
    rewrite frame_at_set_ne by (done || lia). split; [done|].
    repeat split. intros [?|?]; [done|congruence].
Qed.

(** The loop of [FlushAllPages] over any list of entries with distinct
    page identifiers, none of them the sentinel, whose frames exist. *)
Lemma flush_entries_spec (l : list (Z * Z)) :
  ∀ b, NoDup l.*1 →
    (∀ p i, (p, i) ∈ l → p ≠ INVALID_PAGE_ID ∧ ∃ fr, frame_at i (frames_ b) = Ok fr) →
    ∃ b', BPM.flush_entries l b = Ok b' ∧
      num_frames_ b' = num_frames_ b ∧ next_page_id_ b' = next_page_id_ b ∧
      page_table_ b' = page_table_ b ∧ free_frames_ b' = free_frames_ b ∧
      replacer_ b' = replacer_ b ∧
      (∀ j frj, frame_at j (frames_ b) = Ok frj →
         ∃ frj', frame_at j (frames_ b') = Ok frj' ∧
           frame_id_ frj' = frame_id_ frj ∧ pin_count_ frj' = pin_count_ frj ∧
           data_ frj' = data_ frj ∧
           (is_dirty_ frj = false ∨ (∃ p, (p, j) ∈ l) → is_dirty_ frj' = false)) ∧
      (∀ p i fr, (p, i) ∈ l → frame_at i (frames_ b) = Ok fr →
         pages_ (disk_scheduler_ b') !! p = Some (data_ fr)) ∧
      (∀ q, q ∉ l.*1 → pages_ (disk_scheduler_ b') !! q
                       = pages_ (disk_scheduler_ b) !! q).
Proof.
  induction l as [|[p i] l IH]; intros b Hnd Hok;
    [simpl|rewrite fmap_cons in Hnd; cbn [BPM.flush_entries]].
  - exists b. repeat split; try done.
    + intros j frj Hj. exists frj. repeat split; try done.
      intros [?|[q Hq]]; [done|]. by apply elem_of_nil in Hq.
    + intros q j fr Hq. by apply elem_of_nil in Hq.
  - apply NoDup_cons in Hnd as [Hp Hnd]. simpl in Hp.
    destruct (Hok p i) as (Hpne & fr & Hfr); [apply elem_of_cons; by left|].
    assert (BPM.flush_entry (p, i) b
            = Ok (mkBPM (num_frames_ b) (next_page_id_ b)
                    (set_frame i (mkFrame (frame_id_ fr) (pin_count_ fr) false
                                          (data_ fr)) (frames_ b))
                    (page_table_ b) (free_frames_ b) (replacer_ b)
                    (mkDisk (<[p := data_ fr]> (pages_ (disk_scheduler_ b)))
                            (log_ (disk_scheduler_ b) ++ [EvWrite p (data_ fr)]))))
      as Hstep.
    { unfold BPM.flush_entry. apply Z.eqb_neq in Hpne. rewrite Hpne, Hfr. done. }
    rewrite Hstep. simpl. set (b1 := mkBPM _ _ _ _ _ _ _).
    destruct (IH b1 Hnd) as (b' & Hb' & Hn & Hnext & Hpt & Hfree & Hrep
                             & Hframes & Hdisk & Hother).
    { intros q j Hin. destruct (Hok q j) as (Hq & frj & Hfrj);
        [apply elem_of_cons; by right|].
      split; [done|].
      destruct (frame_at_flushed _ _ _ _ _ Hfr Hfrj) as (frj' & Hj' & _).
      by exists frj'. }
    exists b'. split; [done|]. repeat split; try done.
    + intros j frj Hj.
      destruct (frame_at_flushed _ _ _ _ _ Hfr Hj)
        as (frj1 & Hj1 & Hid1 & Hpin1 & Hdata1 & Hdirty1).
      destruct (Hframes j frj1 Hj1) as (frj' & Hj' & Hid' & Hpin' & Hdata' & Hdirty').
      exists frj'. split; [done|]. repeat split; try congruence.
      intros [Hcl|[q Hq]].
      * apply Hdirty'. left. apply Hdirty1. by left.
      * apply elem_of_cons in Hq as [[= -> ->]|Hq].
        -- apply Hdirty'. left. apply Hdirty1. by right.
        -- apply Hdirty'. right. by exists q.
    + intros q j frj [[= -> ->]|Hin]%elem_of_cons Hj.
      * rewrite Hother by done. simpl. rewrite Hfr in Hj. injection Hj as <-.
        apply lookup_insert_eq.
      * destruct (frame_at_flushed _ _ _ _ _ Hfr Hj) as (frj1 & Hj1 & _ & _ & Hd1 & _).
        rewrite (Hdisk q j frj1 Hin Hj1). by rewrite Hd1.
    + intros q Hq. apply not_elem_of_cons in Hq as [Hqp Hq].
      rewrite (Hother q Hq). simpl. by apply lookup_insert_ne.
Qed.


(** X12.  [FlushAllPages].  When every entry of the page table names a
    frame of the pool and the sentinel is not a key, the call returns;
    afterwards the disk holds, for every resident page, the bytes of its
    frame, and what it held before for every other page; no frame has
    changed its contents or pin count, the frames named by the page table
    are not dirty, and page table, free list and replacer are as
    before. *)
Theorem FlushAllPages_spec (b : BufferPoolManager) :
  table_in_range b → page_table_ b !! INVALID_PAGE_ID = None →
  ∃ b', BPM.FlushAllPages b = Ok b' ∧
    (∀ p i fr, page_table_ b !! p = Some i → frame_at i (frames_ b) = Ok fr →
       pages_ (disk_scheduler_ b') !! p = Some (data_ fr)) ∧
    (∀ q, page_table_ b !! q = None →
       pages_ (disk_scheduler_ b') !! q = pages_ (disk_scheduler_ b) !! q) ∧
    (∀ j frj, frame_at j (frames_ b) = Ok frj →
       ∃ frj', frame_at j (frames_ b') = Ok frj' ∧
         pin_count_ frj' = pin_count_ frj ∧ data_ frj' = data_ frj ∧
         ((∃ p, page_table_ b !! p = Some j) → is_dirty_ frj' = false)) ∧
    page_table_ b' = page_table_ b ∧ free_frames_ b' = free_frames_ b ∧
    replacer_ b' = replacer_ b.
Proof.
  intros Hrange Hinv. unfold BPM.FlushAllPages.
  destruct (flush_entries_spec (map_to_list (page_table_ b)) b)
    as (b' & Hb' & _ & _ & Hpt & Hfree & Hrep & Hframes & Hdisk & Hother).
  { apply NoDup_fst_map_to_list. }
  { intros p i Hin%elem_of_map_to_list. split; [congruence|]. by eapply Hrange. }
  exists b'. split; [done|]. split.
  { intros p i fr Hp. apply Hdisk. by apply elem_of_map_to_list. }
  split.
  { intros q Hq. apply Hother. intros ([q' i] & -> & Hin)%list_elem_of_fmap.
    apply elem_of_map_to_list in Hin. simpl in Hq. congruence. }
  split; [|done].
  intros j frj Hj. destruct (Hframes j frj Hj) as (frj' & Hj' & _ & Hpin & Hdata & Hd).
  exists frj'. split; [done|]. split; [done|]. split; [done|].
  intros [p Hp]. apply Hd. right. exists p. by apply elem_of_map_to_list.
Qed.

Lemma FlushAllPages_spec_witness :
  ∃ b', BPM.FlushAllPages PoolExamples.pool_with_page_0 = Ok b' ∧
        pages_ (disk_scheduler_ b') !! 0 = Some (data_ (new_frame 0)).
Proof.
  destruct (FlushAllPages_spec PoolExamples.pool_with_page_0)
    as (b' & Hb' & Hdisk & _).
  - intros p i Hp. simpl in Hp.
    apply lookup_singleton_Some in Hp as [<- <-]. by eexists.
  - reflexivity.
  - exists b'. split; [exact Hb'|]. by apply (Hdisk 0 0).
Defined.

(** ** [NewPage] and [DeletePage] *)


(** X13.  [NewPage], when a frame can be had.  In a consistent pool whose
    free list is not empty or whose replacer holds an evictable frame,
    [NewPage] returns the value of the page counter and advances the counter
    by one; [IncreaseDiskSpace] has been called with the new identifier and
    nothing has been written to or read from disk.  Unless the identifier
    was already a key of the page table, the page is now resident in a frame
    filled with zeros, and its pin count is 0: the new page is not pinned,
    while its frame is tracked as not evictable. *)
Theorem NewPage_spec (b : BufferPoolManager) :
  consistent b →
  free_frames_ b ≠ [] ∨ count_evictable (node_store_ (replacer_ b)) ≠ 0 →
  ∃ b' i,
    BPM.NewPage b = Ok (b', next_page_id_ b) ∧
    next_page_id_ b' = wrap_int (next_page_id_ b + 1) ∧
    disk_scheduler_ b'
      = IncreaseDiskSpace (next_page_id_ b) (disk_scheduler_ b) ∧
    (head (free_frames_ b) = Some i ∨
     free_frames_ b = [] ∧ (Evict (replacer_ b)).2 = Some i) ∧
    free_frames_ b' = tail (free_frames_ b) ∧
    is_ev i (replacer_ b') = false ∧ tracked i (replacer_ b') = true ∧
    (∃ fr, frame_at i (frames_ b) = Ok fr ∧
           frame_at i (frames_ b')
           = Ok (mkFrame i 0 false (replicate (length (data_ fr)) 0))) ∧
    (page_table_ b !! next_page_id_ b = None →
     page_table_ b' !! next_page_id_ b = Some i ∧
     BPM.GetPinCount (next_page_id_ b) b' = Ok (Some 0)).
Proof.
  intros Hc Hsome. pose proof (c_replacer b Hc) as Hwf.
  assert (∃ i fr rest repl,
            (free_frames_ b = i :: rest ∧ repl = replacer_ b ∨
             free_frames_ b = [] ∧ rest = [] ∧
             Evict (replacer_ b) = (repl, Some i)) ∧
            frame_at i (frames_ b) = Ok fr ∧
            replacer_size_ repl = replacer_size_ (replacer_ b))
    as (i & fr & rest & repl & Hwhich & Hfr & Hsize).
  { destruct (free_frames_ b) as [|i rest] eqn:Hfree.
    - destruct Hsome as [?|Hcnt]; [done|].
      destruct (Evict_shape _ Hwf) as [[H0 _]|(v & node & _ & Ef & Hnode & Hev)];
        [done|].
      assert (is_ev v (replacer_ b) = true) as Hisev
        by (unfold is_ev; by rewrite Ef).
      destruct (c_tracked b Hc v (is_ev_tracked _ _ Hisev)) as (f & Hf & _).
      eexists v, f, [], _. split; [right; by rewrite Hev|]. done.
    - destruct (free_frame_facts b i Hc) as (_ & f & Hf & _).
      { rewrite Hfree. apply elem_of_cons; by left. }
      exists i, f, rest, (replacer_ b). split; [by left|]. done. }
  pose proof (frame_at_id _ _ _ Hc Hfr) as Hid.
  pose proof (frame_in_range _ _ _ Hc Hfr) as Hrange.
  pose proof (wf_k _ (c_replacer b Hc)) as Hk0. rewrite <- Hsize in Hrange.
  assert (k_ repl = k_ (replacer_ b)) as Hkrepl.
  { destruct Hwhich as [[_ ->]|(_ & _ & Hev)]; [done|].
    pose proof (Evict_k (replacer_ b)) as Hk. by rewrite Hev in Hk. }
  destruct (touch_returns i repl Hrange ltac:(lia))
    as (r' & Hr' & _ & _ & _ & Hev & Htr & _).
  assert (BPM.NewPage b
          = Ok (mkBPM (num_frames_ b) (wrap_int (next_page_id_ b + 1))
                  (set_frame i (Reset fr) (frames_ b))
                  (emplace (next_page_id_ b) i (delete i (page_table_ b)))
                  rest r'
                  (IncreaseDiskSpace (next_page_id_ b) (disk_scheduler_ b)),
                next_page_id_ b)) as Hnew.
  { unfold BPM.NewPage. unfold touch in Hr'.
    destruct Hwhich as [[-> ->]|(-> & -> & ->)]; simpl; rewrite Hfr; simpl;
      rewrite Hid; by destruct (RecordAccess i Unknown _) as [r0|]; simpl in *;
      [rewrite Hr'|]. }
  eexists _, i. split; [exact Hnew|]. simpl. split; [done|]. split; [done|].
  split.
  { destruct Hwhich as [[-> _]|(-> & _ & ->)]; [by left|by right]. }
  split.
  { by destruct Hwhich as [[-> _]|(-> & -> & _)]. }
  split; [done|]. split; [done|]. split.
  { exists fr. split; [done|]. rewrite (frame_at_set_eq _ _ _ _ Hfr).
    unfold Reset. by rewrite Hid. }
  intros Hpt.
  assert (emplace (next_page_id_ b) i (delete i (page_table_ b))
            !! next_page_id_ b = Some i) as Hin.
  { apply emplace_lookup.
    destruct (decide (i = next_page_id_ b)) as [->|Hne];
      [apply lookup_delete_eq|by rewrite lookup_delete_ne]. }
  split; [done|]. unfold BPM.GetPinCount. simpl. rewrite Hin.
  by rewrite (frame_at_set_eq _ _ _ _ Hfr).
Qed.

Lemma NewPage_spec_witness :
  ∃ b' i,
    BPM.NewPage PoolExamples.pool_of_two = Ok (b', 0) ∧
    page_table_ b' !! 0 = Some i ∧ BPM.GetPinCount 0 b' = Ok (Some 0).
Proof.
  destruct (NewPage_spec PoolExamples.pool_of_two)
    as (b' & i & Hnew & _ & _ & _ & _ & _ & _ & _ & Hres).
  - apply consistent_init; lia.
  - left. discriminate.
  - destruct (Hres eq_refl) as [Hpt Hpin].
    exists b', i. split; [exact Hnew|]. split; [exact Hpt|exact Hpin].
Defined.

(** X14.  [DeletePage], case by case.  The sentinel: true, nothing is done,
    not even the call of [DeallocatePage].  A page that is not resident:
    true, and only [DeallocatePage] is called.  A resident page whose frame
    is pinned: false, nothing changes.  A resident page whose frame is
    unpinned but tracked as not evictable (as [NewPage] leaves it): the
    assertion of [Remove] fails.  A resident page whose frame is unpinned
    and evictable, or not tracked: true; the page leaves the page table,
    the frame is zeroed, joins the end of the free list and leaves the
    replacer, and [DeallocatePage] is called. *)
Theorem DeletePage_cases (p : Z) (b : BufferPoolManager) :
  BPM.DeletePage INVALID_PAGE_ID b = Ok (b, true) ∧
  (p ≠ INVALID_PAGE_ID → page_table_ b !! p = None →
   BPM.DeletePage p b
   = Ok (with_disk b (DeallocatePage p (disk_scheduler_ b)), true)) ∧
  (∀ f fr, p ≠ INVALID_PAGE_ID →
     page_table_ b !! p = Some f → frame_at f (frames_ b) = Ok fr →
     (0 < pin_count_ fr → BPM.DeletePage p b = Ok (b, false)) ∧
     (pin_count_ fr ≤ 0 → tracked f (replacer_ b) = true →
      is_ev f (replacer_ b) = false →
      BPM.DeletePage p b = Fault AssertionFailure) ∧
     (pin_count_ fr ≤ 0 →
      tracked f (replacer_ b) = false ∨ is_ev f (replacer_ b) = true →
      ∃ b', BPM.DeletePage p b = Ok (b', true) ∧
        page_table_ b' = delete p (page_table_ b) ∧
        BPM.GetPinCount p b' = Ok None ∧
        free_frames_ b' = free_frames_ b ++ [f] ∧
        tracked f (replacer_ b') = false ∧
        frame_at f (frames_ b')
        = Ok (mkFrame (frame_id_ fr) 0 false (replicate (length (data_ fr)) 0)) ∧
        log_ (disk_scheduler_ b')
        = log_ (disk_scheduler_ b) ++ [EvDeallocatePage p])).
Proof.
  split; [done|]. split.
  { intros Hp%Z.eqb_neq Hpt. unfold BPM.DeletePage. by rewrite Hp, Hpt. }
  intros f fr Hp Hpt Hfr. split; [|split].
  - intros Hpin. by eapply DeletePage_pinned.
  - intros Hpin Htr Hev. unfold BPM.DeletePage. apply Z.eqb_neq in Hp.
    rewrite Hp, Hpt, Hfr. simpl.
    assert ((pin_count_ fr >? 0) = false) as ->.
    { destruct (Z.gtb_spec (pin_count_ fr) 0); [lia|done]. }
    unfold Remove, tracked, is_ev in *.
    destruct (store_find f (node_store_ (replacer_ b))); [|done].
    by rewrite Hev.
  - intros Hpin Hrep.
    destruct (DeletePage_unpinned p f fr b Hp Hpt Hfr Hpin Hrep)
      as (b' & Hb' & Hpt' & Hfree & Htr & Hfr' & Hlog).
    exists b'. split; [done|]. split; [done|]. split; [|done].
    unfold BPM.GetPinCount. rewrite Hpt'. by rewrite lookup_delete_eq.
Qed.

(** ** Invariants of the pool *)









(** ** What a fetch costs in the replacer *)

(** X17.  How many accesses a fetch records.  In a consistent pool, a
    successful [CheckedReadPage] or [CheckedWritePage] of a resident page
    advances the replacer's timestamp by 2, and [ReadPage] or [WritePage]
    by 3: the constructor of the guard and every move of the guard record
    an access of their own.  The access type passed to the pool plays no
    part, [Scan] included. *)
Theorem fetch_records_accesses (t : AccessType) (p f : Z) (fr : FrameHeader)
    (b : BufferPoolManager) :
  consistent b → p ≠ INVALID_PAGE_ID →
  page_table_ b !! p = Some f → frame_at f (frames_ b) = Ok fr →
  current_timestamp_ (replacer_ b) + 3 < 2 ^ 64 →
  (∃ b1 g, BPM.CheckedReadPage p t b = Ok (b1, Some g) ∧
           BPM.CheckedWritePage p t b = Ok (b1, Some g) ∧
           current_timestamp_ (replacer_ b1)
           = current_timestamp_ (replacer_ b) + 2) ∧
  (∃ b2 g, BPM.ReadPage p t b = Ok (b2, g) ∧ BPM.WritePage p t b = Ok (b2, g) ∧
           is_valid_ g = true ∧ frame_ g = Some f ∧
           current_timestamp_ (replacer_ b2)
           = current_timestamp_ (replacer_ b) + 3).
Proof.
  intros Hc Hp Hpt Hfr Hts.
  destruct (Checked_resident_eq t p f fr b Hp Hpt Hfr) as [Hr Hw].
  pose proof (frame_at_id _ _ _ Hc Hfr) as Hid.
  pose proof (frame_in_range _ _ _ Hc Hfr) as Hrange.
  pose proof (wf_k _ (c_replacer b Hc)) as Hk0.
  pose proof (wf_now _ (c_replacer b Hc)) as Hnow.
  rewrite Hid in Hr, Hw.
  destruct (touch_returns f _ Hrange ltac:(lia)) as (r1 & Hr1 & Hb1 & Hkr1 & Hts1 & _).
  rewrite <- Hb1 in Hrange.
  destruct (touch_returns f _ Hrange ltac:(lia)) as (r2 & Hr2 & Hb2 & Hkr2 & Hts2 & _).
  rewrite <- Hb2 in Hrange.
  destruct (touch_returns f _ Hrange ltac:(lia)) as (r3 & Hr3 & _ & _ & Hts3 & _).
  rewrite wrap64_small in Hts1 by lia. rewrite Hts1, wrap64_small in Hts2 by lia.
  rewrite Hts2, wrap64_small in Hts3 by lia.
  rewrite Hr1 in Hr, Hw. simpl in Hr, Hw. rewrite Hr2 in Hr, Hw. simpl in Hr, Hw.
  split.
  - eexists _, _. split; [exact Hr|]. split; [exact Hw|]. simpl. lia.
  - set (fr1 := mkFrame f (wrap64 (pin_count_ fr + 1)) (is_dirty_ fr) (data_ fr)) in *.
    assert (frame_at f (set_frame f fr1 (frames_ b)) = Ok fr1) as Hfr1
      by (by eapply frame_at_set_eq).
    exists (mkBPM (num_frames_ b) (next_page_id_ b) (set_frame f fr1 (frames_ b))
              (page_table_ b) (free_frames_ b) r3 (disk_scheduler_ b)),
           (mkGuard p (Some f) true true true).
    split; [|split].
    + unfold BPM.ReadPage. rewrite Hr. simpl.
      unfold ReadPageGuard.move_ctor, deref_frame. simpl. rewrite Hfr1. simpl.
      rewrite touch_replacer_eq by done. simpl. rewrite Hr3. done.
    + unfold BPM.WritePage. rewrite Hw. simpl.
      unfold WritePageGuard.move_ctor, deref_frame. simpl. rewrite Hfr1. simpl.
      rewrite touch_replacer_eq by done. simpl. rewrite Hr3. done.
    + simpl. split; [done|]. split; [done|]. lia.
Qed.

Lemma fetch_records_accesses_witness :
  ∃ b2 g, BPM.ReadPage 0 Scan PoolExamples.pool_with_page_0 = Ok (b2, g) ∧
          current_timestamp_ (replacer_ b2) = 1 + 3.
Proof.
  destruct (fetch_records_accesses Scan 0 0 (new_frame 0)
              PoolExamples.pool_with_page_0 pool_with_page_0_consistent
              ltac:(discriminate) eq_refl eq_refl ltac:(by vm_compute))
    as [_ (b2 & g & Hr & _ & _ & _ & Hts)].
  exists b2, g. split; [exact Hr|exact Hts].
Defined.

(** ** Guards *)

(** X18.  [Drop] is idempotent.  Whatever a drop of a read or write guard
    returns, dropping the guard again returns the same guard and the same
    pool.  This covers the guard that has just been released (it is
    invalid), and the valid guard whose drop returned early because the
    frame's pin count was already zero (it is left as it was). *)
Theorem Drop_idempotent (g g' : PageGuard) (b b' : BufferPoolManager) :
  (ReadPageGuard.Drop g b = Ok (g', b') →
   ReadPageGuard.Drop g' b' = Ok (g', b')) ∧
  (WritePageGuard.Drop g b = Ok (g', b') →
   WritePageGuard.Drop g' b' = Ok (g', b')).
Proof.
  split; intros H.
  - unfold ReadPageGuard.Drop in H.
    destruct (is_valid_ g) eqn:Hv; simpl in H.
    2:{ injection H as <- <-. unfold ReadPageGuard.Drop. by rewrite Hv. }
    destruct (frame_ g) as [i|] eqn:Hfg.
    2:{ by injection H as <- <-. }
    destruct (frame_at i (frames_ b)) as [a|] eqn:E; simpl in H; [|done].
    destruct (pin_count_ a <=? 0) eqn:Hle.
    + injection H as <- <-. unfold ReadPageGuard.Drop.
      rewrite Hv, Hfg, E. simpl. by rewrite Hle.
    + bind_step H. by injection H as <- <-.
  - unfold WritePageGuard.Drop in H.
    destruct (is_valid_ g) eqn:Hv; simpl in H.
    2:{ injection H as <- <-. unfold WritePageGuard.Drop. by rewrite Hv. }
    destruct (deref_frame g b) as [[i a]|] eqn:E; simpl in H; [|done].
    destruct (pin_count_ a =? 0) eqn:Hz.
    + injection H as <- <-. unfold WritePageGuard.Drop.
      rewrite Hv, E. simpl. by rewrite Hz.
    + bind_step H. by injection H as <- <-.
Qed.

(** X19.  Assigning to a guard that is in use.  Let [this] be a valid guard
    on frame [i], whose pin count is positive, and [that] a valid guard on
    another frame [j].  [ReadPageGuard::operator=] first drops [this]: the
    pin count of frame [i] goes down by one.  [WritePageGuard::operator=]
    does not: every frame keeps its pin count, and after the assignment
    neither guard refers to frame [i], so the pin that [this] held can no
    longer be released.  In both cases [this] ends as a valid guard on
    [that]'s page and frame, and [that] ends invalid. *)
Theorem move_assign_over_valid_guard (p q i j : Z) (fi fj : FrameHeader)
    (b : BufferPoolManager) :
  consistent b → i ≠ j →
  frame_at i (frames_ b) = Ok fi → frame_at j (frames_ b) = Ok fj →
  1 < pin_count_ fi →
  let this := mkGuard p (Some i) true true true in
  let that := mkGuard q (Some j) true true true in
  (∃ that' b',
     ReadPageGuard.move_assign this that b = Ok (that, that', b') ∧
     is_valid_ that' = false ∧ frame_ that' = None ∧
     (∃ fi', frame_at i (frames_ b') = Ok fi' ∧
             pin_count_ fi' = pin_count_ fi - 1) ∧
     frame_at j (frames_ b') = Ok fj) ∧
  (∃ that' b',
     WritePageGuard.move_assign this that b = Ok (that, that', b') ∧
     is_valid_ that' = false ∧ frame_ that' = None ∧
     frames_ b' = frames_ b).
Proof.
  intros Hc Hij Hfi Hfj Hpin. cbv zeta.
  pose proof (frame_at_id _ _ _ Hc Hfj) as Hidj.
  pose proof (frame_in_range _ _ _ Hc Hfj) as Hrange.
  pose proof (wf_k _ (c_replacer b Hc)) as Hk0.
  destruct (frame_at_pin_range _ _ _ Hc Hfi) as [_ Hp1].
  destruct (touch_returns j _ Hrange ltac:(lia)) as (r1 & Hr1 & _).
  split.
  - destruct (Drop_pinned p i fi b Hfi) as [Hd _]; [lia|].
    cbv zeta in Hd.
    assert ((pin_count_ fi - 1 =? 0) = false) as Hnz by (apply Z.eqb_neq; lia).
    rewrite Hnz in Hd. simpl in Hd.
    unfold ReadPageGuard.move_assign. rewrite Hd. simpl.
    unfold deref_frame. simpl.
    apply frame_at_Ok in Hfi as Hi'. destruct Hi' as [Hi0 _].
    rewrite frame_at_set_ne by done. rewrite Hfj. simpl.
    rewrite touch_replacer_eq by done. simpl. rewrite Hidj, Hr1. simpl.
    eexists _, _. split; [reflexivity|]. simpl. split; [done|]. split; [done|].
    split.
    + eexists. split; [by eapply frame_at_set_eq|done].
    + by rewrite frame_at_set_ne.
  - unfold WritePageGuard.move_assign, deref_frame. simpl. rewrite Hfj. simpl.
    rewrite touch_replacer_eq by done. simpl. rewrite Hidj, Hr1. simpl.
    eexists _, _. split; [reflexivity|]. done.
Qed.

Lemma pool_two_pages_fetched_reached :
  PoolExamples.two_pages_fetched = Ok PoolExamples.pool_two_pages_fetched.
Proof. vm_compute. reflexivity. Qed.

Lemma pool_two_pages_fetched_consistent :
  consistent PoolExamples.pool_two_pages_fetched.
Proof.
  unfold PoolExamples.pool_two_pages_fetched.
  set (d := replicate BUSTUB_PAGE_SIZE 0).
  split; cbn [replacer_ num_frames_ frames_ free_frames_ page_table_].
  - split; simpl; try lia.
    + repeat (apply Forall_cons; split); try apply Forall_nil;
        unfold node_ok; simpl; repeat split; try lia;
        repeat (apply Forall_cons; split); try apply Forall_nil; lia.
    + repeat apply NoDup_cons_2; try apply NoDup_nil_2;
        rewrite ?elem_of_cons, ?elem_of_nil; lia.
  - reflexivity.
  - reflexivity.
  - simpl. lia.
  - intros [|[|n]] f; simpl; intros [= <-]; simpl; lia.
  - apply NoDup_nil_2.
  - intros i Hi. by apply elem_of_nil in Hi.
  - intros i. unfold tracked, is_ev. cbn [node_store_ store_find].
    destruct (Z.eqb_spec 1 i) as [<-|_].
    { intros _. exists (mkFrame 1 1 false d). split; [reflexivity|intros ?; discriminate]. }
    destruct (Z.eqb_spec 0 i) as [<-|_]; [|intros ?; discriminate].
    intros _. exists (mkFrame 0 2 false d). split; [reflexivity|intros ?; discriminate].
Qed.

Lemma move_assign_over_valid_guard_witness :
  (∃ that' b',
     ReadPageGuard.move_assign (mkGuard 0 (Some 0) true true true)
       (mkGuard 1 (Some 1) true true true) PoolExamples.pool_two_pages_fetched
     = Ok (mkGuard 1 (Some 1) true true true, that', b') ∧
     ∃ fi', frame_at 0 (frames_ b') = Ok fi' ∧ pin_count_ fi' = 2 - 1) ∧
  (∃ that' b',
     WritePageGuard.move_assign (mkGuard 0 (Some 0) true true true)
       (mkGuard 1 (Some 1) true true true) PoolExamples.pool_two_pages_fetched
     = Ok (mkGuard 1 (Some 1) true true true, that', b') ∧
     frames_ b' = frames_ PoolExamples.pool_two_pages_fetched).
Proof.
  destruct (move_assign_over_valid_guard 0 1 0 1
              (mkFrame 0 2 false (replicate BUSTUB_PAGE_SIZE 0))
              (mkFrame 1 1 false (replicate BUSTUB_PAGE_SIZE 0))
              PoolExamples.pool_two_pages_fetched
              pool_two_pages_fetched_consistent ltac:(lia) eq_refl eq_refl
              ltac:(simpl; lia))
    as [(that1 & b1 & Hr & _ & _ & Hfi & _) (that2 & b2 & Hw & _ & _ & Hfr)].
  split.
  - exists that1, b1. split; [exact Hr|exact Hfi].
  - exists that2, b2. split; [exact Hw|exact Hfr].
Defined.

(** ** The frame [Evict] gives up when a free frame is at hand *)

Lemma touch_other i r r' g :
  touch i r = Ok r' → g ≠ i →
  store_find g (node_store_ r') = store_find g (node_store_ r).
Proof. intros H Hg. apply touch_inv in H as (_ & _ & _ & _ & _ & _ & Ho). by apply Ho. Qed.

(** X20.  [CheckedReadPage] and [CheckedWritePage] call [Evict] before they
    look at the free list.  In a consistent pool without dirty frames, when
    a page that is not resident is fetched while the free list is not empty
    and the replacer holds an evictable frame, the page gets the head of the
    free list, and the frame [Evict] returned loses its entry in the
    replacer all the same: afterwards that frame is not tracked, is not on
    the free list and is not pinned, and the page table is as before for
    every page but the one fetched and the page whose identifier is the
    number of the frame taken ([page_table_.erase(newpage->frame_id_)]), so
    that a page held by that frame can stay mapped to it. *)
Theorem Checked_absent_forgets_victim (t : AccessType) (p v : Z)
    (b : BufferPoolManager) :
  consistent b → clean b → p ≠ INVALID_PAGE_ID → page_table_ b !! p = None →
  free_frames_ b ≠ [] → snd (Evict (replacer_ b)) = Some v →
  ∃ b' i,
    BPM.CheckedReadPage p t b = Ok (b', Some (mkGuard p (Some i) true true true)) ∧
    BPM.CheckedWritePage p t b = Ok (b', Some (mkGuard p (Some i) true true true)) ∧
    head (free_frames_ b) = Some i ∧ i ≠ v ∧
    is_ev v (replacer_ b) = true ∧
    tracked v (replacer_ b') = false ∧
    (v ∉ free_frames_ b') ∧
    (∃ fv, frame_at v (frames_ b) = Ok fv ∧ frame_at v (frames_ b') = Ok fv ∧
           pin_count_ fv = 0) ∧
    (∀ q, q ≠ p → q ≠ i → page_table_ b' !! q = page_table_ b !! q).
Proof.
  intros Hc Hcl Hp Hpt Hfree Hev.
  pose proof (c_replacer b Hc) as Hwf.
  destruct (Evict_shape _ Hwf) as [[_ Hev']|(v' & node & _ & Ef & Hnode & Hev')];
    rewrite Hev' in Hev; [done|]. injection Hev as ->.
  assert (is_ev v (replacer_ b) = true) as Hisev by (unfold is_ev; by rewrite Ef).
  destruct (c_tracked b Hc v (is_ev_tracked _ _ Hisev)) as (fv & Hfv & Hpin).
  specialize (Hpin Hisev).
  destruct (free_frames_ b) as [|i rest] eqn:Hfl; [done|].
  destruct (free_frame_facts b i Hc) as (Hiev & fi & Hfi & Hid & _).
  { rewrite Hfl. apply elem_of_cons; by left. }
  assert (i ≠ v) as Hiv by (intros ->; congruence).
  assert (v ∉ rest) as Hvrest.
  { intros Hin. destruct (c_free b Hc v) as [Hn _]; [|congruence].
    rewrite Hfl. apply elem_of_cons; by right. }
  apply Z.eqb_neq in Hp as Hp'.
  unfold BPM.CheckedReadPage, BPM.CheckedWritePage, BPM.acquire_frame.
  rewrite Hp', Hpt, Hev', Hfl.
  set (b0 := mkBPM _ _ _ _ rest _ _).
  destruct (into_frame_eq p i fi b0 Hfi (clean_frame _ _ _ Hcl Hfi)) as [Hr Hw].
  rewrite Hr, Hw, Hid. clear Hr Hw.
  assert ((wrap64 i <=? replacer_size_ (replacer_ b0)) = true) as Hrange
    by exact (frame_in_range _ _ _ Hc Hfi).
  assert (1 ≤ k_ (replacer_ b0)) as Hk0.
  { pose proof (Evict_k (replacer_ b)) as Hk. rewrite Hev' in Hk.
    unfold b0. cbn [replacer_ fst] in *. rewrite Hk. apply (wf_k _ Hwf). }
  destruct (touch_returns i (replacer_ b0) Hrange ltac:(lia))
    as (r1 & Hr1 & Hb1 & Hkr1 & _).
  rewrite <- Hb1 in Hrange.
  destruct (touch_returns i r1 Hrange ltac:(lia)) as (r2 & Hr2 & Hb2 & Hkr2 & _).
  rewrite <- Hb2 in Hrange.
  destruct (touch_returns i r2 Hrange ltac:(lia)) as (r3 & Hr3 & _).
  rewrite Hr1. simpl. rewrite Hr2. simpl. rewrite Hr3. simpl.
  eexists _, i. split; [reflexivity|]. split; [reflexivity|].
  split; [done|]. split; [done|]. split; [done|]. simpl. split.
  { unfold tracked.
    rewrite (touch_other _ _ _ v Hr3), (touch_other _ _ _ v Hr2),
      (touch_other _ _ _ v Hr1) by done.
    simpl. by rewrite store_find_erase_eq. }
  split; [done|]. split.
  { exists fv. split; [done|]. split; [|done].
    apply frame_at_Ok in Hfi as [Hi0 _]. by rewrite frame_at_set_ne. }
  intros q Hqp Hqi. unfold emplace.
  destruct (delete i (page_table_ b) !! p);
    rewrite ?lookup_insert_ne by done; by rewrite lookup_delete_ne.
Qed.

Lemma pool_one_free_one_evictable_reached :
  PoolExamples.one_free_one_evictable
  = Ok PoolExamples.pool_one_free_one_evictable.
Proof. vm_compute. reflexivity. Qed.

Lemma pool_one_free_one_evictable_consistent :
  consistent PoolExamples.pool_one_free_one_evictable.
Proof.
  unfold PoolExamples.pool_one_free_one_evictable.
  split; cbn [replacer_ num_frames_ frames_ free_frames_ page_table_].
  - split; simpl; try lia.
    + repeat (apply Forall_cons; split); try apply Forall_nil;
        unfold node_ok; simpl; repeat split; try lia;
        repeat (apply Forall_cons; split); try apply Forall_nil; lia.
    + repeat apply NoDup_cons_2; try apply NoDup_nil_2;
        rewrite ?elem_of_cons, ?elem_of_nil; lia.
  - reflexivity.
  - reflexivity.
  - simpl. lia.
  - intros [|[|n]] f; cbn [lookup list_lookup]; intros [= <-];
      unfold new_frame, Reset; cbn [frame_id_ pin_count_]; lia.
  - apply NoDup_singleton.
  - intros i Hi%list_elem_of_singleton. subst i. split; [reflexivity|].
    exists (new_frame 1). split; reflexivity.
  - intros i. unfold tracked, is_ev. cbn [node_store_ store_find].
    destruct (Z.eqb_spec 0 i) as [<-|_]; [|intros ?; discriminate].
    intros _. exists (new_frame 0). split; reflexivity.
Qed.

Lemma Checked_absent_forgets_victim_witness :
  ∃ b' i,
    BPM.CheckedReadPage 7 Unknown PoolExamples.pool_one_free_one_evictable
      = Ok (b', Some (mkGuard 7 (Some i) true true true)) ∧
    head (free_frames_ PoolExamples.pool_one_free_one_evictable) = Some i ∧
    tracked 0 (replacer_ b') = false ∧ (0 ∉ free_frames_ b') ∧
    page_table_ b' !! 0 = Some 0.
Proof.
  destruct (Checked_absent_forgets_victim Unknown 7 0
              PoolExamples.pool_one_free_one_evictable
              pool_one_free_one_evictable_consistent)
    as (b' & i & Hr & _ & Hhead & Hi & _ & Htr & Hfree & _ & Hpt).
  - unfold clean. cbn [frames_ PoolExamples.pool_one_free_one_evictable].
    repeat (apply Forall_cons; split; [reflexivity|]). apply Forall_nil_2.
  - discriminate.
  - reflexivity.
  - discriminate.
  - reflexivity.
  - exists b', i. split; [exact Hr|]. split; [exact Hhead|].
    split; [exact Htr|]. split; [exact Hfree|].
    rewrite (Hpt 0); [reflexivity|discriminate|]. intros <-. by apply Hi.
Defined.

End PoolMore.

(** * The trie *)

Section TrieFacts.
Import Trie.
Context {type_id : Type} `{EqDecision type_id} {value : Type}.
Abbreviation TrieNode := (TrieNode type_id value).
Abbreviation Trie := (Trie type_id value).

Implicit Types (n m : TrieNode) (key k : list Z) (t : Trie).

Lemma Clone_id n : Clone n = n.
Proof. destruct n as [ch [[T v]|]]; done. Qed.

Lemma no_children_empty n : no_children n = true ↔ children_ n = ∅.
Proof.
  unfold no_children. split.
  - destruct (map_to_list (children_ n)) eqn:E; [|done].
    intros _. by apply map_to_list_empty_iff.
  - intros ->. by rewrite map_to_list_empty.
Qed.

(** Below the first character only the children of a node matter. *)
Lemma walk_children k n m :
  k ≠ [] → children_ n = children_ m → walk k n = walk k m.
Proof. destruct k as [|c k]; [done|]. simpl. by intros _ ->. Qed.

Lemma walk_no_children k n :
  k ≠ [] → children_ n = ∅ → walk k n = None.
Proof. destruct k as [|c k]; [done|]. simpl. intros _ ->. by rewrite lookup_empty. Qed.

Lemma Get_get_below T k n :
  k ≠ [] → Get T k (mkTrie (Some n)) = Ok (get_below T k n).
Proof.
  intros Hk. unfold Get, get_below. simpl.
  destruct (walk k n); [|done]. by destruct k.
Qed.

Lemma get_below_children T k n m :
  k ≠ [] → children_ n = children_ m → get_below T k n = get_below T k m.
Proof. intros Hk Hc. unfold get_below. by rewrite (walk_children k n m). Qed.

Lemma get_below_no_children T k n :
  k ≠ [] → children_ n = ∅ → get_below T k n = None.
Proof. intros Hk Hc. unfold get_below. by rewrite walk_no_children. Qed.

Lemma get_below_cons T c k n :
  get_below T (c :: k) n =
  match children_ n !! c with
  | Some (Some child) => get_below T k child
  | _ => None
  end.
Proof. unfold get_below. simpl. by destruct (children_ n !! c) as [[?|]|]. Qed.

(** ** [Put] *)

Lemma put_path_last T c v n :
  put_path T [c] v n =
  match children_ n !! c with
  | None => Ok (set_child c (value_node T ∅ v) n)
  | Some None => Fault NullPointer
  | Some (Some child) => Ok (set_child c (value_node T (children_ child) v) n)
  end.
Proof. done. Qed.

Lemma put_path_step T c d rest v n :
  put_path T (c :: d :: rest) v n =
  (new_node ← match children_ n !! c with
              | None => Ok (plain_node ∅)
              | Some None => Fault NullPointer
              | Some (Some child) => Ok (Clone child)
              end;
   new_node ← put_path T (d :: rest) v new_node;
   Ok (set_child c new_node n)).
Proof. done. Qed.

Lemma put_path_returns T key v n :
  key ≠ [] → path_clear key n = true → ∃ n', put_path T key v n = Ok n'.
Proof.
  revert n. induction key as [|c rest IH]; intros n Hk Hclear; [done|].
  destruct rest as [|d rest].
  - rewrite put_path_last. simpl in Hclear.
    destruct (children_ n !! c) as [[child|]|]; try done; by eexists.
  - rewrite put_path_step. cbn [path_clear] in Hclear.
    destruct (children_ n !! c) as [[child|]|] eqn:Hc; try done; cbn [mbind result_bind].
    + destruct (IH (Clone child)) as [n' Hn']; [done| |].
      { by rewrite Clone_id. }
      rewrite Hn'. by eexists.
    + destruct (IH (plain_node ∅)) as [n' Hn']; [done| |].
      { simpl. by rewrite lookup_empty. }
      rewrite Hn'. by eexists.
Qed.

Lemma put_path_clear T key v n n' :
  put_path T key v n = Ok n' → key ≠ [] ∧ path_clear key n = true.
Proof.
  revert n n'. induction key as [|c rest IH]; intros n n' H; [done|].
  split; [done|]. destruct rest as [|d rest].
  - rewrite put_path_last in H. simpl.
    by destruct (children_ n !! c) as [[child|]|].
  - rewrite put_path_step in H. cbn [path_clear].
    destruct (children_ n !! c) as [[child|]|] eqn:Hc; try done;
      cbn [mbind result_bind] in H.
    destruct (put_path T (d :: rest) v (Clone child)) as [m|] eqn:E; [|done].
    apply IH in E as [_ E]. by rewrite Clone_id in E.
Qed.

(** What [put_path] returns: the node it was given, with one child
    replaced. *)
Lemma put_path_shape T c rest v n n' :
  put_path T (c :: rest) v n = Ok n' →
  ∃ new_node, n' = set_child c new_node n ∧
    match rest with
    | [] => value_ new_node = Some (T, v) ∧
            match children_ n !! c with
            | Some (Some child) => children_ new_node = children_ child
            | _ => children_ new_node = ∅
            end
    | _ :: _ =>
        ∃ start, put_path T rest v start = Ok new_node ∧
          match children_ n !! c with
          | Some (Some child) => start = child
          | _ => start = plain_node ∅
          end
    end.
Proof.
  intros H. destruct rest as [|d rest].
  - rewrite put_path_last in H.
    destruct (children_ n !! c) as [[child|]|]; try done; injection H as <-;
      eexists; split; done.
  - rewrite put_path_step in H.
    destruct (children_ n !! c) as [[child|]|] eqn:Hc; try done;
      cbn [mbind result_bind] in H.
    + destruct (put_path T (d :: rest) v (Clone child)) as [m|] eqn:E; [|done].
      injection H as <-. exists m. split; [done|]. exists child.
      by rewrite Clone_id in E.
    + destruct (put_path T (d :: rest) v (plain_node ∅)) as [m|] eqn:E; [|done].
      injection H as <-. exists m. split; [done|]. by exists (plain_node ∅).
Qed.

Lemma value_as_value T n m : value_ n = value_ m → value_as T n = value_as T m.
Proof. unfold value_as, is_value_node_. by intros ->. Qed.

Lemma put_path_get_same T key v n n' :
  put_path T key v n = Ok n' →
  get_below T key n' = Some v ∧ ∀ T', T' ≠ T → get_below T' key n' = None.
Proof.
  revert n n'. induction key as [|c rest IH]; intros n n' H; [done|].
  apply put_path_shape in H as (new_node & -> & Hnew).
  assert (∀ T', get_below T' (c :: rest) (set_child c new_node n)
                = get_below T' rest new_node) as Hcons.
  { intros T'. rewrite get_below_cons. simpl. by rewrite lookup_insert_eq. }
  destruct rest as [|d rest].
  - destruct Hnew as [Hv _]. split.
    + rewrite Hcons. unfold get_below, value_as, is_value_node_. simpl.
      rewrite Hv. by rewrite decide_True.
    + intros T' HT. rewrite Hcons. unfold get_below, value_as, is_value_node_.
      simpl. rewrite Hv. by rewrite decide_False.
  - destruct Hnew as (start & Hput & _). destruct (IH _ _ Hput) as [Hsame Hother].
    split; [by rewrite Hcons|]. intros T' HT. rewrite Hcons. by apply Hother.
Qed.

Lemma put_path_get_other T T' key v n n' k :
  put_path T key v n = Ok n' → k ≠ key →
  get_below T' k n' = get_below T' k n.
Proof.
  revert n n' k. induction key as [|c rest IH]; intros n n' k H Hk; [done|].
  apply put_path_shape in H as (new_node & -> & Hnew).
  destruct k as [|d k]; [done|].
  rewrite !get_below_cons. simpl.
  destruct (decide (d = c)) as [->|Hdc]; [|by rewrite lookup_insert_ne].
  rewrite lookup_insert_eq.
  assert (k ≠ rest) as Hk' by congruence.
  destruct rest as [|e rest].
  - destruct Hnew as [_ Hch].
    destruct (children_ n !! c) as [[child|]|] eqn:Hc.
    + by apply get_below_children.
    + by apply get_below_no_children.
    + by apply get_below_no_children.
  - destruct Hnew as (start & Hput & Hstart).
    rewrite (IH _ _ k Hput Hk').
    apply put_path_clear in Hput as Hcl. 
    destruct (children_ n !! c) as [[child|]|] eqn:Hc; subst start; try done.
    + destruct k as [|f k]; [done|]. by apply get_below_no_children.
    + destruct k as [|f k]; [done|]. by apply get_below_no_children.
Qed.

(** ** [Remove] *)

Lemma walk_stack_walk key n st :
  walk_stack key n st = None ∧ walk key n = None ∨
  ∃ stack cur, walk_stack key n st = Some (stack, cur) ∧ walk key n = Some cur.
Proof.
  revert n st. induction key as [|c rest IH]; intros n st; simpl.
  - right. by eexists _, _.
  - destruct (children_ n !! c) as [[child|]|]; [apply IH|by left..].
Qed.

(** The second loop of [Remove] computes [removed_below]. *)
Lemma rebuild_removed key n st stack cur rk :
  walk_stack key n st = Some (stack, cur) →
  rebuild (rev key ++ rk) stack (plain_node (children_ cur))
  = rebuild rk st (removed_below key n).
Proof.
  revert n st rk. induction key as [|c rest IH]; intros n st rk H; simpl in H.
  - by injection H as <- <-.
  - destruct (children_ n !! c) as [[child|]|] eqn:Hc; try done.
    change (rev (c :: rest)) with (rev rest ++ [c]).
    rewrite <- app_assoc. simpl app.
    rewrite (IH _ _ (c :: rk) H). simpl. by rewrite Hc.
Qed.

Lemma get_below_leaf T k m :
  no_children m = true → is_value_node_ m = false → get_below T k m = None.
Proof.
  intros Hc%no_children_empty Hv. destruct k as [|c k].
  - unfold get_below, value_as. simpl. by rewrite Hv.
  - by apply get_below_no_children.
Qed.

Lemma removed_below_value c rest n :
  value_ (removed_below (c :: rest) n) = value_ n.
Proof.
  simpl. destruct (children_ n !! c) as [[child|]|]; try done.
  rewrite Clone_id. by destruct (_ && _).
Qed.

Lemma removed_below_get_same T key n cur :
  key ≠ [] → walk key n = Some cur →
  get_below T key (removed_below key n) = None.
Proof.
  revert n. induction key as [|c rest IH]; intros n Hk Hw; [done|].
  simpl in Hw. rewrite get_below_cons. simpl.
  destruct (children_ n !! c) as [[child|]|] eqn:Hc; try done.
  rewrite Clone_id.
  destruct (no_children (removed_below rest child)
            && negb (is_value_node_ (removed_below rest child))) eqn:Hprune; simpl.
  - by rewrite lookup_delete_eq.
  - rewrite lookup_insert_eq. destruct rest as [|d rest].
    + unfold get_below, value_as. done.
    + by apply IH.
Qed.

Lemma removed_below_get_other T key n cur k :
  walk key n = Some cur → k ≠ key →
  get_below T k (removed_below key n) = get_below T k n.
Proof.
  revert n k. induction key as [|c rest IH]; intros n k Hw Hk.
  - simpl. by apply get_below_children.
  - destruct k as [|d k].
    { unfold get_below. simpl walk. apply value_as_value, removed_below_value. }
    simpl in Hw. rewrite !get_below_cons. simpl.
    destruct (children_ n !! c) as [[child|]|] eqn:Hc; try done.
    rewrite Clone_id.
    assert (d ≠ c ∨ d = c ∧ k ≠ rest) as [Hdc|[-> Hk']].
    { destruct (decide (d = c)) as [->|?]; [right|by left].
      split; [done|]. congruence. }
    + destruct (_ && _); simpl;
        [by rewrite lookup_delete_ne|by rewrite lookup_insert_ne].
    + rewrite Hc.
      destruct (no_children (removed_below rest child)
                && negb (is_value_node_ (removed_below rest child))) eqn:Hprune;
        simpl.
      * rewrite lookup_delete_eq. apply andb_true_iff in Hprune as [H1 H2].
        apply negb_true_iff in H2.
        rewrite <- (IH child k Hw Hk'). symmetry. by apply get_below_leaf.
      * rewrite lookup_insert_eq. by apply IH.
Qed.

(** [Remove], in terms of [removed_below]. *)
Lemma Remove_eq key n :
  key ≠ [] →
  Remove key (mkTrie (Some n)) =
  match walk key n with
  | None => Ok (mkTrie (Some n))
  | Some cur =>
      if negb (is_value_node_ cur) then Ok (mkTrie (Some n))
      else if no_children (removed_below key n) then Ok (mkTrie None)
           else Ok (mkTrie (Some (removed_below key n)))
  end.
Proof.
  intros Hk. unfold Remove. simpl.
  destruct (walk_stack_walk key n []) as [[-> ->]|(stack & cur & Hs & ->)]; [done|].
  rewrite Hs. destruct key as [|c rest]; [done|].
  destruct (negb (is_value_node_ cur)); [done|].
  pose proof (rebuild_removed _ _ _ _ _ [] Hs) as Hr.
  rewrite app_nil_r in Hr. rewrite Hr. done.
Qed.

(** ** The three functions together *)

Lemma Get_empty_trie T k : Get T k (mkTrie None : Trie) = Ok None.
Proof. done. Qed.

(** [Put] returns on a non-empty key with no null child on its way. *)
Lemma Put_returns T key v t :
  key ≠ [] →
  (∀ root, root_ t = Some root → path_clear key root = true) →
  ∃ n', put_path T key v (match root_ t with
                          | Some root => Clone root
                          | None => plain_node ∅
                          end) = Ok n' ∧
        Put T key v t = Ok (mkTrie (Some n')).
Proof.
  intros Hk Hclear. unfold Put.
  set (new_root := match root_ t with Some root => Clone root | None => plain_node ∅ end).
  assert (path_clear key new_root = true) as Hc.
  { unfold new_root. destruct (root_ t) as [root|] eqn:Hr.
    - rewrite Clone_id. by apply Hclear.
    - destruct key as [|c key]; [done|]. simpl. by rewrite lookup_empty. }
  destruct (put_path_returns T key v new_root Hk Hc) as [n' Hn']. rewrite Hn'.
  by exists n'.
Qed.

(** [Remove] returns on every non-empty key. *)
Lemma Remove_returns key t : key ≠ [] → ∃ t', Remove key t = Ok t'.
Proof.
  intros Hk. destruct t as [[n|]]; [|by eexists].
  rewrite Remove_eq by done.
  destruct (walk key n) as [cur|]; [|by eexists].
  destruct (negb (is_value_node_ cur)); [by eexists|].
  destruct (no_children (removed_below key n)); by eexists.
Qed.

(** X21.  A value that has been put is found.  For a non-empty key with no
    null child on its way, [Put<T>] returns a trie in which [Get<T>] of the
    key finds the value, and [Get] at any other type finds nothing. *)
Theorem Put_then_Get (T : type_id) (key : list Z) (v : value) (t : Trie) :
  key ≠ [] →
  (∀ root, root_ t = Some root → path_clear key root = true) →
  ∃ t', Put T key v t = Ok t' ∧
        Get T key t' = Ok (Some v) ∧
        ∀ T', T' ≠ T → Get T' key t' = Ok None.
Proof.
  intros Hk Hclear.
  destruct (Put_returns T key v t Hk Hclear) as (n' & Hn' & HP).
  eexists. split; [exact HP|].
  destruct (put_path_get_same _ _ _ _ _ Hn') as [Hs Ho].
  split.
  - by rewrite Get_get_below, Hs.
  - intros T' HT. by rewrite Get_get_below, Ho.
Qed.

(** X22.  [Put] leaves every other key alone.  Whenever [Put] of a key
    returns, [Get], at any type, of any other non-empty key gives in the new
    trie what it gives in the old one: keys that are prefixes or extensions
    of the key put are included. *)
Theorem Put_keeps_other_keys (T T' : type_id) (key k : list Z) (v : value)
    (t t' : Trie) :
  Put T key v t = Ok t' → k ≠ [] → k ≠ key →
  Get T' k t' = Get T' k t.
Proof.
  unfold Put. intros H Hk Hne. bind_step H. injection H as <-.
  rewrite Get_get_below by done.
  rewrite (put_path_get_other _ T' _ _ _ _ k E Hne).
  destruct t as [[root|]]; simpl.
  - rewrite Clone_id. by rewrite Get_get_below.
  - rewrite Get_empty_trie. f_equal. by apply get_below_no_children.
Qed.

(** X23.  [Remove].  For every trie and every non-empty key, [Remove]
    returns a trie in which [Get] of the key finds nothing, at any type,
    and in which [Get] of any other non-empty key gives what it gave
    before; pruning the nodes left without value and children loses no
    other key.  If the key held no value, the trie returned is the trie
    given. *)
Theorem Remove_then_Get (key : list Z) (t : Trie) :
  key ≠ [] →
  ∃ t', Remove key t = Ok t' ∧
        (∀ T, Get T key t' = Ok None) ∧
        (∀ T k, k ≠ [] → k ≠ key → Get T k t' = Get T k t) ∧
        ((∀ T, Get T key t = Ok None) → t' = t).
Proof.
  intros Hk. destruct t as [[n|]].
  2:{ exists (mkTrie None). done. }
  rewrite Remove_eq by done.
  destruct (walk key n) as [cur|] eqn:Hw.
  2:{ exists (mkTrie (Some n)). split; [done|]. split; [|done].
      intros T. rewrite Get_get_below by done. unfold get_below. by rewrite Hw. }
  destruct (is_value_node_ cur) eqn:Hv; simpl.
  2:{ exists (mkTrie (Some n)). split; [done|]. split; [|done].
      intros T. rewrite Get_get_below by done. unfold get_below, value_as.
      by rewrite Hw, Hv. }
  assert (¬ ∀ T, Get T key (mkTrie (Some n)) = Ok None) as Hhas.
  { intros Hnone. unfold is_value_node_ in Hv.
    destruct (value_ cur) as [[T0 v0]|] eqn:Hval; [|done].
    specialize (Hnone T0). rewrite Get_get_below in Hnone by done.
    unfold get_below, value_as, is_value_node_ in Hnone.
    rewrite Hw, Hval in Hnone. simpl in Hnone. by rewrite decide_True in Hnone. }
  destruct (no_children (removed_below key n)) eqn:Hnc.
  - exists (mkTrie None). split; [done|]. split; [done|]. split; [|done].
    intros T k Hk' Hne. rewrite Get_empty_trie, Get_get_below by done. f_equal.
    rewrite <- (removed_below_get_other T key n cur k Hw Hne). symmetry.
    apply get_below_no_children; [done|]. by apply no_children_empty.
  - exists (mkTrie (Some (removed_below key n))). split; [done|].
    split; [|split; [|done]].
    + intros T. rewrite Get_get_below by done. f_equal.
      by eapply removed_below_get_same.
    + intros T k Hk' Hne. rewrite !Get_get_below by done. f_equal.
      by eapply removed_below_get_other.
Qed.

(** ** Tries built by [Put] and [Remove] have no null child *)

Lemma null_free_inv (ch : gmap Z (option TrieNode)) val :
  null_free (mkTrieNode ch val) →
  ∀ c o, ch !! c = Some o → ∃ n, o = Some n ∧ null_free n.
Proof. by inversion 1. Qed.

Lemma null_free_children n :
  null_free n → ∀ c o, children_ n !! c = Some o → ∃ n', o = Some n' ∧ null_free n'.
Proof. destruct n as [ch val]. apply null_free_inv. Qed.

Lemma null_free_intro n :
  (∀ c o, children_ n !! c = Some o → ∃ n', o = Some n' ∧ null_free n') →
  null_free n.
Proof. destruct n as [ch val]. simpl. by constructor. Qed.

Lemma null_free_plain (ch : gmap Z (option TrieNode)) val val' :
  null_free (mkTrieNode ch val) → null_free (mkTrieNode ch val').
Proof. intros H. constructor. exact (null_free_inv _ _ H). Qed.

Lemma null_free_set c child n :
  null_free n → null_free child → null_free (set_child c child n).
Proof.
  intros Hn Hc. apply null_free_intro. simpl. intros d m.
  destruct (decide (c = d)) as [->|Hne].
  - rewrite lookup_insert_eq. intros [= <-]. by eexists.
  - rewrite lookup_insert_ne by done. by apply null_free_children.
Qed.

Lemma null_free_erase c n : null_free n → null_free (erase_child c n).
Proof.
  intros Hn. apply null_free_intro. simpl. intros d m.
  destruct (decide (c = d)) as [->|Hne].
  - by rewrite lookup_delete_eq.
  - rewrite lookup_delete_ne by done. by apply null_free_children.
Qed.

Lemma null_free_empty val : null_free (mkTrieNode ∅ val : TrieNode).
Proof. constructor. intros c m. by rewrite lookup_empty. Qed.

Lemma null_free_path_clear key n : null_free n → path_clear key n = true.
Proof.
  revert n. induction key as [|c rest IH]; intros n Hn; [done|]. simpl.
  destruct (children_ n !! c) as [m|] eqn:Hc; [|done].
  destruct (null_free_children _ Hn _ _ Hc) as (n' & -> & Hn'). by apply IH.
Qed.

Lemma null_free_put T key v n n' :
  null_free n → put_path T key v n = Ok n' → null_free n'.
Proof.
  revert n n'. induction key as [|c rest IH]; intros n n' Hn H; [done|].
  apply put_path_shape in H as (new_node & -> & Hnew).
  apply null_free_set; [done|]. destruct rest as [|d rest].
  - destruct Hnew as [_ Hch]. apply null_free_intro.
    destruct (children_ n !! c) as [[child|]|] eqn:Hc; rewrite Hch;
      try (intros e m; by rewrite lookup_empty).
    destruct (null_free_children _ Hn _ _ Hc) as (n' & [= <-] & Hn').
    by apply null_free_children.
  - destruct Hnew as (start & Hput & Hstart). apply (IH start); [|done].
    destruct (children_ n !! c) as [[child|]|] eqn:Hc; subst start;
      try apply null_free_empty.
    by destruct (null_free_children _ Hn _ _ Hc) as (n' & [= <-] & Hn').
Qed.

Lemma null_free_removed key n : null_free n → null_free (removed_below key n).
Proof.
  revert n. induction key as [|c rest IH]; intros n Hn; simpl.
  - destruct n as [ch val]. by eapply null_free_plain.
  - destruct (children_ n !! c) as [[child|]|] eqn:Hc; try done.
    destruct (null_free_children _ Hn _ _ Hc) as (n' & [= <-] & Hn').
    rewrite Clone_id. destruct (_ && _).
    + by apply null_free_erase.
    + apply null_free_set; [done|]. by apply IH.
Qed.

Lemma built_null_free t root : built t → root_ t = Some root → null_free root.
Proof.
  intros Hb. revert root. induction Hb as [|T key v t t' Hb IH H|key t t' Hb IH H];
    intros root Hr; [done| |].
  - unfold Put in H. bind_step H. injection H as <-. injection Hr as <-.
    eapply null_free_put; [|exact E].
    destruct (root_ t) as [r|]; [|apply null_free_empty].
    rewrite Clone_id. by apply IH.
  - destruct key as [|c rest].
    { unfold Remove in H. destruct (root_ t); [done|]. by injection H as <-. }
    destruct t as [[n|]]; [|by injection H as <-].
    rewrite Remove_eq in H by done.
    destruct (walk (c :: rest) n) as [cur|]; [|injection H as <-; apply IH; congruence].
    destruct (negb (is_value_node_ cur)); [injection H as <-; apply IH; congruence|].
    destruct (no_children _); injection H as <-; [done|].
    injection Hr as <-. apply (null_free_removed (c :: rest)). by apply IH.
Qed.

(** X24.  On a trie built from the empty trie by [Put] and [Remove], the
    three functions return for every non-empty key: the null checks of
    [Get] and [Remove] never fire and [Put] never dereferences a null
    child, because no node of such a trie has a null child. *)
Theorem built_trie_total (T : type_id) (key : list Z) (v : value) (t : Trie) :
  built t → key ≠ [] →
  (∃ r, Get T key t = Ok r) ∧
  (∃ t', Put T key v t = Ok t' ∧ built t') ∧
  (∃ t', Remove key t = Ok t' ∧ built t').
Proof.
  intros Hb Hk. split; [|split].
  - unfold Get. destruct (root_ t) as [root|]; [|by eexists].
    destruct (walk key root); [|by eexists]. destruct key; [done|by eexists].
  - destruct (Put_returns T key v t Hk) as (n' & _ & Ht').
    { intros root Hr. apply null_free_path_clear. by eapply built_null_free. }
    eexists. split; [exact Ht'|]. by eapply built_Put.
  - destruct (Remove_returns key t Hk) as (t' & Ht').
    exists t'. split; [done|]. by eapply built_Remove.
Qed.

(** ** Tries built by [Put] and [Remove] have no useless node *)

Lemma node_eta n : mkTrieNode (children_ n) (value_ n) = n.
Proof. by destruct n. Qed.

Lemma compact_below_children n :
  compact_below n →
  ∀ c m, children_ n !! c = Some (Some m) →
         (is_value_node_ m = true ∨ no_children m = false) ∧ compact_below m.
Proof. destruct n as [ch val]. by inversion 1. Qed.

Lemma compact_below_intro n :
  (∀ c m, children_ n !! c = Some (Some m) →
          (is_value_node_ m = true ∨ no_children m = false) ∧ compact_below m) →
  compact_below n.
Proof. destruct n as [ch val]. simpl. by constructor. Qed.

Lemma compact_below_same_children n m :
  children_ n = children_ m → compact_below n → compact_below m.
Proof.
  intros Hc Hn. apply compact_below_intro. rewrite <- Hc.
  by apply compact_below_children.
Qed.

Lemma compact_below_no_children n : children_ n = ∅ → compact_below n.
Proof.
  intros Hc. apply compact_below_intro. rewrite Hc. intros c m.
  by rewrite lookup_empty.
Qed.

Lemma no_children_set c child n : no_children (set_child c child n) = false.
Proof.
  destruct (no_children _) eqn:E; [|done].
  apply no_children_empty in E. simpl in E.
  by apply insert_non_empty in E.
Qed.

Lemma compact_below_set c child n :
  compact_below n → compact_below child →
  is_value_node_ child = true ∨ no_children child = false →
  compact_below (set_child c child n).
Proof.
  intros Hn Hc Hkeep. apply compact_below_intro. simpl. intros d m.
  destruct (decide (c = d)) as [->|Hne].
  - rewrite lookup_insert_eq. by intros [= <-].
  - rewrite lookup_insert_ne by done. by apply compact_below_children.
Qed.

Lemma compact_below_erase c n : compact_below n → compact_below (erase_child c n).
Proof.
  intros Hn. apply compact_below_intro. simpl. intros d m.
  destruct (decide (c = d)) as [->|Hne].
  - by rewrite lookup_delete_eq.
  - rewrite lookup_delete_ne by done. by apply compact_below_children.
Qed.

Lemma compact_below_put T key v n n' :
  compact_below n → put_path T key v n = Ok n' →
  compact_below n' ∧ no_children n' = false.
Proof.
  revert n n'. induction key as [|c rest IH]; intros n n' Hn H; [done|].
  apply put_path_shape in H as (new_node & -> & Hnew).
  split; [|apply no_children_set].
  destruct rest as [|d rest].
  - destruct Hnew as [Hv Hch]. apply compact_below_set; [done| |].
    + destruct (children_ n !! c) as [[child|]|] eqn:Hc;
        try by apply compact_below_no_children.
      apply (compact_below_same_children child); [done|].
      by apply (compact_below_children _ Hn c).
    + left. unfold is_value_node_. by rewrite Hv.
  - destruct Hnew as (start & Hput & Hstart).
    destruct (IH start new_node) as [Hc Hnc]; [|done|].
    { destruct (children_ n !! c) as [[child|]|] eqn:Hc; subst start;
        try by apply compact_below_no_children.
      by apply (compact_below_children _ Hn c). }
    apply compact_below_set; [done..|by right].
Qed.

Lemma compact_below_removed key n :
  compact_below n → compact_below (removed_below key n).
Proof.
  revert n. induction key as [|c rest IH]; intros n Hn; simpl.
  - by apply (compact_below_same_children n).
  - destruct (children_ n !! c) as [[child|]|] eqn:Hc; try done.
    rewrite Clone_id.
    destruct (no_children (removed_below rest child)
              && negb (is_value_node_ (removed_below rest child))) eqn:Hprune.
    + by apply compact_below_erase.
    + apply compact_below_set; [done| |].
      * apply IH. by apply (compact_below_children _ Hn c).
      * apply andb_false_iff in Hprune as [?|Hv]; [by right|left].
        by apply negb_false_iff in Hv.
Qed.

Lemma built_compact t : built t → compact t.
Proof.
  intros Hb. induction Hb as [|T key v t t' Hb IH H|key t t' Hb IH H]; [done| |].
  - unfold Put in H. bind_step H. injection H as <-. unfold compact. simpl.
    apply and_comm. eapply compact_below_put; [|exact E].
    unfold compact in IH. destruct (root_ t) as [r|].
    + rewrite Clone_id. by destruct IH.
    + by apply compact_below_no_children.
  - destruct key as [|c rest].
    { unfold Remove in H. destruct (root_ t); [done|]. by injection H as <-. }
    destruct t as [[n|]]; [|by injection H as <-].
    rewrite Remove_eq in H by done. unfold compact in IH. simpl in IH.
    destruct (walk (c :: rest) n) as [cur|]; [|by injection H as <-].
    destruct (negb (is_value_node_ cur)); [by injection H as <-|].
    destruct (no_children (removed_below (c :: rest) n)) eqn:Hnc;
      injection H as <-; [done|].
    unfold compact. cbn [root_]. split; [done|].
    apply (compact_below_removed (c :: rest)). by destruct IH.
Qed.

Lemma value_as_none n : (∀ T, value_as T n = None) → value_ n = None.
Proof.
  intros H. destruct (value_ n) as [[T v]|] eqn:Hv; [|done].
  specialize (H T). unfold value_as, is_value_node_ in H. rewrite Hv in H.
  simpl in H. by rewrite decide_True in H.
Qed.

(** Removing below [n] a key that has just been put below it and held no
    value gives [n] back. *)
Lemma removed_below_put T key v n n' :
  compact_below n → (∀ T', get_below T' key n = None) →
  put_path T key v n = Ok n' → removed_below key n' = n.
Proof.
  revert n n'. induction key as [|c rest IH]; intros n n' Hn Hnone H; [done|].
  apply put_path_clear in H as Hclear. destruct Hclear as [_ Hclear].
  apply put_path_shape in H as (new_node & -> & Hnew).
  cbn [removed_below]. simpl children_. rewrite lookup_insert_eq.
  rewrite Clone_id.
  simpl in Hclear.
  destruct (children_ n !! c) as [[child|]|] eqn:Hc; [| done |].
  - (* the child was there *)
    destruct (compact_below_children _ Hn _ _ Hc) as [Hkeep Hchild].
    assert (removed_below rest new_node = child) as ->.
    { destruct rest as [|d rest].
      - destruct Hnew as [_ Hch]. simpl. rewrite Hch.
        assert (value_ child = None) as Hv.
        { apply value_as_none. intros T'. specialize (Hnone T').
          rewrite get_below_cons, Hc in Hnone. done. }
        unfold plain_node. rewrite <- Hv. apply node_eta.
      - destruct Hnew as (start & Hput & ->). apply (IH child); [done| |done].
        intros T'. specialize (Hnone T'). by rewrite get_below_cons, Hc in Hnone. }
    assert (no_children child && negb (is_value_node_ child) = false) as ->.
    { destruct Hkeep as [->| ->]; [apply andb_false_r|done]. }
    unfold set_child. simpl. rewrite insert_insert_eq, insert_id by done.
    apply node_eta.
  - (* the child was missing *)
    assert (removed_below rest new_node = plain_node ∅) as ->.
    { destruct rest as [|d rest].
      - destruct Hnew as [_ Hch]. simpl. by rewrite Hch.
      - destruct Hnew as (start & Hput & ->). apply (IH (plain_node ∅)); [| |done].
        + by apply compact_below_no_children.
        + intros T'. destruct (d :: rest) eqn:E; [done|].
          by apply get_below_no_children. }
    assert (no_children (plain_node ∅ : TrieNode) = true) as ->.
    { by apply no_children_empty. }
    simpl. unfold erase_child. simpl. rewrite delete_insert_eq, delete_id by done.
    apply node_eta.
Qed.

(** X25.  Removing a key that has just been put.  On a trie built from the
    empty trie by [Put] and [Remove], if a non-empty key holds no value,
    putting a value under it and then removing the key gives back the very
    trie one started from: the nodes [Put] created are pruned by [Remove],
    and no other node is touched. *)
Theorem Put_then_Remove (T : type_id) (key : list Z) (v : value) (t : Trie) :
  built t → key ≠ [] → (∀ T', Get T' key t = Ok None) →
  ∃ t', Put T key v t = Ok t' ∧ Remove key t' = Ok t.
Proof.
  intros Hb Hk Hnone.
  destruct (Put_returns T key v t Hk) as (n' & _ & Hput).
  { intros root Hr. apply null_free_path_clear. by eapply built_null_free. }
  eexists. split; [exact Hput|].
  pose proof (built_compact t Hb) as Hcomp. unfold compact in Hcomp.
  unfold Put in Hput. bind_step Hput. injection Hput as <-.
  rewrite Remove_eq by done.
  destruct (put_path_get_same _ _ _ _ _ E) as [Hsame _].
  unfold get_below in Hsame.
  destruct (walk key a) as [cur|]; [|done].
  assert (is_value_node_ cur = true) as ->.
  { unfold value_as in Hsame. by destruct (is_value_node_ cur). }
  simpl. destruct t as [[n|]]; simpl in *.
  - rewrite Clone_id in E. destruct Hcomp as [Hnc Hcb].
    rewrite (removed_below_put T key v n a Hcb); [by rewrite Hnc| |done].
    intros T'. specialize (Hnone T'). rewrite Get_get_below in Hnone by done.
    by injection Hnone.
  - rewrite (removed_below_put T key v (plain_node ∅) a); [done| |  |done].
    + by apply compact_below_no_children.
    + intros T'. by apply get_below_no_children.
Qed.

End TrieFacts.

Section TrieWitnesses.
Import Trie TrieExamples.

Lemma trie_ab_built : built trie_ab.
Proof.
  apply (built_Put 0%nat [97; 98] 7 trie_empty); [apply built_empty|].
  vm_compute. reflexivity.
Qed.

Lemma Put_then_Get_witness :
  ∃ t', Put 0%nat [97; 98] 7 trie_empty = Ok t' ∧
        Get 0%nat [97; 98] t' = Ok (Some 7) ∧
        ∀ T', T' ≠ 0%nat → Get T' [97; 98] t' = Ok None.
Proof.
  apply (Put_then_Get 0%nat [97; 98] 7 trie_empty).
  - discriminate.
  - intros root. simpl. discriminate.
Defined.

Lemma Put_keeps_other_keys_witness :
  ∃ t', Put 1%nat [97] 5 trie_ab = Ok t' ∧
        Get 0%nat [97; 98] t' = Get 0%nat [97; 98] trie_ab.
Proof.
  eexists. split; [reflexivity|].
  apply (Put_keeps_other_keys 1%nat 0%nat [97] [97; 98] 5 trie_ab).
  - reflexivity.
  - discriminate.
  - discriminate.
Defined.

Lemma Remove_then_Get_witness :
  ∃ t', Remove [97; 98] trie_ab = Ok t' ∧
        (∀ T, Get T [97; 98] t' = Ok None) ∧
        (∀ T k, k ≠ [] → k ≠ [97; 98] → Get T k t' = Get T k trie_ab) ∧
        ((∀ T, Get T [97; 98] trie_ab = Ok None) → t' = trie_ab).
Proof. apply (Remove_then_Get [97; 98] trie_ab). discriminate. Defined.

Lemma built_trie_total_witness :
  (∃ r, Get 0%nat [97] trie_ab = Ok r) ∧
  (∃ t', Put 0%nat [97] 5 trie_ab = Ok t' ∧ built t') ∧
  (∃ t', Remove [97] trie_ab = Ok t' ∧ built t').
Proof.
  apply (built_trie_total 0%nat [97] 5 trie_ab); [apply trie_ab_built|].
  discriminate.
Defined.

Lemma Put_then_Remove_witness :
  ∃ t', Put 1%nat [97; 99] 5 trie_ab = Ok t' ∧ Remove [97; 99] t' = Ok trie_ab.
Proof.
  apply (Put_then_Remove 1%nat [97; 99] 5 trie_ab); [apply trie_ab_built| |].
  - discriminate.
  - intros T'. vm_compute. reflexivity.
Defined.

End TrieWitnesses.
